(** * Hardware isolation record manager (hw_isolation::record::Manager)

    A shallow embedding of [src/hw_isolation_record/manager.cpp].  The
    manager state (entry map, persisted eco cores, pending timers) is threaded
    through a small state-and-exception monad; every interaction with an
    external collaborator (guard store, hardware catalog, D-Bus properties,
    persisted files, journal) is recorded in a trace, and the answers of those
    collaborators are read from an environment record. *)

From Stdlib Require Import ZArith List String Ascii Bool Lia Sorted.
From Stdlib.Strings Require Import Byte.
From Stdlib Require Import DecimalString.
Import ListNotations.

Local Open Scope string_scope.
Local Open Scope Z_scope.

(** ** Data model *)

(** [entry::EntryRecordId], a [uint32_t]. *)
Definition EntryRecordId := Z.

(** The marker that libguard stores in the record id of a resolved record. *)
Definition GUARD_RESOLVED : EntryRecordId := 0xFFFFFFFF.

Definition UINT32_MOD : Z := 2 ^ 32.

(** [openpower_guard::EntityPath] and [devtree::DevTreePhysPath]: the physical
    path of a hardware unit as raw bytes. *)
Definition EntityPath := list byte.
Definition DevTreePhysPath := list byte.

Definition path_eq_dec : forall a b : list byte, {a = b} + {a <> b} :=
  list_eq_dec byte_eq_dec.

Definition path_eqb (a b : list byte) : bool :=
  if path_eq_dec a b then true else false.

(** [devtree::convertEntityPathIntoRawData] and the [EntityPath(data, size)]
    constructor copy the bytes. *)
Definition convertEntityPathIntoRawData (p : EntityPath) : DevTreePhysPath := p.
Definition EntityPath_of_raw (p : DevTreePhysPath) : EntityPath := p.

(** [entry::EntrySeverity] (the [Type] enumeration of the entry interface). *)
Inductive EntrySeverity := Critical | Warning | Manual.

Definition EntrySeverity_eq_dec : forall a b : EntrySeverity, {a = b} + {a <> b}.
Proof. decide equality. Defined.

(** [openpower_guard::GardType], kept as the byte the record stores. *)
Definition GardType := Z.

(** [type::AssociationDef]: (forward type, reverse type, object path). *)
Definition Association := (string * string * string)%type.
Definition AssociationDef := list Association.

Definition Association_eq_dec : forall a b : Association, {a = b} + {a <> b}.
Proof. repeat decide equality. Defined.

Definition AssociationDef_eq_dec : forall a b : AssociationDef, {a = b} + {a <> b} :=
  list_eq_dec Association_eq_dec.

(** [entry::Entry]: the fields the manager reads and writes. *)
Record Entry := mkEntry {
  getEntryRecId : EntryRecordId;
  severity : EntrySeverity;
  resolved : bool;
  associations : AssociationDef;
  getEntityPath : EntityPath;
  elapsed : Z
}.

Definition set_severity (s : EntrySeverity) (e : Entry) : Entry :=
  mkEntry (getEntryRecId e) s (resolved e) (associations e) (getEntityPath e) (elapsed e).
Definition set_associations (a : AssociationDef) (e : Entry) : Entry :=
  mkEntry (getEntryRecId e) (severity e) (resolved e) a (getEntityPath e) (elapsed e).
Definition set_elapsed (t : Z) (e : Entry) : Entry :=
  mkEntry (getEntryRecId e) (severity e) (resolved e) (associations e) (getEntityPath e) t.
Definition set_resolved (b : bool) (e : Entry) : Entry :=
  mkEntry (getEntryRecId e) (severity e) b (associations e) (getEntityPath e) (elapsed e).

(** [openpower_guard::GuardRecord]. *)
Record GuardRecord := mkGuardRecord {
  recordId : EntryRecordId;
  targetId : EntityPath;
  elogId : Z;
  errType : GardType
}.

(** [sdeventplus::utility::Timer]: enabled flag and interval in seconds. *)
Record Timer := mkTimer {
  isEnabled : bool;
  interval : Z
}.

(** ** std::map<EntryRecordId, std::unique_ptr<Entry>> *)

Definition IsolatedHardwares := list (EntryRecordId * Entry).

(** [insert]: key order is kept and an existing key is left alone. *)
Fixpoint map_insert (k : EntryRecordId) (v : Entry) (m : IsolatedHardwares)
  : IsolatedHardwares :=
  match m with
  | [] => [(k, v)]
  | (k', v') :: m' =>
      if k <? k' then (k, v) :: m
      else if k =? k' then m
      else (k', v') :: map_insert k v m'
  end.

Definition map_erase (k : EntryRecordId) (m : IsolatedHardwares) : IsolatedHardwares :=
  filter (fun kv => negb (fst kv =? k)) m.

Fixpoint map_at (k : EntryRecordId) (m : IsolatedHardwares) : option Entry :=
  match m with
  | [] => None
  | (k', v) :: m' => if k' =? k then Some v else map_at k m'
  end.

Definition map_contains (k : EntryRecordId) (m : IsolatedHardwares) : bool :=
  match map_at k m with Some _ => true | None => false end.

(** Writing through [it->second->...]: the entry stored under [k] changes. *)
Definition map_set (k : EntryRecordId) (v : Entry) (m : IsolatedHardwares)
  : IsolatedHardwares :=
  map (fun kv => if fst kv =? k then (fst kv, v) else kv) m.

Definition map_keys (m : IsolatedHardwares) : list EntryRecordId := map fst m.

(** ** std::set<devtree::DevTreePhysPath> *)

Fixpoint path_ltb (a b : list byte) : bool :=
  match a, b with
  | [], [] => false
  | [], _ :: _ => true
  | _ :: _, [] => false
  | x :: a', y :: b' =>
      if (Byte.to_N x <? Byte.to_N y)%N then true
      else if (Byte.to_N y <? Byte.to_N x)%N then false
      else path_ltb a' b'
  end.

Fixpoint set_emplace (p : DevTreePhysPath) (s : list DevTreePhysPath)
  : list DevTreePhysPath :=
  match s with
  | [] => [p]
  | q :: s' =>
      if path_ltb p q then p :: s
      else if path_eqb p q then s
      else q :: set_emplace p s'
  end.

Definition set_erase (p : DevTreePhysPath) (s : list DevTreePhysPath)
  : list DevTreePhysPath :=
  filter (fun q => negb (path_eqb q p)) s.

Definition set_contains (p : DevTreePhysPath) (s : list DevTreePhysPath) : bool :=
  existsb (path_eqb p) s.

(** ** Exceptions, journal messages and the trace of external effects *)

Inductive Exception :=
| Unavailable            (* type::CommonError::Unavailable *)
| NotAllowed             (* type::CommonError::NotAllowed *)
| InvalidArgument        (* type::CommonError::InvalidArgument *)
| InternalFailure        (* type::CommonError::InternalFailure *)
| SdBusError             (* sdbusplus::exception::SdBusError *)
| std_invalid_argument   (* std::invalid_argument *)
| std_out_of_range       (* std::out_of_range *)
| std_exception.         (* any other std::exception *)

(** [catch (const sdbusplus::exception::SdBusError&)]. *)
Definition catches_SdBusError (e : Exception) : bool :=
  match e with SdBusError => true | _ => false end.

(** [catch (const std::exception&)]: every exception above derives from it. *)
Definition catches_std_exception (e : Exception) : bool := true.

Inductive LogMsg :=
| LogSerializeFailed                          (* "... during serialize the eco cores ..." *)
| LogGetEIDFailed (bmcErrorLog : string)      (* "Exception [..] to get EID ..." *)
| LogCreateEntryFailed                        (* "... so failed to create entry" *)
| LogSettingDisabled                          (* "Hardware isolation is not allowed ..." *)
| LogManualNeedsPowerOff                      (* "Manual hardware isolation is allowed only ..." *)
| LogInvalidIsolateHardware                   (* "Invalid argument [IsolateHardware: ..]" *)
| LogInvalidBmcErrorLog (bmcErrorLog : string)(* "Invalid argument [BmcErrorLog: ..]" *)
| LogInvalidSeverity                          (* "Invalid argument [Severity: ..]" *)
| LogResolveFailed (id : EntryRecordId)       (* "Exception [..] to delete entry [..]" *)
| LogSkipNoInventoryPath (p : DevTreePhysPath)(* "... failure to get inventory path" *)
| LogSkipNoBmcLogPath (p : DevTreePhysPath)   (* "... failure to get BMC error log path ..." *)
| LogSkipNoSeverity (p : DevTreePhysPath)     (* "... failure to to get BMC EntrySeverity ..." *)
| LogSkipNoDbusEntry (p : DevTreePhysPath)    (* "... failure to create dbus entry" *)
| LogSkipException (p : DevTreePhysPath)      (* "Exception [..] : Skipping to restore ..." *)
| LogTimerFailed                              (* "... Failed to process hardware isolation record file ..." *)
| LogMoreThanOneValid (p : DevTreePhysPath).  (* "More than one valid records exist ..." *)

Inductive Event :=
| EvLog (msg : LogMsg)
| EvGetPhysicalPath (hw : string)                           (* catalog query *)
| EvGetInventoryPath (p : DevTreePhysPath) (ecoCore : bool) (* catalog query *)
| EvGuardCreate (r : GuardRecord)                           (* openpower_guard::create *)
| EvGuardClear (id : EntryRecordId)                         (* openpower_guard::clear *)
| EvSetEnabledProperty (hw : string) (enabled : bool)       (* utils::setEnabledProperty *)
| EvEntryResolved (id : EntryRecordId)                      (* Entry: resolved(true) *)
| EvEntrySerialize (id : EntryRecordId)                     (* Entry::serialize *)
| EvEntryFileRemove (file : string)                         (* fs::remove of an entry file *)
| EvEcoCoresFileWrite (s : list DevTreePhysPath)            (* the eco cores archive is written *)
| EvEcoCoresFileRemove.                                     (* fs::remove of the eco cores file *)

(** ** Manager state *)

Record Manager := mkManager {
  _isolatedHardwares : IsolatedHardwares;
  _persistedEcoCores : list DevTreePhysPath;
  _timerObjs : list Timer;
  trace : list Event
}.

Definition with_isolatedHardwares (h : IsolatedHardwares) (m : Manager) : Manager :=
  mkManager h (_persistedEcoCores m) (_timerObjs m) (trace m).
Definition with_persistedEcoCores (s : list DevTreePhysPath) (m : Manager) : Manager :=
  mkManager (_isolatedHardwares m) s (_timerObjs m) (trace m).
Definition with_timerObjs (q : list Timer) (m : Manager) : Manager :=
  mkManager (_isolatedHardwares m) (_persistedEcoCores m) q (trace m).
Definition with_trace (t : list Event) (m : Manager) : Manager :=
  mkManager (_isolatedHardwares m) (_persistedEcoCores m) (_timerObjs m) t.

(** ** The state-and-exception monad *)

(** A call returns, throws (the state reached so far is kept) or has
    undefined behaviour. *)
Inductive Outcome (A : Type) :=
| Ok (a : A) (m : Manager)
| Throw (e : Exception) (m : Manager)
| Undefined.
Arguments Ok {A} a m.
Arguments Throw {A} e m.
Arguments Undefined {A}.

Definition M (A : Type) := Manager -> Outcome A.

Definition ret {A} (a : A) : M A := fun m => Ok a m.

Definition bind {A B} (c : M A) (k : A -> M B) : M B :=
  fun m =>
    match c m with
    | Ok a m' => k a m'
    | Throw e m' => Throw e m'
    | Undefined => Undefined
    end.

Definition throw {A} (e : Exception) : M A := fun m => Throw e m.

Definition undefined {A} : M A := fun _ => Undefined.

Definition try_catch {A} (body : M A) (catches : Exception -> bool)
  (handler : Exception -> M A) : M A :=
  fun m =>
    match body m with
    | Throw e m' => if catches e then handler e m' else Throw e m'
    | o => o
    end.

Definition get : M Manager := fun m => Ok m m.
Definition modify (f : Manager -> Manager) : M unit := fun m => Ok tt (f m).

(** The result of a call into a collaborator that may throw. *)
Definition lift {A} (r : Exception + A) : M A :=
  match r with inl e => throw e | inr a => ret a end.

Declare Scope monad_scope.
Delimit Scope monad_scope with monad.
Notation "x <- c ;; k" := (bind c (fun x => k))
  (at level 61, c at next level, right associativity) : monad_scope.
Notation "c ;; k" := (bind c (fun _ => k))
  (at level 61, right associativity) : monad_scope.
Local Open Scope monad_scope.

Fixpoint for_each {A} (f : A -> M unit) (l : list A) : M unit :=
  match l with
  | [] => ret tt
  | x :: l' => f x ;; for_each f l'
  end.

Definition emit (e : Event) : M unit :=
  modify (fun m => with_trace (trace m ++ [e]) m).

Definition log (msg : LogMsg) : M unit := emit (EvLog msg).

(** The state a call leaves behind, when it is defined. *)
Definition final {A} (o : Outcome A) : option Manager :=
  match o with
  | Ok _ m => Some m
  | Throw _ m => Some m
  | Undefined => None
  end.

(** ** The environment: answers of the collaborators

    None of these is defined in [manager.cpp]; the manager only calls them.
    A collaborator that the source guards with a handler may throw. *)

(** [Chassis::PowerState] and [Chassis::convertPowerStateFromString]. *)
Inductive PowerState := Off | TransitioningToOff | On | TransitioningToOn.

Definition PowerState_eq_dec : forall a b : PowerState, {a = b} + {a <> b}.
Proof. decide equality. Defined.

Record Env := mkEnv {
  (* config.h *)
  HW_ISOLATION_ENTRY_OBJPATH : string;
  (* utils::isHwIosolationSettingEnabled(_bus) *)
  isHwIosolationSettingEnabled : bool;
  (* utils::getDBusPropertyVal<std::string>(.., "CurrentPowerState") *)
  getCurrentPowerState : Exception + string;
  (* Chassis::convertPowerStateFromString *)
  convertPowerStateFromString : string -> Exception + PowerState;
  (* _isolatableHWs.getPhysicalPath *)
  getPhysicalPath : string -> option DevTreePhysPath;
  (* _isolatableHWs.getInventoryPath(path, ecoCore): the inventory path and
     the value left in the by-reference flag [ecoCore] *)
  getInventoryPath : DevTreePhysPath -> bool -> option (string * bool);
  (* entry::utils::getGuardType *)
  getGuardType : EntrySeverity -> option GardType;
  (* entry::utils::getEntrySeverityType *)
  getEntrySeverityType : GardType -> option EntrySeverity;
  (* utils::getBMCLogPath(_bus, eid) *)
  getBMCLogPath : Z -> Exception + option string;
  (* utils::getDBusServiceName(_bus, LoggingObjectPath, LoggingInterface) *)
  getDBusServiceName : Exception + string;
  (* the "GetPELIdFromBMCLogId" method call and the read of its reply *)
  GetPELIdFromBMCLogId : string -> Z -> Exception + Z;
  (* sd_bus_path_decode of a path component that starts with '_' *)
  sd_bus_path_decode : string -> string;
  (* openpower_guard::create *)
  guard_create : EntityPath -> Z -> GardType -> Exception + GuardRecord;
  (* whether the constructor of entry::Entry returns *)
  Entry_constructs : EntryRecordId -> bool;
  (* whether Entry::resolveEntry fails *)
  resolveEntry_fails : EntryRecordId -> bool -> bool;
  (* whether cereal writes the eco cores archive *)
  archive_writes : list DevTreePhysPath -> bool
}.

(** ** Library functions used by the manager *)

Definition INT_MIN : Z := - 2 ^ 31.
Definition INT_MAX : Z := 2 ^ 31 - 1.
Definition ULONG_MOD : Z := 2 ^ 64.

(** [isspace] in the C locale. *)
Definition isspace (c : ascii) : bool :=
  let n := Z.of_nat (nat_of_ascii c) in
  (n =? 32) || ((9 <=? n) && (n <=? 13)).

Definition digit_of (c : ascii) : option Z :=
  let n := Z.of_nat (nat_of_ascii c) in
  if (48 <=? n) && (n <=? 57) then Some (n - 48) else None.

Fixpoint skip_spaces (s : string) : string :=
  match s with
  | String c r => if isspace c then skip_spaces r else s
  | EmptyString => s
  end.

(** The longest prefix of decimal digits, if there is a digit at all. *)
Fixpoint parse_digits (s : string) (acc : option Z) : option Z :=
  match s with
  | String c r =>
      match digit_of c with
      | Some d =>
          parse_digits r (Some (10 * (match acc with Some a => a | None => 0 end) + d))
      | None => acc
      end
  | EmptyString => acc
  end.

(** Sign and magnitude read by [strtol] / [strtoul] in base 10. *)
Definition parse_signed (s : string) : option (bool * Z) :=
  let s1 := skip_spaces s in
  let '(neg, s2) :=
    match s1 with
    | String "-" r => (true, r)
    | String "+" r => (false, r)
    | _ => (false, s1)
    end in
  match parse_digits s2 None with
  | Some n => Some (neg, n)
  | None => None
  end.

(** [std::stoi(str)]. *)
Definition stoi (s : string) : Exception + Z :=
  match parse_signed s with
  | None => inl std_invalid_argument
  | Some (neg, n) =>
      let v := if neg then - n else n in
      if (INT_MIN <=? v) && (v <=? INT_MAX) then inr v else inl std_out_of_range
  end.

(** [std::stoul(str)]: a minus sign negates in [unsigned long]. *)
Definition stoul (s : string) : Exception + Z :=
  match parse_signed s with
  | None => inl std_invalid_argument
  | Some (neg, n) =>
      if n <? ULONG_MOD then inr ((if neg then - n else n) mod ULONG_MOD)
      else inl std_out_of_range
  end.

(** [std::to_string] of an unsigned value. *)
Definition to_string (n : Z) : string :=
  NilZero.string_of_uint (N.to_uint (Z.to_N n)).

(** [p.has_filename()]: the path is not empty and does not end in '/'. *)
Fixpoint has_filename (s : string) : bool :=
  match s with
  | EmptyString => false
  | String c EmptyString => negb (Ascii.eqb c "/")
  | String _ r => has_filename r
  end.

(** [fs::path(a) / b] for a relative [b]: the separator is added only when
    [a] has a file name. *)
Definition path_join (a b : string) : string :=
  if has_filename a then a ++ "/" ++ b else a ++ b.

(** The text after the last '/' of [s], if [s] has one. *)
Fixpoint after_last_slash (s : string) (acc : option string) : option string :=
  match s with
  | String c r =>
      if Ascii.eqb c "/" then after_last_slash r (Some "")
      else after_last_slash r
             (match acc with Some a => Some (a ++ String c "") | None => None end)
  | EmptyString => acc
  end.

(** [sdbusplus::message::object_path::filename()]. *)
Definition filename (env : Env) (path : string) : string :=
  match after_last_slash path None with
  | None => ""
  | Some f =>
      match f with
      | String "_" _ => sd_bus_path_decode env f
      | _ => f
      end
  end.

(** ** Manager *)

Section ManagerModel.

Variable env : Env.

Definition entryObjPath (id : EntryRecordId) : string :=
  path_join (HW_ISOLATION_ENTRY_OBJPATH env) (to_string id).

(** [Manager::serialize]. *)
Definition serialize : M unit :=
  m <- get ;;
  match _persistedEcoCores m with
  | [] => emit EvEcoCoresFileRemove
  | _ :: _ =>
      if archive_writes env (_persistedEcoCores m)
      then emit (EvEcoCoresFileWrite (_persistedEcoCores m))
      else log LogSerializeFailed ;; emit EvEcoCoresFileRemove
  end.

(** [Manager::updateEcoCoresList]. *)
Definition updateEcoCoresList (ecoCore : bool) (coreDevTreePhysPath : DevTreePhysPath)
  : M unit :=
  modify (fun m =>
    with_persistedEcoCores
      (if ecoCore then set_emplace coreDevTreePhysPath (_persistedEcoCores m)
       else set_erase coreDevTreePhysPath (_persistedEcoCores m)) m) ;;
  serialize.

(** [Manager::getEID]. *)
Definition getEID (bmcErrorLog : string) : M (option Z) :=
  try_catch
    (dbusServiceName <- lift (getDBusServiceName env) ;;
     logId <- lift (stoi (filename env bmcErrorLog)) ;;
     eid <- lift (GetPELIdFromBMCLogId env dbusServiceName (logId mod UINT32_MOD)) ;;
     ret (Some eid))
    catches_SdBusError
    (fun _ => log (LogGetEIDFailed bmcErrorLog) ;; ret None).

(** The association list built in [createEntry], [updateEntry] and
    [updateEntryForRecord]. *)
Definition associationDeftoHw (isolatedHardware bmcErrorLog : string) : AssociationDef :=
  ("isolated_hw", "isolated_hw_entry", isolatedHardware)
    :: (if string_dec bmcErrorLog "" then []
        else [("isolated_hw_errorlog", "isolated_hw_entry", bmcErrorLog)]).

(** [utils::setEnabledProperty] (utils.cpp).  The call is taken to return: a
    failure of this D-Bus call, like a failure of [openpower_guard::clear],
    is outside the model. *)
Definition setEnabledProperty (hw : string) (enabled : bool) : M unit :=
  emit (EvSetEnabledProperty hw enabled).

(** [Manager::createEntry].  The constructor of [entry::Entry] is defined in
    entry.cpp; here it stores its arguments and, as the spec gives every Entry
    a createdAt time stamp, the time of construction. *)
Definition createEntry (now : Z) (recordId : EntryRecordId) (resolved : bool)
  (severity : EntrySeverity) (isolatedHardware bmcErrorLog : string)
  (deleteRecord : bool) (entityPath : EntityPath) : M (option string) :=
  try_catch
    ((if Entry_constructs env recordId then ret tt else throw std_exception) ;;
     modify (fun m =>
       with_isolatedHardwares
         (map_insert recordId
            (mkEntry recordId severity resolved
               (associationDeftoHw isolatedHardware bmcErrorLog) entityPath now)
            (_isolatedHardwares m)) m) ;;
     setEnabledProperty isolatedHardware resolved ;;
     ret (Some (entryObjPath recordId)))
    catches_std_exception
    (fun _ =>
       log LogCreateEntryFailed ;;
       (if deleteRecord then emit (EvGuardClear recordId) else ret tt) ;;
       ret None).

(** The change-detecting setters of [updateEntry] and [updateEntryForRecord]:
    the entry after the severity and association setters, and the flag
    [updated]. *)
Definition applySetters (sev : EntrySeverity) (assoc : AssociationDef) (e : Entry)
  : Entry * bool :=
  let '(e1, updated1) :=
    if EntrySeverity_eq_dec (severity e) sev then (e, false)
    else (set_severity sev e, true) in
  if AssociationDef_eq_dec (associations e1) assoc then (e1, updated1)
  else (set_associations assoc e1, true).

Definition set_entry (k : EntryRecordId) (e : Entry) : M unit :=
  modify (fun m => with_isolatedHardwares (map_set k e (_isolatedHardwares m)) m).

(** The [std::find_if] of [updateEntry]: the first entry of this hardware
    and this record. *)
Definition find_entry (recordId : EntryRecordId) (entityPath : EntityPath)
  (h : IsolatedHardwares) : option (EntryRecordId * Entry) :=
  find (fun isolatedHw => path_eqb (getEntityPath (snd isolatedHw)) entityPath
                          && (getEntryRecId (snd isolatedHw) =? recordId)) h.

(** [Manager::updateEntry]. *)
Definition updateEntry (now : Z) (recordId : EntryRecordId) (severity : EntrySeverity)
  (isolatedHwDbusObjPath bmcErrorLog : string) (entityPath : EntityPath)
  : M (bool * string) :=
  m <- get ;;
  match find_entry recordId entityPath (_isolatedHardwares m) with
  | None => ret (false, "")
  | Some (k, e) =>
      let '(e', updated) :=
        applySetters severity
          (associationDeftoHw isolatedHwDbusObjPath bmcErrorLog) e in
      set_entry k e' ;;
      (if updated then set_entry k (set_elapsed now e') else ret tt) ;;
      emit (EvEntrySerialize k) ;;
      ret (true, entryObjPath k)
  end.

(** [Manager::isHwIsolationAllowed]. *)
Definition isHwIsolationAllowed (severity : EntrySeverity) : M unit :=
  if negb (isHwIosolationSettingEnabled env)
  then log LogSettingDisabled ;; throw Unavailable
  else
    match severity with
    | Manual =>
        systemPowerState <- lift (getCurrentPowerState env) ;;
        powerState <- lift (convertPowerStateFromString env systemPowerState) ;;
        if PowerState_eq_dec powerState Off then ret tt
        else log LogManualNeedsPowerOff ;; throw NotAllowed
    | _ => ret tt
    end.

(** The end of the three create calls: update the entry of this record and
    hardware, or create it and give up the record when that fails. *)
Definition updateOrCreateEntry (now : Z) (guardRecord : GuardRecord)
  (severity : EntrySeverity) (isolatedHardware bmcErrorLog : string) : M string :=
  r <- updateEntry now (recordId guardRecord) severity isolatedHardware bmcErrorLog
         (targetId guardRecord) ;;
  if fst r then ret (snd r)
  else
    entryPath <- createEntry now (recordId guardRecord) false severity
                   isolatedHardware bmcErrorLog true (targetId guardRecord) ;;
    match entryPath with
    | None => throw InternalFailure
    | Some p => ret p
    end.

Definition openpower_guard_create (p : EntityPath) (eId : Z) (t : GardType)
  : M GuardRecord :=
  r <- lift (guard_create env p eId t) ;;
  emit (EvGuardCreate r) ;;
  ret r.

(** [Manager::create]. *)
Definition create (now : Z) (isolateHardware : string) (severity : EntrySeverity)
  : M string :=
  isHwIsolationAllowed severity ;;
  emit (EvGetPhysicalPath isolateHardware) ;;
  match getPhysicalPath env isolateHardware with
  | None => log LogInvalidIsolateHardware ;; throw InvalidArgument
  | Some devTreePhysicalPath =>
      match getGuardType env severity with
      | None => log LogInvalidSeverity ;; throw InvalidArgument
      | Some guardType =>
          guardRecord <- openpower_guard_create
                           (EntityPath_of_raw devTreePhysicalPath) 0 guardType ;;
          updateOrCreateEntry now guardRecord severity isolateHardware ""
      end
  end.

(** [Manager::createWithErrorLog]. *)
Definition createWithErrorLog (now : Z) (isolateHardware : string)
  (severity : EntrySeverity) (bmcErrorLog : string) : M string :=
  isHwIsolationAllowed severity ;;
  emit (EvGetPhysicalPath isolateHardware) ;;
  match getPhysicalPath env isolateHardware with
  | None => log LogInvalidIsolateHardware ;; throw InvalidArgument
  | Some devTreePhysicalPath =>
      eId <- getEID bmcErrorLog ;;
      match eId with
      | None => log (LogInvalidBmcErrorLog bmcErrorLog) ;; throw InvalidArgument
      | Some eId =>
          match getGuardType env severity with
          | None => log LogInvalidSeverity ;; throw InvalidArgument
          | Some guardType =>
              guardRecord <- openpower_guard_create
                               (EntityPath_of_raw devTreePhysicalPath) eId guardType ;;
              updateOrCreateEntry now guardRecord severity isolateHardware bmcErrorLog
          end
      end
  end.

(** [Manager::createWithEntityPath]. *)
Definition createWithEntityPath (now : Z) (entityPath : DevTreePhysPath)
  (severity : EntrySeverity) (bmcErrorLog : string) : M string :=
  isHwIsolationAllowed severity ;;
  emit (EvGetInventoryPath entityPath false) ;;
  match getInventoryPath env entityPath false with
  | None => log LogInvalidIsolateHardware ;; throw InvalidArgument
  | Some (isolateHwInventoryPath, ecoCore) =>
      updateEcoCoresList ecoCore entityPath ;;
      eId <- getEID bmcErrorLog ;;
      match eId with
      | None => log (LogInvalidBmcErrorLog bmcErrorLog) ;; throw InvalidArgument
      | Some eId =>
          match getGuardType env severity with
          | None => log LogInvalidSeverity ;; throw InvalidArgument
          | Some guardType =>
              guardRecord <- openpower_guard_create
                               (EntityPath_of_raw entityPath) eId guardType ;;
              updateOrCreateEntry now guardRecord severity isolateHwInventoryPath
                bmcErrorLog
          end
      end
  end.

(** [it->second]: reading through an iterator whose element was erased is
    undefined. *)
Definition entry_at (k : EntryRecordId) : M Entry :=
  m <- get ;;
  match map_at k (_isolatedHardwares m) with
  | Some e => ret e
  | None => undefined
  end.

(** [Manager::eraseEntry]. *)
Definition eraseEntry (entryRecordId : EntryRecordId) : M unit :=
  m <- get ;;
  (match map_at entryRecordId (_isolatedHardwares m) with
   | Some e =>
       updateEcoCoresList false (convertEntityPathIntoRawData (getEntityPath e))
   | None => ret tt
   end) ;;
  modify (fun m =>
    with_isolatedHardwares (map_erase entryRecordId (_isolatedHardwares m)) m).

(** Modelled from the spec: [Entry::resolveEntry] is defined in entry.cpp,
    which is not part of the sources at hand.  "a resolve(clearUnderlyingRecord)
    operation that marks the record resolved (optionally instructing Guard
    Store to delete the underlying record) and is idempotent"; an Entry "is
    destroyed when resolved", which the entry does through
    [Manager::eraseEntry]; "a failure resolving one entry is logged and does
    not abort the remaining iterations".  The spec does not say how far a
    failing resolve gets; here it fails before it has done anything.  [k] is
    the key the entry is stored under. *)
Definition resolveEntry (k : EntryRecordId) (clearRecord : bool) : M unit :=
  e <- entry_at k ;;
  if resolved e then ret tt
  else if resolveEntry_fails env (getEntryRecId e) clearRecord then throw std_exception
  else
    (if clearRecord then emit (EvGuardClear (getEntryRecId e)) else ret tt) ;;
    set_entry k (set_resolved true e) ;;
    emit (EvEntryResolved (getEntryRecId e)) ;;
    eraseEntry (getEntryRecId e).

(** [Manager::resolveAllEntries]: the iterator is advanced before the entry
    is resolved, so the loop visits the keys present when it starts. *)
Definition resolveAllEntries (clearRecord : bool) : M unit :=
  m <- get ;;
  for_each
    (fun entryRecordId =>
       try_catch (resolveEntry entryRecordId clearRecord)
         catches_std_exception
         (fun _ => log (LogResolveFailed entryRecordId)))
    (map_keys (_isolatedHardwares m)).

(** [Manager::isValidRecord]. *)
Definition isValidRecord (recordId : EntryRecordId) : bool :=
  if recordId =? 0xFFFFFFFF then false else true.

Definition catalog_getInventoryPath (p : DevTreePhysPath) (ecoCore : bool)
  : M (option (string * bool)) :=
  emit (EvGetInventoryPath p ecoCore) ;;
  ret (getInventoryPath env p ecoCore).

(** [Manager::createEntryForRecord]. *)
Definition createEntryForRecord (now : Z) (record : GuardRecord) (isRestorePath : bool)
  : M unit :=
  let entityPathRawData := convertEntityPathIntoRawData (targetId record) in
  try_catch
    (let resolved := recordId record =? 0xFFFFFFFF in
     m <- get ;;
     let ecoCore := set_contains entityPathRawData (_persistedEcoCores m)
                    && isRestorePath in
     isolatedHwInventoryPath <- catalog_getInventoryPath entityPathRawData ecoCore ;;
     match isolatedHwInventoryPath with
     | None => log (LogSkipNoInventoryPath entityPathRawData)
     | Some (inventoryPath, ecoCore) =>
         updateEcoCoresList ecoCore entityPathRawData ;;
         bmcErrorLogPath <- lift (getBMCLogPath env (elogId record)) ;;
         match bmcErrorLogPath, isRestorePath with
         | None, false => log (LogSkipNoBmcLogPath entityPathRawData)
         | _, _ =>
             let strBmcErrorLogPath :=
               match bmcErrorLogPath with Some s => s | None => "" end in
             match getEntrySeverityType env (errType record) with
             | None => log (LogSkipNoSeverity entityPathRawData)
             | Some entrySeverity =>
                 entryPath <- createEntry now (recordId record) resolved entrySeverity
                                inventoryPath strBmcErrorLogPath false (targetId record) ;;
                 match entryPath with
                 | None => log (LogSkipNoDbusEntry entityPathRawData)
                 | Some _ => ret tt
                 end
             end
         end
     end)
    catches_std_exception
    (fun _ => log (LogSkipException entityPathRawData)).

(** [Manager::updateEntryForRecord]; [k] is the key [entryIt] points at. *)
Definition updateEntryForRecord (now : Z) (record : GuardRecord) (k : EntryRecordId)
  : M unit :=
  let entityPathRawData := convertEntityPathIntoRawData (targetId record) in
  isolatedHwInventoryPath <- catalog_getInventoryPath entityPathRawData false ;;
  match isolatedHwInventoryPath with
  | None => log (LogSkipNoInventoryPath entityPathRawData)
  | Some (inventoryPath, ecoCore) =>
      updateEcoCoresList ecoCore entityPathRawData ;;
      bmcErrorLogPath <- lift (getBMCLogPath env (elogId record)) ;;
      match bmcErrorLogPath with
      | None => log (LogSkipNoBmcLogPath entityPathRawData)
      | Some bmcErrorLogPath =>
          match getEntrySeverityType env (errType record) with
          | None => log (LogSkipNoSeverity entityPathRawData)
          | Some entrySeverity =>
              e <- entry_at k ;;
              let '(e', updated) :=
                applySetters entrySeverity
                  (associationDeftoHw inventoryPath bmcErrorLogPath) e in
              set_entry k e' ;;
              setEnabledProperty inventoryPath false ;;
              (if updated then set_entry k (set_elapsed now e') else ret tt) ;;
              emit (EvEntrySerialize k)
          end
      end
  end.

(** The loop of [Manager::cleanupPersistedEcoCores] over the eco cores
    present when it starts; the result is the flag [updated]. *)
Fixpoint cleanupEcoCoresLoop (ecoCores : list DevTreePhysPath) (updated : bool)
  : M bool :=
  match ecoCores with
  | [] => ret updated
  | ecoCore :: rest =>
      m <- get ;;
      let isNotIsolated :=
        negb (existsb
                (fun entry => path_eqb (getEntityPath (snd entry))
                                (EntityPath_of_raw ecoCore))
                (_isolatedHardwares m)) in
      if isNotIsolated
      then updateEcoCoresList false ecoCore ;; cleanupEcoCoresLoop rest true
      else cleanupEcoCoresLoop rest updated
  end.

(** [Manager::cleanupPersistedEcoCores]. *)
Definition cleanupPersistedEcoCores : M unit :=
  m <- get ;;
  updated <-
    match _isolatedHardwares m with
    | [] => modify (with_persistedEcoCores []) ;; ret true
    | _ :: _ => cleanupEcoCoresLoop (_persistedEcoCores m) false
    end ;;
  if updated then serialize else ret tt.

(** [Manager::cleanupPersistedFiles]; [files] are the names found in the
    directory of the persisted entries. *)
Definition cleanupPersistedFiles (files : list string) : M unit :=
  for_each
    (fun file =>
       fileEntryId <- lift (stoul file) ;;
       m <- get ;;
       if map_contains (fileEntryId mod UINT32_MOD) (_isolatedHardwares m)
       then ret tt
       else emit (EvEntryFileRemove file))
    files ;;
  cleanupPersistedEcoCores.

(** [Manager::restore]; [records] is what [openpower_guard::getAll(true)]
    returns. *)
Definition restore (now : Z) (records : list GuardRecord) (files : list string)
  : M unit :=
  let validRecords := filter (fun record => isValidRecord (recordId record)) records in
  for_each (fun record => createEntryForRecord now record true) validRecords ;;
  cleanupPersistedFiles files.

(** [Manager::processHardwareIsolationRecordFile]; [timerConstructs] tells
    whether the construction of the timer returns. *)
Definition processHardwareIsolationRecordFile (timerConstructs : bool) : M unit :=
  try_catch
    ((if timerConstructs then ret tt else throw std_exception) ;;
     modify (fun m => with_timerObjs (_timerObjs m ++ [mkTimer true 5]) m))
    catches_std_exception
    (fun _ => log LogTimerFailed).

(** The body of the loop over the entries in
    [Manager::handleHostIsolatedHardwares], for the entry under key [k]. *)
Definition reconcileEntry (now : Z) (records : list GuardRecord) (k : EntryRecordId)
  : M unit :=
  e <- entry_at k ;;
  let entryRecords :=
    filter (fun record => path_eqb (getEntityPath e) (targetId record)) records in
  match entryRecords with
  | [] => resolveEntry k false
  | _ :: _ =>
      let validEntryRecords :=
        filter (fun record => isValidRecord (recordId record)) entryRecords in
      match validEntryRecords with
      | [] => resolveEntry k false
      | [record] => updateEntryForRecord now record k
      | _ :: _ :: _ =>
          log (LogMoreThanOneValid (convertEntityPathIntoRawData (getEntityPath e)))
      end
  end.

(** The lambda [createEntryIfNotExists].  It calls [createEntryForRecord]
    without its second argument, whose default is declared in manager.hpp.
    Modelled from the spec: "eco-core restore semantics only apply during the
    startup restore path, not during runtime reconciliation", so the default
    of [isRestorePath] is [false]. *)
Definition createEntryIfNotExists (now : Z) (validRecord : GuardRecord) : M unit :=
  m <- get ;;
  if existsb (fun entry => path_eqb (targetId validRecord) (getEntityPath (snd entry)))
       (_isolatedHardwares m)
  then ret tt
  else createEntryForRecord now validRecord false.

(** The front timer is taken off the queue and disabled. *)
Definition popTimer : M unit :=
  m <- get ;;
  match _timerObjs m with
  | [] => undefined
  | _ :: rest => modify (with_timerObjs rest)
  end.

(** [Manager::handleHostIsolatedHardwares] after the timer was taken off
    the queue; [records] is what [openpower_guard::getAll(true)] returns. *)
Definition reconcile (now : Z) (records : list GuardRecord) : M unit :=
  m <- get ;;
  match records, _isolatedHardwares m with
  | [], _ :: _ =>
      resolveAllEntries false ;;
      modify (with_isolatedHardwares [])
  | _, _ =>
      for_each (reconcileEntry now records) (map_keys (_isolatedHardwares m)) ;;
      for_each (createEntryIfNotExists now)
        (filter (fun record => isValidRecord (recordId record)) records) ;;
      cleanupPersistedEcoCores
  end.

(** [Manager::handleHostIsolatedHardwares]. *)
Definition handleHostIsolatedHardwares (now : Z) (records : list GuardRecord) : M unit :=
  popTimer ;;
  reconcile now records.

End ManagerModel.

(** A manager without entries, eco cores and pending timers. *)
Definition manager0 : Manager := mkManager [] [] [] [].

(** ** Sample collaborators, used to run the model on concrete inputs *)

Module Samples.

Definition objRoot : string := "/xyz/openbmc_project/hardware_isolation/entry".
Definition core0 : string := "/xyz/openbmc_project/inventory/system/chassis/motherboard/dcm0/cpu0/core0".
Definition core1 : string := "/xyz/openbmc_project/inventory/system/chassis/motherboard/dcm0/cpu0/core1".
Definition elog7 : string := "/xyz/openbmc_project/logging/entry/7".
Definition elogBad : string := "/xyz/openbmc_project/logging/entry/abc".

Definition pathP : EntityPath := [x23; x01; x00; x05; x00; x07; x00]%byte.
Definition pathQ : EntityPath := [x23; x01; x00; x05; x00; x07; x01]%byte.

Definition powerStateOf (s : string) : Exception + PowerState :=
  if string_dec s "xyz.openbmc_project.State.Chassis.PowerState.Off" then inr Off
  else if string_dec s "xyz.openbmc_project.State.Chassis.PowerState.TransitioningToOff"
  then inr TransitioningToOff
  else if string_dec s "xyz.openbmc_project.State.Chassis.PowerState.On" then inr On
  else if string_dec s "xyz.openbmc_project.State.Chassis.PowerState.TransitioningToOn"
  then inr TransitioningToOn
  else inl std_exception.

Definition physicalPathOf (hw : string) : option DevTreePhysPath :=
  if string_dec hw core0 then Some pathP
  else if string_dec hw core1 then Some pathQ
  else None.

Definition inventoryPathOf (p : DevTreePhysPath) (ecoCore : bool)
  : option (string * bool) :=
  if path_eq_dec p pathP then Some (core0, ecoCore)
  else if path_eq_dec p pathQ then Some (core1, ecoCore)
  else None.

(** GARD_Fatal = 0xE3, GARD_Predictive = 0xE6, GARD_User_Manual = 0xD2. *)
Definition guardTypeOf (s : EntrySeverity) : option GardType :=
  match s with
  | Critical => Some 0xE3
  | Warning => Some 0xE6
  | Manual => Some 0xD2
  end.

Definition severityOf (t : GardType) : option EntrySeverity :=
  if t =? 0xE3 then Some Critical
  else if t =? 0xE6 then Some Warning
  else if t =? 0xD2 then Some Manual
  else None.

Definition bmcLogPathOf (eid : Z) : Exception + option string :=
  if eid =? 0 then inr (Some "")
  else if eid =? 0x50000007 then inr (Some elog7)
  else inr None.

Definition pelIdOf (service : string) (logId : Z) : Exception + Z :=
  if logId =? 7 then inr 0x50000007 else inl SdBusError.

(** A guard store that hands out record id 1. *)
Definition guardCreate1 (p : EntityPath) (eId : Z) (t : GardType)
  : Exception + GuardRecord :=
  inr (mkGuardRecord 1 p eId t).

(** Isolation enabled, chassis on, every collaborator answers. *)
Definition envOn : Env :=
  mkEnv objRoot true
    (inr "xyz.openbmc_project.State.Chassis.PowerState.On") powerStateOf
    physicalPathOf inventoryPathOf guardTypeOf severityOf bmcLogPathOf
    (inr "xyz.openbmc_project.Logging") pelIdOf (fun s => s)
    guardCreate1 (fun _ => true) (fun _ _ => false) (fun _ => true).

(** As [envOn], with the isolation setting switched off. *)
Definition envDisabled : Env :=
  mkEnv objRoot false
    (inr "xyz.openbmc_project.State.Chassis.PowerState.On") powerStateOf
    physicalPathOf inventoryPathOf guardTypeOf severityOf bmcLogPathOf
    (inr "xyz.openbmc_project.Logging") pelIdOf (fun s => s)
    guardCreate1 (fun _ => true) (fun _ _ => false) (fun _ => true).

(** As [envOn], but no entry object can be constructed. *)
Definition envNoEntry : Env :=
  mkEnv objRoot true
    (inr "xyz.openbmc_project.State.Chassis.PowerState.On") powerStateOf
    physicalPathOf inventoryPathOf guardTypeOf severityOf bmcLogPathOf
    (inr "xyz.openbmc_project.Logging") pelIdOf (fun s => s)
    guardCreate1 (fun _ => false) (fun _ _ => false) (fun _ => true).

(** A guard store that hands out the sentinel record id. *)
Definition guardCreateSentinel (p : EntityPath) (eId : Z) (t : GardType)
  : Exception + GuardRecord :=
  inr (mkGuardRecord 0xFFFFFFFF p eId t).

(** As [envOn], with that guard store. *)
Definition envSentinelStore : Env :=
  mkEnv objRoot true
    (inr "xyz.openbmc_project.State.Chassis.PowerState.On") powerStateOf
    physicalPathOf inventoryPathOf guardTypeOf severityOf bmcLogPathOf
    (inr "xyz.openbmc_project.Logging") pelIdOf (fun s => s)
    guardCreateSentinel (fun _ => true) (fun _ _ => false) (fun _ => true).

Definition entryP (id : EntryRecordId) : Entry :=
  mkEntry id Critical false (associationDeftoHw core0 "") pathP 100.
Definition entryQ (id : EntryRecordId) : Entry :=
  mkEntry id Warning false (associationDeftoHw core1 "") pathQ 100.

Definition recordP (id : EntryRecordId) : GuardRecord := mkGuardRecord id pathP 0 0xE3.
Definition recordQ (id : EntryRecordId) : GuardRecord := mkGuardRecord id pathQ 0 0xE6.

(** Two unresolved entries and one pending timer. *)
Definition managerPQ : Manager :=
  mkManager [(1, entryP 1); (2, entryQ 2)] [] [mkTimer true 5] [].

End Samples.

(** ** Notions used in the statements *)

(** The file-change signals of a burst, one flag per signal telling whether
    its timer could be constructed. *)
Definition fileChangeSignals (cs : list bool) : M unit :=
  for_each processHardwareIsolationRecordFile cs.

(** No key of the entry map and no entry stored in it carries the id of a
    resolved record. *)
Definition no_sentinel (m : Manager) : Prop :=
  forall k e, In (k, e) (_isolatedHardwares m) ->
    k <> 0xFFFFFFFF /\ getEntryRecId e <> 0xFFFFFFFF.

(** The entry map as a [std::map] the manager built: keys in increasing order
    and every entry stored under its own record id. *)
Definition well_formed (m : Manager) : Prop :=
  StronglySorted Z.lt (map_keys (_isolatedHardwares m)) /\
  Forall (fun kv => getEntryRecId (snd kv) = fst kv) (_isolatedHardwares m).

(** What one call of [Manager::serialize] does to the eco cores file. *)
Definition serialize_events (env : Env) (s : list DevTreePhysPath) : list Event :=
  match s with
  | [] => [EvEcoCoresFileRemove]
  | _ :: _ =>
      if archive_writes env s then [EvEcoCoresFileWrite s]
      else [EvLog LogSerializeFailed; EvEcoCoresFileRemove]
  end.

(** The events by which [Manager::serialize] touches the eco cores file. *)
Definition is_eco_file_event (ev : Event) : bool :=
  match ev with
  | EvEcoCoresFileWrite _ | EvEcoCoresFileRemove => true
  | _ => false
  end.

(** Some entry of the map carries the entity path [p]. *)
Definition carried (h : IsolatedHardwares) (p : EntityPath) : bool :=
  existsb (fun entry => path_eqb (getEntityPath (snd entry)) p) h.

(** The gate lets the call through when the setting is on and, for a
    manual isolation, the chassis is off. *)
Definition gate_open (env : Env) (sev : EntrySeverity) : Prop :=
  isHwIosolationSettingEnabled env = true /\
  (sev = Manual ->
   exists s, getCurrentPowerState env = inr s /\
             convertPowerStateFromString env s = inr Off).

(** [getEID] gets the answer [eid] from the error-log service. *)
Definition getEID_answers (env : Env) (bmcErrorLog : string) (eid : Z) : Prop :=
  exists service logId,
    getDBusServiceName env = inr service /\
    stoi (filename env bmcErrorLog) = inr logId /\
    GetPELIdFromBMCLogId env service (logId mod UINT32_MOD) = inr eid.

(** A create call that started from [m] ended with InternalFailure, left
    the entry map as it was, and the last things it did were to create the
    guard record [rec], to report the failed entry and to clear [rec]. *)
Definition gave_up_record (o : Outcome string) (m : Manager) (rec : GuardRecord)
  : Prop :=
  exists m' before,
    o = Throw InternalFailure m' /\
    _isolatedHardwares m' = _isolatedHardwares m /\
    trace m' =
      (trace m ++ before
         ++ [EvGuardCreate rec; EvLog LogCreateEntryFailed;
             EvGuardClear (recordId rec)])%list /\
    forall ev, In ev before ->
      match ev with
      | EvGuardCreate _ | EvGuardClear _ => False
      | _ => True
      end.

(** The events of the per-record update and creation steps (both start
    with a catalog query) and of the guard store. *)
Definition is_diff_or_store_event (ev : Event) : bool :=
  match ev with
  | EvGetPhysicalPath _ | EvGetInventoryPath _ _ | EvGuardCreate _
  | EvGuardClear _ | EvSetEnabledProperty _ _ | EvEntrySerialize _ => true
  | _ => false
  end.

(** The eco cores after [updateEcoCoresList ecoCore p]. *)
Definition ecoCores_after (ecoCore : bool) (p : DevTreePhysPath)
  (s : list DevTreePhysPath) : list DevTreePhysPath :=
  if ecoCore then set_emplace p s else set_erase p s.

(** What [updateEntryForRecord] and the run-time [createEntryForRecord]
    learn about a record: the inventory path, the error-log path and the
    severity, unless a collaborator has no answer or throws. *)
Definition record_view (env : Env) (r : GuardRecord)
  : Exception + option (string * string * EntrySeverity) :=
  match getInventoryPath env (convertEntityPathIntoRawData (targetId r)) false with
  | None => inr None
  | Some (inventoryPath, _) =>
      match getBMCLogPath env (elogId r) with
      | inl ex => inl ex
      | inr None => inr None
      | inr (Some bmcErrorLogPath) =>
          match getEntrySeverityType env (errType r) with
          | None => inr None
          | Some entrySeverity =>
              inr (Some (inventoryPath, bmcErrorLogPath, entrySeverity))
          end
      end
  end.

(** The valid records of the snapshot for the hardware of entry [e]. *)
Definition valid_matches (records : list GuardRecord) (e : Entry) : list GuardRecord :=
  filter (fun record => isValidRecord (recordId record))
    (filter (fun record => path_eqb (getEntityPath e) (targetId record)) records).

(** The entry after the setters and the time stamp of an update. *)
Definition stamped (now : Z) (r : Entry * bool) : Entry :=
  if snd r then set_elapsed now (fst r) else fst r.

(** The reconciliation has nothing left to do for entry [e]. *)
Definition settled (env : Env) (records : list GuardRecord) (e : Entry) : Prop :=
  match valid_matches records e with
  | [] => resolved e = true
  | [r] =>
      match record_view env r with
      | inl _ => False
      | inr None => True
      | inr (Some (inventoryPath, bmcErrorLogPath, entrySeverity)) =>
          severity e = entrySeverity /\
          associations e = associationDeftoHw inventoryPath bmcErrorLogPath
      end
  | _ :: _ :: _ => True
  end.

(** Some entry of the map has the entity path of record [r]. *)
Definition shares_path (r : GuardRecord) (h : IsolatedHardwares) : bool :=
  existsb (fun entry => path_eqb (targetId r) (getEntityPath (snd entry))) h.

(** The creation step has nothing left to do for record [r]. *)
Definition creation_done (env : Env) (h : IsolatedHardwares) (r : GuardRecord) : Prop :=
  shares_path r h = true \/
  match record_view env r with
  | inr (Some _) =>
      Entry_constructs env (recordId r) = false \/ map_at (recordId r) h <> None
  | _ => True
  end.

(** Every entry of the map is settled. *)
Definition all_settled (env : Env) (records : list GuardRecord) (m : Manager) : Prop :=
  forall k e, map_at k (_isolatedHardwares m) = Some e -> settled env records e.

(** A call started in a state satisfying [I]: its outcome satisfies [Q] when
    it returns and [I] when it throws. *)
Definition post (I : Manager -> Prop) {A} (Q : A -> Manager -> Prop) (o : Outcome A)
  : Prop :=
  match o with
  | Ok a m' => Q a m'
  | Throw _ m' => I m'
  | Undefined => True
  end.

(** The call [c] keeps the predicate [I]. *)
Definition keeps (I : Manager -> Prop) {A} (c : M A) : Prop :=
  forall m, I m -> post I (fun _ => I) (c m).

(** The guard store hands out acceptable record ids. *)
Definition store_ids_ok (env : Env) (okKey : EntryRecordId -> Prop) : Prop :=
  forall p eId t r, guard_create env p eId t = inr r -> okKey (recordId r).

(** Every record id that [isValidRecord] lets through is acceptable. *)
Definition valid_ids_ok (okKey : EntryRecordId -> Prop) : Prop :=
  forall id, isValidRecord id = true -> okKey id.

(** ** Further operations of the manager *)

(** The lambda of [std::find_if] in [getIsolatedHwRecordInfo]: the answer is
    given by the first "isolated_hw" association of the entry. *)
Fixpoint isolated_hw_is (hwInventoryPath : string) (assocs : AssociationDef) : bool :=
  match assocs with
  | [] => false
  | (fwd, _, target) :: rest =>
      if string_dec fwd "isolated_hw"
      then (if string_dec target hwInventoryPath then true else false)
      else isolated_hw_is hwInventoryPath rest
  end.

(** The second loop of [getIsolatedHwRecordInfo]: the target of the first
    "isolated_hw_errorlog" association, or the empty path. *)
Fixpoint errLogPath_of (assocs : AssociationDef) : string :=
  match assocs with
  | [] => ""
  | (fwd, _, target) :: rest =>
      if string_dec fwd "isolated_hw_errorlog" then target else errLogPath_of rest
  end.

(** [Manager::getIsolatedHwRecordInfo]. *)
Definition getIsolatedHwRecordInfo (hwInventoryPath : string) (m : Manager)
  : option (EntrySeverity * string) :=
  match find (fun ele => isolated_hw_is hwInventoryPath (associations (snd ele)))
          (_isolatedHardwares m) with
  | None => None
  | Some (_, e) => Some (severity e, errLogPath_of (associations e))
  end.

(** [Manager::deleteAll].  [isHwDeisolationAllowed] is the outcome of
    [hw_isolation::utils::isHwDeisolationAllowed(_bus)], which "throws
    exception if not allowed"; [clearRecord] is the default argument of
    [resolveAllEntries], declared in manager.hpp. *)
Definition deleteAll (env : Env) (isHwDeisolationAllowed : Exception + unit)
  (clearRecord : bool) : M unit :=
  (lift isHwDeisolationAllowed ;; resolveAllEntries env clearRecord)%monad.

(** ** Further notions used in the statements *)

(** The calls into the guard store. *)
Definition is_guard_store_event (ev : Event) : bool :=
  match ev with
  | EvGuardCreate _ | EvGuardClear _ => true
  | _ => false
  end.

(** The eco cores file as the events of a trace leave it: [None] while no
    event touched it, [Some None] when it was removed last, [Some (Some s)]
    when the set [s] was written last. *)
Definition ecoFile_after (t : list Event) : option (option (list DevTreePhysPath)) :=
  fold_left
    (fun file ev =>
       match ev with
       | EvEcoCoresFileWrite s => Some (Some s)
       | EvEcoCoresFileRemove => Some None
       | _ => file
       end)
    t None.

(** The eco cores file that goes with the set [s]: no file for the empty
    set, and none when the archive could not be written. *)
Definition ecoFile_expected (env : Env) (s : list DevTreePhysPath)
  : option (list DevTreePhysPath) :=
  match s with
  | [] => None
  | _ :: _ => if archive_writes env s then Some s else None
  end.

(** The last thing done to the eco cores file matches the set in memory. *)
Definition eco_file_synced (env : Env) (m : Manager) : Prop :=
  ecoFile_after (trace m) = Some (ecoFile_expected env (_persistedEcoCores m)).

(** The new events of a call from [m] to [m'] all satisfy [P]. *)
Definition emitted_only (P : Event -> bool) (m m' : Manager) : Prop :=
  exists evs, trace m' = (trace m ++ evs)%list /\ forallb P evs = true.

(** From [m] to [m'] the eco cores and their file were left alone, or the
    file was brought in line with the set. *)
Definition eco_file_follows (env : Env) (m m' : Manager) : Prop :=
  (exists evs,
     trace m' = (trace m ++ evs)%list /\
     existsb is_eco_file_event evs = false /\
     _persistedEcoCores m' = _persistedEcoCores m) \/
  eco_file_synced env m'.

(** What [eco_file_follows] gives a caller: a file that matched the set still
    matches it, and a changed set is matched by the file. *)
Definition eco_file_kept (env : Env) (m m' : Manager) : Prop :=
  (eco_file_synced env m -> eco_file_synced env m') /\
  (_persistedEcoCores m' <> _persistedEcoCores m -> eco_file_synced env m').

(** The call [c], started in [m], keeps the eco cores file in step, whether
    it returns or throws. *)
Definition eco_file_kept_by (env : Env) {A} (c : M A) (m : Manager) : Prop :=
  match final (c m) with
  | Some m' => eco_file_kept env m m'
  | None => True
  end.

(** What a create call that returns has done for the record [rec] of the
    guard store: the map holds under the record id an entry of this record
    and hardware with the severity and the associations asked for; no other
    key has changed; an entry that already had this severity and these
    associations left the whole map as it was; and an entry that was not
    there before is unresolved and carries the time of the call. *)
Definition holds_entry_for (now : Z) (rec : GuardRecord) (sev : EntrySeverity)
  (hw elog : string) (m m' : Manager) : Prop :=
  exists e',
    map_at (recordId rec) (_isolatedHardwares m') = Some e' /\
    getEntryRecId e' = recordId rec /\
    getEntityPath e' = targetId rec /\
    severity e' = sev /\
    associations e' = associationDeftoHw hw elog /\
    (forall k, k <> recordId rec ->
       map_at k (_isolatedHardwares m') = map_at k (_isolatedHardwares m)) /\
    (forall e, map_at (recordId rec) (_isolatedHardwares m) = Some e ->
       severity e = sev -> associations e = associationDeftoHw hw elog ->
       _isolatedHardwares m' = _isolatedHardwares m) /\
    (map_at (recordId rec) (_isolatedHardwares m) = None ->
       resolved e' = false /\ elapsed e' = now).

(** From [m] to [m'] the entry map was left alone and the guard store was
    not written to. *)
Definition quiet (m m' : Manager) : Prop :=
  _isolatedHardwares m' = _isolatedHardwares m /\
  emitted_only (fun ev => negb (is_guard_store_event ev)) m m'.

(** From [m] to [m'] the guard store was written to exactly once: the
    record [rec] was created. *)
Definition created_one_record (rec : GuardRecord) (m m' : Manager) : Prop :=
  exists pre post,
    trace m' = (trace m ++ pre ++ EvGuardCreate rec :: post)%list /\
    forallb (fun ev => negb (is_guard_store_event ev)) pre = true /\
    forallb (fun ev => negb (is_guard_store_event ev)) post = true.

(** The calls into the guard store among the events [evs], in their order. *)
Definition guard_writes (evs : list Event) : list Event :=
  filter is_guard_store_event evs.

(** From [m] to [m'] the guard store was written to for one record at most:
    not at all, and then the entry map is as it was; or to create the record
    [rec]; or to create [rec] and then to clear that same record. *)
Definition own_record_only (m m' : Manager) : Prop :=
  exists evs,
    trace m' = (trace m ++ evs)%list /\
    ((guard_writes evs = [] /\ _isolatedHardwares m' = _isolatedHardwares m) \/
     exists rec,
       guard_writes evs = [EvGuardCreate rec] \/
       guard_writes evs = [EvGuardCreate rec; EvGuardClear (recordId rec)]).

(** Every entry of [m'] with the entity path [P] sits under a key under
    which [m] had an entry with that path: no entry for this hardware was
    added from [m] to [m']. *)
Definition no_new_entry_for (P : EntityPath) (m m' : Manager) : Prop :=
  forall k e',
    map_at k (_isolatedHardwares m') = Some e' -> getEntityPath e' = P ->
    exists e, map_at k (_isolatedHardwares m) = Some e /\ getEntityPath e = P.

(** No entry of the map other than the one under [id] names the hardware
    [hw] in its first "isolated_hw" association. *)
Definition only_entry_of (hw : string) (id : EntryRecordId) (m : Manager) : Prop :=
  forall k e, map_at k (_isolatedHardwares m) = Some e -> k <> id ->
    isolated_hw_is hw (associations e) = false.

(** The call [c] relates every state to the state it leaves behind. *)
Definition relates (R : Manager -> Manager -> Prop) {A} (c : M A) : Prop :=
  forall m,
    match final (c m) with
    | Some m' => R m m'
    | None => True
    end.

(** The entries of a map have pairwise different entity paths. *)
Definition distinct_paths (h : IsolatedHardwares) : Prop :=
  forall k1 k2 e1 e2,
    map_at k1 h = Some e1 -> map_at k2 h = Some e2 ->
    getEntityPath e1 = getEntityPath e2 -> k1 = k2.

(** The entries [resolveAllEntries clearRecord] leaves in the map: those
    that were resolved already and those whose resolution failed. *)
Definition stays_after_resolve (env : Env) (clearRecord : bool)
  (kv : EntryRecordId * Entry) : bool :=
  resolved (snd kv) || resolveEntry_fails env (fst kv) clearRecord.

(** The record ids that the events [evs] clear in the guard store, in the
    order of the calls. *)
Definition guard_clears (evs : list Event) : list EntryRecordId :=
  flat_map (fun ev => match ev with EvGuardClear id => [id] | _ => [] end) evs.

(** The file names of the entry directory that [cleanupPersistedFiles]
    removes: those whose number, as a record id, is no key of the map [h]. *)
Definition stale_files (h : IsolatedHardwares) (files : list string) : list string :=
  filter (fun file =>
            match stoul file with
            | inr fileEntryId => negb (map_contains (fileEntryId mod UINT32_MOD) h)
            | inl _ => false
            end) files.

(** Every eco core of the manager is the entity path of some entry. *)
Definition eco_cores_carried (m : Manager) : Prop :=
  forall p, In p (_persistedEcoCores m) -> carried (_isolatedHardwares m) p = true.

(** Restore can turn the record [r] into an entry: the catalog knows its
    hardware, the error-log service answers, the error type maps to a
    severity and the entry object can be constructed. *)
Definition restorable (env : Env) (r : GuardRecord) : Prop :=
  (forall ecoCore,
     getInventoryPath env (convertEntityPathIntoRawData (targetId r)) ecoCore <> None) /\
  (exists bmcErrorLogPath, getBMCLogPath env (elogId r) = inr bmcErrorLogPath) /\
  getEntrySeverityType env (errType r) <> None /\
  Entry_constructs env (recordId r) = true.

(** * Properties *)

Local Open Scope list_scope.

(** ** Debounce timers *)

Lemma processHardwareIsolationRecordFile_run (c : bool) (m : Manager) :
  processHardwareIsolationRecordFile c m =
  Ok tt (if c then with_timerObjs (_timerObjs m ++ [mkTimer true 5]) m
         else with_trace (trace m ++ [EvLog LogTimerFailed]) m).
Proof. destruct c; reflexivity. Qed.

Lemma fileChangeSignals_timers (cs : list bool) :
  forall m, exists m',
    fileChangeSignals cs m = Ok tt m' /\
    _timerObjs m' =
      _timerObjs m ++ repeat (mkTimer true 5) (count_occ bool_dec cs true) /\
    _isolatedHardwares m' = _isolatedHardwares m /\
    _persistedEcoCores m' = _persistedEcoCores m.
Proof.
  induction cs as [|c cs IH]; intro m.
  - exists m. cbn. rewrite app_nil_r. auto.
  - unfold fileChangeSignals. cbn [for_each]. unfold bind.
    rewrite processHardwareIsolationRecordFile_run.
    destruct c.
    + destruct (IH (with_timerObjs (_timerObjs m ++ [mkTimer true 5]) m))
        as (m' & Hrun & Ht & Hh & He).
      exists m'. split; [exact Hrun|]. cbn in *.
      rewrite Ht, <- app_assoc. auto.
    + destruct (IH (with_trace (trace m ++ [EvLog LogTimerFailed]) m))
        as (m' & Hrun & Ht & Hh & He).
      exists m'. split; [exact Hrun|]. cbn in *. auto.
Qed.

Arguments EntrySeverity_eq_dec : simpl never.
Arguments AssociationDef_eq_dec : simpl never.
Arguments path_eq_dec : simpl never.
Arguments PowerState_eq_dec : simpl never.
Arguments string_dec : simpl never.

(** Case analysis on the first decision the goal branches on. *)
Ltac case_decision :=
  match goal with
  | |- context [EntrySeverity_eq_dec ?a ?b] => destruct (EntrySeverity_eq_dec a b)
  | |- context [AssociationDef_eq_dec ?a ?b] => destruct (AssociationDef_eq_dec a b)
  | |- context [path_eq_dec ?a ?b] => destruct (path_eq_dec a b)
  | |- context [PowerState_eq_dec ?a ?b] => destruct (PowerState_eq_dec a b)
  end.

(** ** State projections of the primitive steps *)

Lemma emit_run (e : Event) (m : Manager) :
  emit e m = Ok tt (with_trace (trace m ++ [e]) m).
Proof. reflexivity. Qed.

Lemma map_at_In (k : EntryRecordId) (e : Entry) (h : IsolatedHardwares) :
  map_at k h = Some e -> In (k, e) h.
Proof.
  induction h as [|[k' v] h IH]; cbn; [discriminate|].
  destruct (Z.eqb_spec k' k) as [->|Hne].
  - intros [= ->]. now left.
  - intro H. right. now apply IH.
Qed.

Lemma find_In {A} (f : A -> bool) (l : list A) (x : A) :
  find f l = Some x -> In x l.
Proof. intro H. now apply find_some in H. Qed.

(** ** Predicates kept by every manager operation

    [I] is a predicate on manager states that survives the primitive changes
    the manager makes: trace and eco-core updates, erasing an entry, clearing
    the map, writing through an entry while keeping its record id, and
    inserting an entry under an acceptable key that is its own record id. *)

Section Kept.

Variable env : Env.
Variable I : Manager -> Prop.
Variable okKey : EntryRecordId -> Prop.

Hypothesis I_trace : forall t m, I m -> I (with_trace t m).
Hypothesis I_eco : forall s m, I m -> I (with_persistedEcoCores s m).
Hypothesis I_erase : forall k m,
  I m -> I (with_isolatedHardwares (map_erase k (_isolatedHardwares m)) m).
Hypothesis I_clear : forall m, I m -> I (with_isolatedHardwares [] m).
Hypothesis I_set : forall k e e' m,
  In (k, e) (_isolatedHardwares m) -> getEntryRecId e' = getEntryRecId e ->
  I m -> I (with_isolatedHardwares (map_set k e' (_isolatedHardwares m)) m).
Hypothesis I_insert : forall k e m,
  okKey k -> getEntryRecId e = k ->
  I m -> I (with_isolatedHardwares (map_insert k e (_isolatedHardwares m)) m).

Lemma post_bind {A B} (Q : A -> Manager -> Prop) (R : B -> Manager -> Prop)
  (c : M A) (k : A -> M B) (m : Manager) :
  post I Q (c m) -> (forall a m', Q a m' -> post I R (k a m')) -> post I R (bind c k m).
Proof.
  unfold bind. destruct (c m); cbn; auto.
Qed.

Lemma keeps_final {A} (c : M A) (m m' : Manager) :
  keeps I c -> I m -> final (c m) = Some m' -> I m'.
Proof.
  intros Hc Hm. specialize (Hc m Hm).
  destruct (c m); cbn in *; intros [= <-]; exact Hc.
Qed.

Lemma keeps_bind {A B} (c : M A) (k : A -> M B) :
  keeps I c -> (forall a, keeps I (k a)) -> keeps I (bind c k).
Proof.
  intros Hc Hk m Hm. eapply post_bind; [apply Hc, Hm|].
  intros a m' Hm'. now apply Hk.
Qed.

Lemma keeps_get_bind {A} (k : Manager -> M A) :
  (forall m, I m -> post I (fun _ => I) (k m m)) -> keeps I (bind get k).
Proof. intros H m Hm. unfold bind, get. now apply H. Qed.

Lemma keeps_ret {A} (a : A) : keeps I (ret a).
Proof. intros m Hm. exact Hm. Qed.

Lemma keeps_throw {A} (e : Exception) : keeps I (@throw A e).
Proof. intros m Hm. exact Hm. Qed.

Lemma keeps_undefined {A} : keeps I (@undefined A).
Proof. intros m Hm. exact Logic.I. Qed.

Lemma keeps_lift {A} (r : Exception + A) : keeps I (lift r).
Proof. destruct r; [apply keeps_throw | apply keeps_ret]. Qed.

Lemma keeps_emit (e : Event) : keeps I (emit e).
Proof. intros m Hm. cbn. now apply I_trace. Qed.

Lemma keeps_log (msg : LogMsg) : keeps I (log msg).
Proof. apply keeps_emit. Qed.

Lemma keeps_try_catch {A} (body : M A) (p : Exception -> bool)
  (h : Exception -> M A) :
  keeps I body -> (forall e, keeps I (h e)) -> keeps I (try_catch body p h).
Proof.
  intros Hb Hh m Hm. unfold try_catch. specialize (Hb m Hm).
  destruct (body m) as [a m'|e m'|]; cbn in *; auto.
  destruct (p e); cbn; auto. now apply Hh.
Qed.

Lemma keeps_for_each {A} (f : A -> M unit) (l : list A) :
  (forall x, In x l -> keeps I (f x)) -> keeps I (for_each f l).
Proof.
  induction l as [|x l IH]; intro Hf; cbn [for_each].
  - apply keeps_ret.
  - apply keeps_bind.
    + apply Hf. now left.
    + intros _. apply IH. intros y Hy. apply Hf. now right.
Qed.

Lemma keeps_if {A} (b : bool) (c1 c2 : M A) :
  keeps I c1 -> keeps I c2 -> keeps I (if b then c1 else c2).
Proof. now destruct b. Qed.

Lemma keeps_serialize : keeps I (serialize env).
Proof.
  unfold serialize. apply keeps_get_bind. intros m Hm.
  destruct (_persistedEcoCores m).
  - now apply keeps_emit.
  - destruct (archive_writes env _).
    + now apply keeps_emit.
    + apply keeps_bind; [apply keeps_log | intros; apply keeps_emit | exact Hm].
Qed.

Lemma keeps_updateEcoCoresList (b : bool) (p : DevTreePhysPath) :
  keeps I (updateEcoCoresList env b p).
Proof.
  unfold updateEcoCoresList. apply keeps_bind.
  - intros m Hm. cbn. now apply I_eco.
  - intros _. apply keeps_serialize.
Qed.

Lemma keeps_getEID (bmcErrorLog : string) : keeps I (getEID env bmcErrorLog).
Proof.
  unfold getEID. apply keeps_try_catch.
  - repeat (apply keeps_bind; [apply keeps_lift | intros ?]). apply keeps_ret.
  - intros _. apply keeps_bind; [apply keeps_log | intros; apply keeps_ret].
Qed.

Lemma keeps_createEntry now id res sev hw elog del path :
  okKey id -> keeps I (createEntry env now id res sev hw elog del path).
Proof.
  intro Hid. unfold createEntry. apply keeps_try_catch.
  - apply keeps_bind; [apply keeps_if; [apply keeps_ret | apply keeps_throw]|].
    intros _. apply keeps_bind.
    + intros m Hm. cbn. now apply I_insert.
    + intros _. apply keeps_bind; [apply keeps_emit | intros; apply keeps_ret].
  - intros _. apply keeps_bind; [apply keeps_log|]. intros _.
    apply keeps_bind; [apply keeps_if; [apply keeps_emit | apply keeps_ret]|].
    intros; apply keeps_ret.
Qed.

Lemma applySetters_recId sev assoc e :
  getEntryRecId (fst (applySetters sev assoc e)) = getEntryRecId e.
Proof.
  unfold applySetters. repeat (case_decision; cbn); reflexivity.
Qed.

Lemma applySetters_path sev assoc e :
  getEntityPath (fst (applySetters sev assoc e)) = getEntityPath e.
Proof.
  unfold applySetters. repeat (case_decision; cbn); reflexivity.
Qed.

Lemma map_set_In_key k e e' h :
  In (k, e) h -> In (k, e') (map_set k e' h).
Proof.
  intro H. unfold map_set. apply in_map_iff. exists (k, e). cbn.
  now rewrite Z.eqb_refl.
Qed.

Lemma keeps_updateEntry now id sev hw elog path :
  keeps I (updateEntry env now id sev hw elog path).
Proof.
  unfold updateEntry. apply keeps_get_bind. intros m Hm.
  destruct (find_entry _ _ _) as [[k e]|] eqn:Hf; [|exact Hm].
  apply find_In in Hf.
  pose proof (applySetters_recId sev (associationDeftoHw hw elog) e) as Hid.
  destruct (applySetters sev (associationDeftoHw hw elog) e) as [e' updated].
  cbn in Hid.
  eapply post_bind with (Q := fun _ m' => I m' /\ In (k, e') (_isolatedHardwares m')).
  - cbn. split; [eapply I_set; eauto | now apply map_set_In_key with (e := e)].
  - intros _ m1 [Hm1 Hin1]. eapply post_bind with (Q := fun _ => I).
    + destruct updated; cbn; [|exact Hm1]. eapply I_set; eauto.
    + intros _ m2 Hm2. revert m2 Hm2.
      apply keeps_bind; [apply keeps_emit | intros; apply keeps_ret].
Qed.

Lemma keeps_isHwIsolationAllowed sev : keeps I (isHwIsolationAllowed env sev).
Proof.
  unfold isHwIsolationAllowed. apply keeps_if.
  - apply keeps_bind; [apply keeps_log | intros; apply keeps_throw].
  - destruct sev; try apply keeps_ret.
    apply keeps_bind; [apply keeps_lift | intros s].
    apply keeps_bind; [apply keeps_lift | intros p].
    destruct (PowerState_eq_dec p Off); [apply keeps_ret|].
    apply keeps_bind; [apply keeps_log | intros; apply keeps_throw].
Qed.

Lemma keeps_updateOrCreateEntry now rec sev hw elog :
  okKey (recordId rec) -> keeps I (updateOrCreateEntry env now rec sev hw elog).
Proof.
  intro Hk. unfold updateOrCreateEntry.
  apply keeps_bind; [apply keeps_updateEntry | intros r].
  apply keeps_if; [apply keeps_ret|].
  apply keeps_bind; [now apply keeps_createEntry | intros [p|]];
    [apply keeps_ret | apply keeps_throw].
Qed.

Lemma keeps_guard_then (p : EntityPath) (eId : Z) (t : GardType)
  (k : GuardRecord -> M string) :
  store_ids_ok env okKey ->
  (forall r, okKey (recordId r) -> keeps I (k r)) ->
  keeps I (bind (openpower_guard_create env p eId t) k).
Proof.
  intros Hs Hk m Hm. unfold openpower_guard_create, bind, lift.
  destruct (guard_create env p eId t) as [e|r] eqn:Hg; cbn; [exact Hm|].
  apply Hk; [now apply Hs in Hg | now apply I_trace].
Qed.

Lemma keeps_create now hw sev : store_ids_ok env okKey -> keeps I (create env now hw sev).
Proof.
  intro Hs. unfold create.
  apply keeps_bind; [apply keeps_isHwIsolationAllowed | intros _].
  apply keeps_bind; [apply keeps_emit | intros _].
  destruct (getPhysicalPath env hw);
    [|apply keeps_bind; [apply keeps_log | intros; apply keeps_throw]].
  destruct (getGuardType env sev);
    [|apply keeps_bind; [apply keeps_log | intros; apply keeps_throw]].
  apply keeps_guard_then; [exact Hs|].
  intros r Hr. now apply keeps_updateOrCreateEntry.
Qed.

Lemma keeps_createWithErrorLog now hw sev elog :
  store_ids_ok env okKey -> keeps I (createWithErrorLog env now hw sev elog).
Proof.
  intro Hs. unfold createWithErrorLog.
  apply keeps_bind; [apply keeps_isHwIsolationAllowed | intros _].
  apply keeps_bind; [apply keeps_emit | intros _].
  destruct (getPhysicalPath env hw);
    [|apply keeps_bind; [apply keeps_log | intros; apply keeps_throw]].
  apply keeps_bind; [apply keeps_getEID | intros [eId|]];
    [|apply keeps_bind; [apply keeps_log | intros; apply keeps_throw]].
  destruct (getGuardType env sev);
    [|apply keeps_bind; [apply keeps_log | intros; apply keeps_throw]].
  apply keeps_guard_then; [exact Hs|].
  intros r Hr. now apply keeps_updateOrCreateEntry.
Qed.

Lemma keeps_createWithEntityPath now path sev elog :
  store_ids_ok env okKey -> keeps I (createWithEntityPath env now path sev elog).
Proof.
  intro Hs. unfold createWithEntityPath.
  apply keeps_bind; [apply keeps_isHwIsolationAllowed | intros _].
  apply keeps_bind; [apply keeps_emit | intros _].
  destruct (getInventoryPath env path false) as [[inv eco]|];
    [|apply keeps_bind; [apply keeps_log | intros; apply keeps_throw]].
  apply keeps_bind; [apply keeps_updateEcoCoresList | intros _].
  apply keeps_bind; [apply keeps_getEID | intros [eId|]];
    [|apply keeps_bind; [apply keeps_log | intros; apply keeps_throw]].
  destruct (getGuardType env sev);
    [|apply keeps_bind; [apply keeps_log | intros; apply keeps_throw]].
  apply keeps_guard_then; [exact Hs|].
  intros r Hr. now apply keeps_updateOrCreateEntry.
Qed.

Lemma keeps_eraseEntry id : keeps I (eraseEntry env id).
Proof.
  unfold eraseEntry. apply keeps_get_bind. intros m Hm.
  eapply post_bind with (Q := fun _ => I).
  - destruct (map_at id _); [now apply keeps_updateEcoCoresList | exact Hm].
  - intros _ m' Hm'. cbn. now apply I_erase.
Qed.

Lemma keeps_resolveEntry k b : keeps I (resolveEntry env k b).
Proof.
  unfold resolveEntry, entry_at. intros m Hm. unfold bind at 1 2. unfold get.
  destruct (map_at k (_isolatedHardwares m)) as [e|] eqn:Hat; cbn; [|exact Logic.I].
  apply map_at_In in Hat.
  destruct (resolved e); [exact Hm|].
  destruct (resolveEntry_fails env _ b); [exact Hm|].
  eapply post_bind with (Q := fun _ m' => I m' /\ In (k, e) (_isolatedHardwares m')).
  - destruct b; cbn; auto.
  - intros _ m1 [Hm1 Hin]. eapply post_bind with (Q := fun _ => I).
    + cbn. eapply I_set; eauto.
    + intros _ m2 Hm2. apply keeps_bind; auto using keeps_emit, keeps_eraseEntry.
Qed.

Lemma keeps_resolveAllEntries b : keeps I (resolveAllEntries env b).
Proof.
  unfold resolveAllEntries. apply keeps_get_bind. intros m Hm.
  apply keeps_for_each; [|exact Hm]. intros k _.
  apply keeps_try_catch; [apply keeps_resolveEntry | intros; apply keeps_log].
Qed.

Lemma keeps_catalog_getInventoryPath p b : keeps I (catalog_getInventoryPath env p b).
Proof.
  unfold catalog_getInventoryPath.
  apply keeps_bind; [apply keeps_emit | intros; apply keeps_ret].
Qed.

Lemma keeps_createEntryForRecord now record restorePath :
  okKey (recordId record) -> keeps I (createEntryForRecord env now record restorePath).
Proof.
  intro Hk. unfold createEntryForRecord.
  apply keeps_try_catch; [|intros; apply keeps_log].
  apply keeps_get_bind. intros m0 Hm0.
  eapply post_bind with (Q := fun _ => I);
    [now apply keeps_catalog_getInventoryPath|].
  intros [[inv eco]|] m1 Hm1; [|now apply keeps_log].
  revert m1 Hm1. apply keeps_bind; [apply keeps_updateEcoCoresList | intros _].
  apply keeps_bind; [apply keeps_lift | intros bmc].
  assert (Hrest : forall s,
    keeps I (match getEntrySeverityType env (errType record) with
           | Some entrySeverity =>
               entryPath <- createEntry env now (recordId record)
                              (recordId record =? 0xFFFFFFFF) entrySeverity inv s
                              false (targetId record) ;;
               match entryPath with
               | Some _ => ret tt
               | None =>
                   log (LogSkipNoDbusEntry
                          (convertEntityPathIntoRawData (targetId record)))
               end
           | None =>
               log (LogSkipNoSeverity (convertEntityPathIntoRawData (targetId record)))
           end)).
  { intro s. destruct (getEntrySeverityType env _); [|apply keeps_log].
    apply keeps_bind; [now apply keeps_createEntry|].
    intros [p|]; [apply keeps_ret | apply keeps_log]. }
  destruct bmc as [s|]; [apply Hrest|].
  destruct restorePath; [apply Hrest | apply keeps_log].
Qed.

Lemma keeps_updateEntryForRecord now record k :
  keeps I (updateEntryForRecord env now record k).
Proof.
  unfold updateEntryForRecord.
  apply keeps_bind; [apply keeps_catalog_getInventoryPath|].
  intros [[inv eco]|]; [|apply keeps_log].
  apply keeps_bind; [apply keeps_updateEcoCoresList | intros _].
  apply keeps_bind; [apply keeps_lift | intros [bmc|]]; [|apply keeps_log].
  destruct (getEntrySeverityType env _) as [sev|]; [|apply keeps_log].
  unfold entry_at. intros m Hm. unfold bind at 1 2. unfold get.
  destruct (map_at k (_isolatedHardwares m)) as [e|] eqn:Hat; cbn; [|exact Logic.I].
  apply map_at_In in Hat.
  pose proof (applySetters_recId sev (associationDeftoHw inv bmc) e) as Hid.
  destruct (applySetters sev (associationDeftoHw inv bmc) e) as [e' updated].
  cbn in Hid.
  eapply post_bind with (Q := fun _ m' => I m' /\ In (k, e') (_isolatedHardwares m')).
  - cbn. split; [eapply I_set; eauto | now apply map_set_In_key with (e := e)].
  - intros _ m1 [Hm1 Hin1].
    eapply post_bind with (Q := fun _ m' => I m' /\ In (k, e') (_isolatedHardwares m')).
    + cbn. split; [now apply I_trace | exact Hin1].
    + intros _ m2 [Hm2 Hin2]. eapply post_bind with (Q := fun _ => I).
      * destruct updated; cbn; [|exact Hm2].
        eapply I_set; eauto.
      * intros _ m3 Hm3. now apply keeps_emit.
Qed.

Lemma keeps_cleanupEcoCoresLoop l u : keeps I (cleanupEcoCoresLoop env l u).
Proof.
  revert u. induction l as [|p l IH]; intro u; cbn [cleanupEcoCoresLoop].
  - apply keeps_ret.
  - apply keeps_get_bind. intros m Hm.
    destruct (negb _); [|now apply IH].
    revert m Hm. apply keeps_bind; [apply keeps_updateEcoCoresList | intros; apply IH].
Qed.

Lemma keeps_cleanupPersistedEcoCores : keeps I (cleanupPersistedEcoCores env).
Proof.
  unfold cleanupPersistedEcoCores. apply keeps_get_bind. intros m Hm.
  eapply post_bind with (Q := fun _ => I).
  - destruct (_isolatedHardwares m).
    + cbn. now apply I_eco.
    + now apply keeps_cleanupEcoCoresLoop.
  - intros [|] m' Hm'; [now apply keeps_serialize | exact Hm'].
Qed.

Lemma keeps_cleanupPersistedFiles files : keeps I (cleanupPersistedFiles env files).
Proof.
  unfold cleanupPersistedFiles. apply keeps_bind.
  - apply keeps_for_each. intros f _.
    apply keeps_bind; [apply keeps_lift | intros n].
    apply keeps_get_bind. intros m Hm.
    destruct (map_contains _ _); [exact Hm | now apply keeps_emit].
  - intros _. apply keeps_cleanupPersistedEcoCores.
Qed.

Lemma keeps_restore now records files :
  valid_ids_ok okKey -> keeps I (restore env now records files).
Proof.
  intro Hv. unfold restore. apply keeps_bind.
  - apply keeps_for_each. intros r Hr. apply filter_In in Hr.
    apply keeps_createEntryForRecord. now apply Hv.
  - intros _. apply keeps_cleanupPersistedFiles.
Qed.

Lemma keeps_reconcileEntry now records k : keeps I (reconcileEntry env now records k).
Proof.
  unfold reconcileEntry. apply keeps_bind.
  - unfold entry_at. apply keeps_get_bind. intros m Hm.
    destruct (map_at k _); [exact Hm | exact Logic.I].
  - intros e. destruct (filter _ records) as [|r rs]; [apply keeps_resolveEntry|].
    destruct (filter _ (r :: rs)) as [|r1 [|r2 rs']].
    + apply keeps_resolveEntry.
    + apply keeps_updateEntryForRecord.
    + apply keeps_log.
Qed.

Lemma keeps_createEntryIfNotExists now r :
  okKey (recordId r) -> keeps I (createEntryIfNotExists env now r).
Proof.
  intro Hk. unfold createEntryIfNotExists. apply keeps_get_bind. intros m Hm.
  destruct (existsb _ _); [exact Hm | now apply keeps_createEntryForRecord].
Qed.

Lemma keeps_reconcile now records :
  valid_ids_ok okKey -> keeps I (reconcile env now records).
Proof.
  intro Hv. unfold reconcile. apply keeps_get_bind. intros m Hm.
  assert (Hdiff : keeps I
    (for_each (reconcileEntry env now records) (map_keys (_isolatedHardwares m)) ;;
     for_each (createEntryIfNotExists env now)
       (filter (fun record => isValidRecord (recordId record)) records) ;;
     cleanupPersistedEcoCores env)).
  { apply keeps_bind; [apply keeps_for_each; intros; apply keeps_reconcileEntry|].
    intros _. apply keeps_bind; [|intros; apply keeps_cleanupPersistedEcoCores].
    apply keeps_for_each. intros r Hr. apply filter_In in Hr.
    apply keeps_createEntryIfNotExists. now apply Hv. }
  destruct records as [|r records]; [|now apply Hdiff].
  destruct (_isolatedHardwares m) as [|kv h] eqn:Hh; [now apply Hdiff|].
  revert m Hm Hh. intros m Hm _. revert m Hm.
  apply keeps_bind; [apply keeps_resolveAllEntries|].
  intros _ m Hm. cbn. now apply I_clear.
Qed.

End Kept.

(** ** Debounce timers (continued) *)

Lemma timers_kept_by_reconcile env now records q m :
  _timerObjs m = q ->
  match final (reconcile env now records m) with
  | Some m' => _timerObjs m' = q
  | None => True
  end.
Proof.
  intro Hq.
  pose proof (keeps_reconcile env (fun m => _timerObjs m = q) (fun _ => True)) as H.
  unfold keeps, post in H.
  specialize (H ltac:(auto) ltac:(auto) ltac:(auto) ltac:(auto) ltac:(auto)
                ltac:(auto) now records ltac:(intros ? ?; exact Logic.I) m Hq).
  destruct (reconcile env now records m); cbn; auto.
Qed.

Lemma handleHostIsolatedHardwares_run env now records m :
  handleHostIsolatedHardwares env now records m =
  match _timerObjs m with
  | [] => Undefined
  | _ :: q => reconcile env now records (with_timerObjs q m)
  end.
Proof.
  unfold handleHostIsolatedHardwares, popTimer, bind, get.
  destruct (_timerObjs m); reflexivity.
Qed.

(** C2, as the code has it: every file-change signal whose timer can be
    constructed puts one more 5-second timer on the queue, whatever is
    already pending; the entries and the eco cores are not touched; and one
    run of [handleHostIsolatedHardwares] takes exactly one timer off the
    queue.  So [n] signals in a row leave [n] pending timers and lead to [n]
    reconciliation passes. *)
Theorem signals_queue_one_timer_each :
  forall env now records cs m,
  exists m1,
    fileChangeSignals cs m = Ok tt m1 /\
    _timerObjs m1 =
      _timerObjs m ++ repeat (mkTimer true 5) (count_occ bool_dec cs true) /\
    _isolatedHardwares m1 = _isolatedHardwares m /\
    (forall m2, final (handleHostIsolatedHardwares env now records m1) = Some m2 ->
       S (List.length (_timerObjs m2)) = List.length (_timerObjs m1)).
Proof.
  intros env now records cs m.
  destruct (fileChangeSignals_timers cs m) as (m1 & Hrun & Ht & Hh & He).
  exists m1. repeat split; auto.
  intros m2. rewrite handleHostIsolatedHardwares_run.
  destruct (_timerObjs m1) as [|t q] eqn:Hq; [discriminate|].
  pose proof (timers_kept_by_reconcile env now records q (with_timerObjs q m1) eq_refl) as H.
  intro Hf. rewrite Hf in H. now rewrite H.
Qed.

Lemma signals_queue_one_timer_each_witness :
  exists m1,
    fileChangeSignals [true; true] manager0 = Ok tt m1 /\
    List.length (_timerObjs m1) = 2%nat /\
    exists m2,
      final (handleHostIsolatedHardwares Samples.envOn 0 [] m1) = Some m2 /\
      List.length (_timerObjs m2) = 1%nat.
Proof.
  destruct (signals_queue_one_timer_each Samples.envOn 0 [] [true; true] manager0)
    as (m1 & Hrun & Ht & _ & Hfire).
  exists m1. split; [exact Hrun|]. split; [now rewrite Ht|].
  destruct (final (handleHostIsolatedHardwares Samples.envOn 0 [] m1)) as [m2|] eqn:Hf.
  - exists m2. split; [reflexivity|]. specialize (Hfire m2 eq_refl).
    rewrite Ht in Hfire. cbn in Hfire. lia.
  - exfalso. cbn in Hrun. injection Hrun as <-. cbn in Hf. discriminate.
Defined.

(** C2, as the claim states it, fails: two signals in a row leave two timers
    pending, not one. *)
Lemma second_signal_not_absorbed :
  exists m1,
    fileChangeSignals [true; true] manager0 = Ok tt m1 /\
    _timerObjs m1 = [mkTimer true 5; mkTimer true 5] /\
    ~ (List.length (_timerObjs m1) <= 1)%nat.
Proof.
  eexists. split; [reflexivity|]. split; [reflexivity|]. cbn. lia.
Qed.

(** ** The sentinel record id *)

Lemma map_insert_In k e h kv :
  In kv (map_insert k e h) -> kv = (k, e) \/ In kv h.
Proof.
  induction h as [|[k' v'] h IH]; cbn.
  - intros [<-|[]]. now left.
  - destruct (k <? k'); [cbn; intros [<-|H]; auto|].
    destruct (k =? k'); [auto|].
    cbn. intros [<-|H]; auto. destruct (IH H); auto.
Qed.

Lemma map_erase_In k h kv : In kv (map_erase k h) -> In kv h.
Proof. unfold map_erase. intro H. now apply filter_In in H. Qed.

Lemma map_set_In k e' h kv :
  In kv (map_set k e' h) ->
  In kv h \/ (fst kv = k /\ snd kv = e' /\ exists e, In (k, e) h).
Proof.
  unfold map_set. intro H. apply in_map_iff in H as ([k0 e0] & Heq & Hin).
  cbn in Heq. destruct (Z.eqb_spec k0 k) as [->|Hne]; subst kv; cbn; eauto.
Qed.

Lemma no_sentinel_trace t m : no_sentinel m -> no_sentinel (with_trace t m).
Proof. exact (fun H => H). Qed.

Lemma no_sentinel_eco s m : no_sentinel m -> no_sentinel (with_persistedEcoCores s m).
Proof. exact (fun H => H). Qed.

Lemma no_sentinel_timers q m : no_sentinel m -> no_sentinel (with_timerObjs q m).
Proof. exact (fun H => H). Qed.

Lemma no_sentinel_erase k m :
  no_sentinel m ->
  no_sentinel (with_isolatedHardwares (map_erase k (_isolatedHardwares m)) m).
Proof. intros H k0 e0 Hin. cbn in Hin. apply map_erase_In in Hin. now apply H. Qed.

Lemma no_sentinel_clear m : no_sentinel m -> no_sentinel (with_isolatedHardwares [] m).
Proof. intros _ k0 e0 []. Qed.

Lemma no_sentinel_set k e e' m :
  In (k, e) (_isolatedHardwares m) -> getEntryRecId e' = getEntryRecId e ->
  no_sentinel m ->
  no_sentinel (with_isolatedHardwares (map_set k e' (_isolatedHardwares m)) m).
Proof.
  intros Hin Hid H k0 e0 Hin0. cbn in Hin0.
  apply map_set_In in Hin0 as [Hold|(Hk & He & _)]; [now apply H|].
  cbn in Hk, He. subst k0 e0. rewrite Hid. now apply H.
Qed.

Lemma no_sentinel_insert k e m :
  isValidRecord k = true -> getEntryRecId e = k ->
  no_sentinel m ->
  no_sentinel (with_isolatedHardwares (map_insert k e (_isolatedHardwares m)) m).
Proof.
  intros Hk Hid H k0 e0 Hin0. cbn in Hin0.
  apply map_insert_In in Hin0 as [[= -> ->]|Hold]; [|now apply H].
  rewrite Hid. unfold isValidRecord in Hk.
  destruct (Z.eqb_spec k 0xFFFFFFFF); [discriminate | auto].
Qed.

Ltac solve_no_sentinel :=
  first [ exact no_sentinel_trace | exact no_sentinel_eco | exact no_sentinel_erase
        | exact no_sentinel_clear | exact no_sentinel_set | exact no_sentinel_insert
        | exact (fun id H => H) | assumption ].

(** ** The policy gate *)

Lemma isHwIsolationAllowed_disabled env sev m :
  isHwIosolationSettingEnabled env = false ->
  isHwIsolationAllowed env sev m =
  Throw Unavailable (with_trace (trace m ++ [EvLog LogSettingDisabled]) m).
Proof.
  intro H. unfold isHwIsolationAllowed. rewrite H. reflexivity.
Qed.

Lemma isHwIsolationAllowed_manual_not_off env s p m :
  isHwIosolationSettingEnabled env = true ->
  getCurrentPowerState env = inr s ->
  convertPowerStateFromString env s = inr p ->
  p <> Off ->
  isHwIsolationAllowed env Manual m =
  Throw NotAllowed (with_trace (trace m ++ [EvLog LogManualNeedsPowerOff]) m).
Proof.
  intros H Hs Hp Hoff. unfold isHwIsolationAllowed, bind. rewrite H, Hs. cbn.
  rewrite Hp. cbn. destruct (PowerState_eq_dec p Off); [contradiction|reflexivity].
Qed.

Lemma isHwIsolationAllowed_open env sev m :
  gate_open env sev -> isHwIsolationAllowed env sev m = Ok tt m.
Proof.
  intros [H Hman]. unfold isHwIsolationAllowed. rewrite H. cbn.
  destruct sev; try reflexivity.
  destruct (Hman eq_refl) as (s & Hs & Hp). unfold bind. rewrite Hs. cbn.
  rewrite Hp. cbn. destruct (PowerState_eq_dec Off Off); [reflexivity|contradiction].
Qed.

(** C6: the three create calls start with the policy gate.  With the
    isolation setting off each of them throws Unavailable; with the setting
    on, a Manual request while the chassis power state is known and not Off
    throws NotAllowed.  In both cases the only thing the call has done is to
    write the journal message: no catalog query, no guard record, no entry.
    With the setting on and, for Manual, the chassis off, the gate lets the
    call through without touching the state. *)
Theorem policy_gate_comes_first :
  forall env now hw path sev elog m,
  (isHwIosolationSettingEnabled env = false ->
   let m' := with_trace (trace m ++ [EvLog LogSettingDisabled]) m in
   create env now hw sev m = Throw Unavailable m' /\
   createWithErrorLog env now hw sev elog m = Throw Unavailable m' /\
   createWithEntityPath env now path sev elog m = Throw Unavailable m') /\
  (isHwIosolationSettingEnabled env = true ->
   forall s p,
   getCurrentPowerState env = inr s ->
   convertPowerStateFromString env s = inr p ->
   p <> Off ->
   let m' := with_trace (trace m ++ [EvLog LogManualNeedsPowerOff]) m in
   create env now hw Manual m = Throw NotAllowed m' /\
   createWithErrorLog env now hw Manual elog m = Throw NotAllowed m' /\
   createWithEntityPath env now path Manual elog m = Throw NotAllowed m') /\
  (gate_open env sev -> isHwIsolationAllowed env sev m = Ok tt m).
Proof.
  intros env now hw path sev elog m. split; [|split].
  - intros H m'. unfold create, createWithErrorLog, createWithEntityPath, bind.
    rewrite (isHwIsolationAllowed_disabled env sev m H). auto.
  - intros H s p Hs Hp Hoff m'.
    unfold create, createWithErrorLog, createWithEntityPath, bind.
    rewrite (isHwIsolationAllowed_manual_not_off env s p m H Hs Hp Hoff). auto.
  - apply isHwIsolationAllowed_open.
Qed.

Lemma policy_gate_comes_first_witness :
  create Samples.envDisabled 200 Samples.core0 Critical manager0 =
    Throw Unavailable (mkManager [] [] [] [EvLog LogSettingDisabled]) /\
  create Samples.envOn 200 Samples.core0 Manual manager0 =
    Throw NotAllowed (mkManager [] [] [] [EvLog LogManualNeedsPowerOff]).
Proof.
  split.
  - apply (proj1 (policy_gate_comes_first Samples.envDisabled 200 Samples.core0 []
                    Critical ""%string manager0)).
    reflexivity.
  - apply (proj1 (proj2 (policy_gate_comes_first Samples.envOn 200 Samples.core0 []
                    Manual ""%string manager0)) eq_refl
             "xyz.openbmc_project.State.Chassis.PowerState.On"%string On);
      [reflexivity | reflexivity | discriminate].
Defined.

(** ** Runs of the small steps *)

Lemma serialize_run env m :
  serialize env m =
  Ok tt (with_trace (trace m ++ serialize_events env (_persistedEcoCores m)) m).
Proof.
  unfold serialize, serialize_events, bind, get.
  destruct (_persistedEcoCores m) as [|p s]; [reflexivity|].
  destruct (archive_writes env (p :: s)); [reflexivity|].
  unfold log, emit, modify. cbn. now rewrite <- app_assoc.
Qed.

Lemma updateEcoCoresList_run env b p m :
  updateEcoCoresList env b p m =
  Ok tt (with_trace
           (trace m ++ serialize_events env (ecoCores_after b p (_persistedEcoCores m)))
           (with_persistedEcoCores (ecoCores_after b p (_persistedEcoCores m)) m)).
Proof.
  unfold updateEcoCoresList, bind, modify. now rewrite serialize_run.
Qed.

Lemma getEID_run_answer env bmcErrorLog eid m :
  getEID_answers env bmcErrorLog eid -> getEID env bmcErrorLog m = Ok (Some eid) m.
Proof.
  intros (service & logId & Hs & Hl & Hp).
  unfold getEID, try_catch, bind. rewrite Hs. cbn [lift ret]. rewrite Hl.
  cbn [lift ret]. rewrite Hp. reflexivity.
Qed.

Lemma openpower_guard_create_run env p eId t rec m :
  guard_create env p eId t = inr rec ->
  openpower_guard_create env p eId t m =
  Ok rec (with_trace (trace m ++ [EvGuardCreate rec]) m).
Proof.
  intro H. unfold openpower_guard_create, bind. rewrite H. reflexivity.
Qed.

(** ** A create call whose entry cannot be built *)

Lemma updateOrCreateEntry_gives_up env now rec sev hw elog m :
  find_entry (recordId rec) (targetId rec) (_isolatedHardwares m) = None ->
  Entry_constructs env (recordId rec) = false ->
  updateOrCreateEntry env now rec sev hw elog m =
  Throw InternalFailure
    (with_trace
       (trace m ++ [EvLog LogCreateEntryFailed; EvGuardClear (recordId rec)]) m).
Proof.
  intros Hf Hc. unfold updateOrCreateEntry, updateEntry, bind, get. rewrite Hf. cbn.
  unfold createEntry, try_catch, bind. rewrite Hc. cbn.
  now rewrite <- app_assoc.
Qed.

(** C4: in each of the three create calls, when the guard store has created
    the record and the entry object for it cannot be constructed, the call
    clears that very record in the guard store ([openpower_guard::clear] with
    its id, right after the failure is logged) and ends with InternalFailure;
    the entry map is left as it was. *)
Theorem failed_create_clears_the_new_record :
  forall env now sev m rec,
  gate_open env sev ->
  find_entry (recordId rec) (targetId rec) (_isolatedHardwares m) = None ->
  Entry_constructs env (recordId rec) = false ->
  (forall hw phys gt,
     getPhysicalPath env hw = Some phys ->
     getGuardType env sev = Some gt ->
     guard_create env (EntityPath_of_raw phys) 0 gt = inr rec ->
     gave_up_record (create env now hw sev m) m rec) /\
  (forall hw elog phys eid gt,
     getPhysicalPath env hw = Some phys ->
     getEID_answers env elog eid ->
     getGuardType env sev = Some gt ->
     guard_create env (EntityPath_of_raw phys) eid gt = inr rec ->
     gave_up_record (createWithErrorLog env now hw sev elog m) m rec) /\
  (forall path elog inv eco eid gt,
     getInventoryPath env path false = Some (inv, eco) ->
     getEID_answers env elog eid ->
     getGuardType env sev = Some gt ->
     guard_create env (EntityPath_of_raw path) eid gt = inr rec ->
     gave_up_record (createWithEntityPath env now path sev elog m) m rec).
Proof.
  intros env now sev m rec Hgate Hfind Hctor. split; [|split].
  - intros hw phys gt Hphys Hgt Hcreate.
    exists (with_trace
              (trace m ++ [EvGetPhysicalPath hw] ++
               [EvGuardCreate rec; EvLog LogCreateEntryFailed;
                EvGuardClear (recordId rec)]) m), [EvGetPhysicalPath hw].
    split; [|split; [reflexivity|split; [reflexivity|]]].
    + unfold create, bind at 1 2. rewrite (isHwIsolationAllowed_open _ _ _ Hgate).
      rewrite emit_run, Hphys, Hgt. unfold bind.
      rewrite (openpower_guard_create_run _ _ _ _ _ _ Hcreate).
      rewrite updateOrCreateEntry_gives_up by assumption.
      cbn. now rewrite <- !app_assoc.
    + intros ev [<-|[]]. exact Logic.I.
  - intros hw elog phys eid gt Hphys Heid Hgt Hcreate.
    exists (with_trace
              (trace m ++ [EvGetPhysicalPath hw] ++
               [EvGuardCreate rec; EvLog LogCreateEntryFailed;
                EvGuardClear (recordId rec)]) m), [EvGetPhysicalPath hw].
    split; [|split; [reflexivity|split; [reflexivity|]]].
    + unfold createWithErrorLog, bind at 1 2.
      rewrite (isHwIsolationAllowed_open _ _ _ Hgate).
      rewrite emit_run, Hphys. unfold bind at 1.
      rewrite (getEID_run_answer _ _ _ _ Heid), Hgt. unfold bind.
      rewrite (openpower_guard_create_run _ _ _ _ _ _ Hcreate).
      rewrite updateOrCreateEntry_gives_up by assumption.
      cbn. now rewrite <- !app_assoc.
    + intros ev [<-|[]]. exact Logic.I.
  - intros path elog inv eco eid gt Hinv Heid Hgt Hcreate.
    set (s' := ecoCores_after eco path (_persistedEcoCores m)).
    exists (with_trace
              (trace m ++ (EvGetInventoryPath path false :: serialize_events env s') ++
               [EvGuardCreate rec; EvLog LogCreateEntryFailed;
                EvGuardClear (recordId rec)]) (with_persistedEcoCores s' m)),
           (EvGetInventoryPath path false :: serialize_events env s').
    split; [|split; [reflexivity|split; [reflexivity|]]].
    + unfold createWithEntityPath, bind at 1 2.
      rewrite (isHwIsolationAllowed_open _ _ _ Hgate).
      rewrite emit_run, Hinv. unfold bind at 1.
      rewrite updateEcoCoresList_run. unfold bind at 1.
      rewrite (getEID_run_answer _ _ _ _ Heid), Hgt. unfold bind.
      rewrite (openpower_guard_create_run _ _ _ _ _ _ Hcreate).
      rewrite updateOrCreateEntry_gives_up by assumption.
      cbn. fold s'. now rewrite <- !app_assoc.
    + intros ev [<-|Hin]; [exact Logic.I|].
      unfold serialize_events in Hin. destruct s' as [|q s''].
      * destruct Hin as [<-|[]]. exact Logic.I.
      * destruct (archive_writes env (q :: s''));
          [destruct Hin as [<-|[]] | destruct Hin as [<-|[<-|[]]]]; exact Logic.I.
Qed.

Lemma failed_create_clears_the_new_record_witness :
  gave_up_record
    (create Samples.envNoEntry 200 Samples.core0 Critical manager0)
    manager0 (mkGuardRecord 1 Samples.pathP 0 0xE3) /\
  gave_up_record
    (createWithErrorLog Samples.envNoEntry 200 Samples.core0 Critical
       Samples.elog7 manager0)
    manager0 (mkGuardRecord 1 Samples.pathP 0x50000007 0xE3) /\
  gave_up_record
    (createWithEntityPath Samples.envNoEntry 200 Samples.pathQ Warning
       Samples.elog7 manager0)
    manager0 (mkGuardRecord 1 Samples.pathQ 0x50000007 0xE6).
Proof.
  assert (Heid : getEID_answers Samples.envNoEntry Samples.elog7 0x50000007).
  { exists "xyz.openbmc_project.Logging"%string, 7.
    repeat split; vm_compute; reflexivity. }
  assert (Hgate : forall sev, sev <> Manual -> gate_open Samples.envNoEntry sev).
  { intros sev Hsev. split; [reflexivity | intro H; contradiction]. }
  assert (Hfind : forall rec,
            find_entry (recordId rec) (targetId rec) (_isolatedHardwares manager0)
            = None) by reflexivity.
  assert (Hctor : forall rec,
            Entry_constructs Samples.envNoEntry (recordId rec) = false)
    by reflexivity.
  split; [|split].
  - apply (proj1 (failed_create_clears_the_new_record Samples.envNoEntry 200
                    Critical manager0 _ (Hgate Critical ltac:(discriminate))
                    (Hfind _) (Hctor _))
             Samples.core0 Samples.pathP 0xE3); vm_compute; reflexivity.
  - apply (proj1 (proj2 (failed_create_clears_the_new_record Samples.envNoEntry 200
                    Critical manager0 _ (Hgate Critical ltac:(discriminate))
                    (Hfind _) (Hctor _)))
             Samples.core0 Samples.elog7 Samples.pathP 0x50000007 0xE3);
      solve [exact Heid | vm_compute; reflexivity].
  - apply (proj2 (proj2 (failed_create_clears_the_new_record Samples.envNoEntry 200
                    Warning manager0 _ (Hgate Warning ltac:(discriminate))
                    (Hfind _) (Hctor _)))
             Samples.pathQ Samples.elog7 Samples.core1 false 0x50000007 0xE6);
      solve [exact Heid | vm_compute; reflexivity].
Defined.

(** ** getEID *)

(** A failure of the D-Bus calls is caught: the result is empty. *)
Lemma getEID_remote_failure env bmcErrorLog m :
  getDBusServiceName env = inl SdBusError \/
  (exists service logId,
     getDBusServiceName env = inr service /\
     stoi (filename env bmcErrorLog) = inr logId /\
     GetPELIdFromBMCLogId env service (logId mod UINT32_MOD) = inl SdBusError) ->
  getEID env bmcErrorLog m =
  Ok None (with_trace (trace m ++ [EvLog (LogGetEIDFailed bmcErrorLog)]) m).
Proof.
  intros [H|(service & logId & Hs & Hl & Hp)]; unfold getEID, try_catch, bind.
  - rewrite H. reflexivity.
  - rewrite Hs. cbn [lift ret]. rewrite Hl. cbn [lift ret]. rewrite Hp. reflexivity.
Qed.

(** What [std::stoi] throws is not caught by the handler of [getEID]. *)
Lemma getEID_stoi_throws env bmcErrorLog service e m :
  getDBusServiceName env = inr service ->
  stoi (filename env bmcErrorLog) = inl e ->
  getEID env bmcErrorLog m = Throw e m.
Proof.
  intros Hs Hl. unfold getEID, try_catch, bind. rewrite Hs. cbn [lift ret].
  rewrite Hl. cbn [lift throw].
  unfold stoi in Hl. destruct (parse_signed _) as [[neg n]|]; [|now injection Hl as <-].
  destruct (_ && _); [discriminate | now injection Hl as <-].
Qed.

(** C9 fails on the code: whenever the name of the logging service is
    found and the last component of the error-log path does not start with a
    decimal number (as in ".../logging/entry/abc"), [std::stoi] throws
    [std::invalid_argument]; the handler of [getEID] catches only
    [SdBusError], so [getEID] throws to its caller instead of returning an
    empty optional. *)
Theorem getEID_throws_on_non_numeric_log_name :
  forall env bmcErrorLog service m,
  getDBusServiceName env = inr service ->
  parse_signed (filename env bmcErrorLog) = None ->
  getEID env bmcErrorLog m = Throw std_invalid_argument m.
Proof.
  intros env bmcErrorLog service m Hs Hp.
  apply (getEID_stoi_throws env bmcErrorLog service).
  - exact Hs.
  - unfold stoi. now rewrite Hp.
Qed.

Lemma getEID_throws_on_non_numeric_log_name_witness :
  Samples.elogBad = "/xyz/openbmc_project/logging/entry/abc"%string /\
  getEID Samples.envOn Samples.elogBad manager0 = Throw std_invalid_argument manager0.
Proof.
  split; [reflexivity|].
  apply (getEID_throws_on_non_numeric_log_name Samples.envOn Samples.elogBad
           "xyz.openbmc_project.Logging"%string manager0).
  - reflexivity.
  - vm_compute. reflexivity.
Defined.

(** ** Reconciliation of one entry *)

(** With more than one valid record for the entity path of the entry under
    [k], the loop body for that entry only writes the journal message. *)
Lemma reconcileEntry_violation env now records k e m :
  map_at k (_isolatedHardwares m) = Some e ->
  (1 < List.length (valid_matches records e))%nat ->
  reconcileEntry env now records k m =
  Ok tt
    (with_trace
       (trace m ++
        [EvLog (LogMoreThanOneValid (convertEntityPathIntoRawData (getEntityPath e)))])
       m).
Proof.
  intros Hat Hlen. unfold valid_matches in Hlen.
  unfold reconcileEntry, entry_at, bind, get. rewrite Hat. cbn [ret].
  destruct (filter (fun record => path_eqb (getEntityPath e) (targetId record))
              records) as [|r rs] eqn:Hf; [cbn in Hlen; lia|].
  destruct (filter (fun record => isValidRecord (recordId record)) (r :: rs))
    as [|r1 [|r2 rs']]; cbn in Hlen; try lia.
  reflexivity.
Qed.

(** C10: in the creation phase of the reconciliation, a record whose entity
    path is carried by some entry of the map, under whatever key and record
    id, creates nothing: the manager is left exactly as it was. *)
Theorem entry_with_same_path_suppresses_creation :
  forall env now validRecord k e m,
  In (k, e) (_isolatedHardwares m) ->
  getEntityPath e = targetId validRecord ->
  createEntryIfNotExists env now validRecord m = Ok tt m.
Proof.
  intros env now validRecord k e m Hin Hpath.
  unfold createEntryIfNotExists, bind, get.
  replace (existsb _ (_isolatedHardwares m)) with true; [reflexivity|].
  symmetry. apply existsb_exists. exists (k, e). split; [exact Hin|].
  cbn. unfold path_eqb. rewrite Hpath.
  destruct (path_eq_dec (targetId validRecord) (targetId validRecord)); congruence.
Qed.

Lemma entry_with_same_path_suppresses_creation_witness :
  createEntryIfNotExists Samples.envOn 200 (Samples.recordP 9) Samples.managerPQ =
  Ok tt Samples.managerPQ.
Proof.
  apply (entry_with_same_path_suppresses_creation Samples.envOn 200
           (Samples.recordP 9) 1 (Samples.entryP 1) Samples.managerPQ).
  - left. reflexivity.
  - reflexivity.
Defined.

(** ** Eco-core cleanup *)

Lemma path_eqb_eq a b : path_eqb a b = true <-> a = b.
Proof.
  unfold path_eqb. destruct (path_eq_dec a b); split; congruence.
Qed.

Lemma path_eqb_refl a : path_eqb a a = true.
Proof. now apply path_eqb_eq. Qed.

Lemma serialize_events_has_file_event env s :
  existsb is_eco_file_event (serialize_events env s) = true.
Proof.
  unfold serialize_events. destruct s; [reflexivity|].
  destruct (archive_writes env _); reflexivity.
Qed.

(** The eco cores left by the loop over the snapshot [l]. *)
Lemma erase_not_carried_filter (h : IsolatedHardwares) (l s : list DevTreePhysPath) :
  fold_left (fun s p => if carried h p then s else set_erase p s) l s =
  filter (fun q => carried h q || negb (existsb (path_eqb q) l)) s.
Proof.
  revert s. induction l as [|p l IH]; intro s; cbn [fold_left existsb].
  - rewrite (filter_ext _ (fun _ => true)).
    + induction s as [|a s IHs]; cbn; [reflexivity | now rewrite <- IHs].
    + intro q. cbn. now rewrite orb_true_r.
  - rewrite IH. destruct (carried h p) eqn:Hp.
    + apply filter_ext. intro q.
      destruct (path_eqb q p) eqn:Hq; [|reflexivity].
      apply path_eqb_eq in Hq. subst q. now rewrite Hp.
    + unfold set_erase.
      induction s as [|q s IHs]; [reflexivity|]. cbn [filter].
      destruct (path_eqb q p) eqn:Hq; cbn [negb orb].
      * apply path_eqb_eq in Hq. subst q. rewrite Hp. cbn. exact IHs.
      * cbn [filter]. destruct (carried h q || negb (existsb (path_eqb q) l));
          [now rewrite IHs | exact IHs].
Qed.

Lemma filter_snapshot (h : IsolatedHardwares) (s : list DevTreePhysPath) :
  filter (fun q => carried h q || negb (existsb (path_eqb q) s)) s =
  filter (carried h) s.
Proof.
  apply filter_ext_in. intros q Hq.
  replace (existsb (path_eqb q) s) with true; [now rewrite orb_false_r|].
  symmetry. apply existsb_exists. exists q. split; [exact Hq | apply path_eqb_refl].
Qed.

Lemma filter_changes {A} (f : A -> bool) (l : list A) :
  filter f l <> l <-> existsb (fun x => negb (f x)) l = true.
Proof.
  induction l as [|x l IH]; cbn.
  - split; [congruence | discriminate].
  - destruct (f x) eqn:Hx; cbn.
    + rewrite <- IH. split; intro H; congruence.
    + split; [reflexivity|]. intros _ Heq.
      assert (Hin : In x (filter f l)) by (rewrite Heq; now left).
      apply filter_In in Hin. destruct Hin as [_ Hfx]. congruence.
Qed.

Lemma cleanupEcoCoresLoop_run env (l : list DevTreePhysPath) :
  forall (u : bool) (m : Manager),
  exists evs,
    cleanupEcoCoresLoop env l u m =
    Ok (u || existsb (fun p => negb (carried (_isolatedHardwares m) p)) l)
       (with_trace (trace m ++ evs)
          (with_persistedEcoCores
             (fold_left
                (fun s p => if carried (_isolatedHardwares m) p then s
                            else set_erase p s)
                l (_persistedEcoCores m)) m)) /\
    existsb is_eco_file_event evs =
    existsb (fun p => negb (carried (_isolatedHardwares m) p)) l.
Proof.
  induction l as [|p l IH]; intros u m; cbn [cleanupEcoCoresLoop fold_left existsb].
  - exists []. split; [|reflexivity].
    unfold ret. rewrite orb_false_r, app_nil_r. now destruct m.
  - unfold bind at 1. unfold get.
    change (existsb
              (fun entry => path_eqb (getEntityPath (snd entry)) (EntityPath_of_raw p))
              (_isolatedHardwares m))
      with (carried (_isolatedHardwares m) p).
    destruct (carried (_isolatedHardwares m) p) eqn:Hp; cbn [negb orb].
    + exact (IH u m).
    + unfold bind. rewrite updateEcoCoresList_run.
      destruct (IH true
                  (with_trace
                     (trace m ++
                      serialize_events env
                        (ecoCores_after false p (_persistedEcoCores m)))
                     (with_persistedEcoCores
                        (ecoCores_after false p (_persistedEcoCores m)) m)))
        as (evs & Hrun & Hev).
      exists (serialize_events env (ecoCores_after false p (_persistedEcoCores m))
              ++ evs).
      split.
      * rewrite Hrun. cbn. rewrite orb_true_r. now rewrite <- app_assoc.
      * rewrite existsb_app, serialize_events_has_file_event. reflexivity.
Qed.

Lemma cleanupPersistedEcoCores_run env m :
  exists m',
    cleanupPersistedEcoCores env m = Ok tt m' /\
    _isolatedHardwares m' = _isolatedHardwares m.
Proof.
  unfold cleanupPersistedEcoCores, bind at 1, get.
  destruct (_isolatedHardwares m) as [|kv h] eqn:Hh.
  - unfold bind, modify, ret. rewrite serialize_run.
    eexists. split; [reflexivity|]. cbn. now rewrite Hh.
  - rewrite <- Hh. unfold bind.
    destruct (cleanupEcoCoresLoop_run env (_persistedEcoCores m) false m)
      as (evs & Hrun & _).
    rewrite Hrun. destruct (false || _).
    + rewrite serialize_run. eexists. split; reflexivity.
    + eexists. split; reflexivity.
Qed.

(** C8, as the code has it: the cleanup keeps exactly the eco cores whose
    entity path some entry carries, which is none of them when the entry
    collection is empty; it leaves the entries alone; and it runs
    [Manager::serialize] if and only if the entry collection is empty or a
    path was removed. *)
Theorem cleanup_keeps_carried_eco_cores :
  forall env m,
  exists m' evs,
    cleanupPersistedEcoCores env m = Ok tt m' /\
    _isolatedHardwares m' = _isolatedHardwares m /\
    _persistedEcoCores m' =
      filter (carried (_isolatedHardwares m)) (_persistedEcoCores m) /\
    (_isolatedHardwares m = [] -> _persistedEcoCores m' = []) /\
    trace m' = trace m ++ evs /\
    (existsb is_eco_file_event evs = true <->
     _isolatedHardwares m = [] \/ _persistedEcoCores m' <> _persistedEcoCores m).
Proof.
  intros env m. unfold cleanupPersistedEcoCores, bind at 1, get.
  destruct (_isolatedHardwares m) as [|kv h] eqn:Hh.
  - unfold bind, modify, ret. rewrite serialize_run. cbn.
    eexists _, [EvEcoCoresFileRemove]. split; [reflexivity|]. cbn. rewrite Hh.
    split; [reflexivity|]. split.
    { induction (_persistedEcoCores m); cbn; auto. }
    split; [reflexivity|]. split; [reflexivity|].
    split; [now left | reflexivity].
  - rewrite <- Hh. unfold bind.
    destruct (cleanupEcoCoresLoop_run env (_persistedEcoCores m) false m)
      as (evs & Hrun & Hev).
    rewrite Hrun, erase_not_carried_filter, filter_snapshot. cbn [orb].
    assert (Hne : _isolatedHardwares m <> []) by (rewrite Hh; discriminate).
    destruct (existsb (fun p => negb (carried (_isolatedHardwares m) p))
                (_persistedEcoCores m)) eqn:Hex.
    + rewrite serialize_run. cbn.
      eexists _, (evs ++ _). split; [reflexivity|]. cbn.
      rewrite <- app_assoc. repeat split; auto; try contradiction.
      * intros _. right. now apply filter_changes.
      * intros _. now rewrite existsb_app, Hev.
    + eexists _, evs. split; [reflexivity|]. cbn.
      repeat split; auto; try contradiction.
      * rewrite Hev. discriminate.
      * intros [H|H]; [contradiction|]. apply filter_changes in H.
        discriminate (eq_trans (eq_sym H) Hex).
Qed.


Lemma cleanup_keeps_carried_eco_cores_witness :
  exists m' evs,
    cleanupPersistedEcoCores Samples.envOn
      (mkManager [(1, Samples.entryP 1)] [Samples.pathP; Samples.pathQ] [] []) =
    Ok tt m' /\
    _persistedEcoCores m' = [Samples.pathP] /\
    trace m' = evs /\
    existsb is_eco_file_event evs = true.
Proof.
  destruct (cleanup_keeps_carried_eco_cores Samples.envOn
              (mkManager [(1, Samples.entryP 1)] [Samples.pathP; Samples.pathQ] [] []))
    as (m' & evs & Hrun & _ & Heco & _ & Htr & Hser).
  exists m', evs. split; [exact Hrun|]. split; [exact Heco|]. split; [exact Htr|].
  apply Hser. right. rewrite Heco. vm_compute. discriminate.
Defined.

(** C8, as the claim states it, fails: with no entry and no eco core the
    cleanup still runs [Manager::serialize] (which removes the eco cores
    file), although the membership of the set did not change. *)
Lemma cleanup_serializes_an_unchanged_set :
  exists m',
    cleanupPersistedEcoCores Samples.envOn manager0 = Ok tt m' /\
    _persistedEcoCores m' = _persistedEcoCores manager0 /\
    trace m' = [EvEcoCoresFileRemove] /\
    existsb is_eco_file_event (trace m') = true.
Proof.
  eexists. split; [reflexivity|]. repeat split.
Qed.

(** ** The entry map as a sorted association list *)

Lemma map_at_map_set k' k v h :
  map_at k' (map_set k v h) =
  if k' =? k then match map_at k h with Some _ => Some v | None => None end
  else map_at k' h.
Proof.
  unfold map_set. induction h as [|[k0 v0] h IH]; cbn.
  - now destruct (k' =? k).
  - destruct (Z.eqb_spec k0 k) as [->|Hne]; cbn.
    + destruct (Z.eqb_spec k k') as [->|Hne']; [now rewrite Z.eqb_refl|].
      rewrite IH. destruct (Z.eqb_spec k' k); [congruence|reflexivity].
    + destruct (Z.eqb_spec k0 k') as [->|Hne'].
      * destruct (Z.eqb_spec k' k); [congruence|reflexivity].
      * exact IH.
Qed.

Lemma map_at_map_erase k' k h :
  map_at k' (map_erase k h) = if k' =? k then None else map_at k' h.
Proof.
  unfold map_erase. induction h as [|[k0 v0] h IH]; cbn.
  - now destruct (k' =? k).
  - destruct (Z.eqb_spec k0 k) as [->|Hne]; cbn.
    + rewrite IH. destruct (Z.eqb_spec k' k) as [->|Hne']; [reflexivity|].
      destruct (Z.eqb_spec k k'); [congruence|reflexivity].
    + destruct (Z.eqb_spec k0 k') as [->|Hne']; [|exact IH].
      destruct (Z.eqb_spec k' k); [congruence|reflexivity].
Qed.

Lemma map_erase_map_set k v h : map_erase k (map_set k v h) = map_erase k h.
Proof.
  unfold map_erase, map_set. induction h as [|[k0 v0] h IH]; cbn; [reflexivity|].
  destruct (Z.eqb_spec k0 k) as [->|Hne]; cbn.
  - rewrite Z.eqb_refl. cbn. exact IH.
  - destruct (Z.eqb_spec k0 k); [congruence|]. cbn. now rewrite IH.
Qed.

Lemma map_set_map_set k v w h : map_set k w (map_set k v h) = map_set k w h.
Proof.
  unfold map_set. rewrite map_map. apply map_ext. intros [k0 v0]. cbn.
  destruct (Z.eqb_spec k0 k) as [->|Hne]; cbn.
  - now rewrite Z.eqb_refl.
  - destruct (Z.eqb_spec k0 k); [congruence|reflexivity].
Qed.

Lemma map_keys_map_set k v h : map_keys (map_set k v h) = map_keys h.
Proof.
  unfold map_keys, map_set. rewrite map_map. apply map_ext.
  intros [k0 v0]. cbn. now destruct (k0 =? k).
Qed.

Lemma map_at_not_key k h : ~ In k (map_keys h) -> map_at k h = None.
Proof.
  induction h as [|[k0 v0] h IH]; cbn; [reflexivity|]. intro H.
  destruct (Z.eqb_spec k0 k) as [->|Hne]; [exfalso; auto|]. apply IH. auto.
Qed.

Lemma map_at_key k h : In k (map_keys h) -> exists e, map_at k h = Some e.
Proof.
  induction h as [|[k0 v0] h IH]; cbn; [intros []|].
  destruct (Z.eqb_spec k0 k) as [->|Hne]; [eauto|].
  intros [H|H]; [congruence | now apply IH].
Qed.

Lemma map_at_Some_key k e h : map_at k h = Some e -> In k (map_keys h).
Proof.
  intro H. apply map_at_In in H. unfold map_keys.
  apply in_map_iff. now exists (k, e).
Qed.

Lemma sorted_tail_greater k0 h :
  StronglySorted Z.lt (k0 :: map_keys h) -> forall k, k <= k0 -> map_at k h = None.
Proof.
  intros Hs k Hle. apply map_at_not_key. intro Hin.
  apply StronglySorted_inv in Hs as [_ Hall].
  rewrite Forall_forall in Hall. specialize (Hall k Hin). lia.
Qed.

Lemma map_set_same k e h :
  StronglySorted Z.lt (map_keys h) -> map_at k h = Some e -> map_set k e h = h.
Proof.
  induction h as [|[k0 v0] h IH]; cbn; [reflexivity|]. intros Hs Hat.
  destruct (Z.eqb_spec k0 k) as [->|Hne].
  - injection Hat as ->. f_equal.
    unfold map_set. rewrite <- (map_id h) at 2. apply map_ext_in.
    intros [k1 v1] Hin. cbn. destruct (Z.eqb_spec k1 k) as [->|]; [|reflexivity].
    exfalso. apply StronglySorted_inv in Hs as [_ Hall].
    rewrite Forall_forall in Hall.
    assert (Hk : In k (map_keys h)) by (apply in_map_iff; now exists (k, v1)).
    specialize (Hall k Hk). lia.
  - f_equal. apply IH; [|exact Hat]. now apply StronglySorted_inv in Hs.
Qed.

Lemma map_insert_present k e e0 h :
  StronglySorted Z.lt (map_keys h) -> map_at k h = Some e0 -> map_insert k e h = h.
Proof.
  induction h as [|[k0 v0] h IH]; cbn; [discriminate|]. intros Hs Hat.
  destruct (Z.eqb_spec k0 k) as [->|Hne].
  - rewrite Z.ltb_irrefl, Z.eqb_refl. reflexivity.
  - destruct (Z.ltb_spec k k0) as [Hlt|Hge].
    + rewrite (sorted_tail_greater k0 h Hs k) in Hat by lia. discriminate.
    + destruct (Z.eqb_spec k k0); [congruence|].
      f_equal. apply IH; [|exact Hat]. now apply StronglySorted_inv in Hs.
Qed.

Lemma map_at_map_insert_other k' k e h :
  k' <> k -> map_at k' (map_insert k e h) = map_at k' h.
Proof.
  intro Hne. induction h as [|[k0 v0] h IH]; cbn.
  - destruct (Z.eqb_spec k k'); [congruence|reflexivity].
  - destruct (k <? k0); cbn.
    + destruct (Z.eqb_spec k k'); [congruence|reflexivity].
    + destruct (k =? k0); cbn; [reflexivity|].
      destruct (k0 =? k'); [reflexivity|exact IH].
Qed.

Lemma map_at_map_insert_absent k e h :
  map_at k h = None -> map_at k (map_insert k e h) = Some e.
Proof.
  induction h as [|[k0 v0] h IH]; cbn.
  - now rewrite Z.eqb_refl.
  - destruct (Z.eqb_spec k0 k) as [->|Hne]; [discriminate|]. intro Hat.
    destruct (k <? k0); cbn; [now rewrite Z.eqb_refl|].
    destruct (Z.eqb_spec k k0); [congruence|]. cbn.
    destruct (Z.eqb_spec k0 k); [congruence|]. now apply IH.
Qed.

Lemma map_at_map_insert_same k e h : map_at k (map_insert k e h) <> None.
Proof.
  induction h as [|[k0 v0] h IH]; cbn.
  - now rewrite Z.eqb_refl.
  - destruct (Z.ltb_spec k k0); cbn; [now rewrite Z.eqb_refl|].
    destruct (Z.eqb_spec k k0) as [->|Hne]; cbn; [now rewrite Z.eqb_refl|].
    destruct (Z.eqb_spec k0 k); [congruence | exact IH].
Qed.

Lemma map_insert_keeps kv k e h : In kv h -> In kv (map_insert k e h).
Proof.
  induction h as [|[k0 v0] h IH]; cbn; [intros []|].
  destruct (k <? k0); [intro H; now right|].
  destruct (k =? k0); [auto|]. cbn. intros [H|H]; auto.
Qed.

Lemma map_keys_map_insert k e h x :
  In x (map_keys (map_insert k e h)) -> x = k \/ In x (map_keys h).
Proof.
  unfold map_keys. intro H. apply in_map_iff in H as (kv & <- & Hin).
  apply map_insert_In in Hin as [->|Hin]; [now left|].
  right. apply in_map_iff. now exists kv.
Qed.

Lemma sorted_map_insert k e h :
  StronglySorted Z.lt (map_keys h) -> StronglySorted Z.lt (map_keys (map_insert k e h)).
Proof.
  induction h as [|[k0 v0] h IH]; cbn; intro Hs.
  - repeat constructor.
  - destruct (Z.ltb_spec k k0) as [Hlt|Hge]; cbn.
    + constructor; [exact Hs|]. constructor; [exact Hlt|].
      apply StronglySorted_inv in Hs as [_ Hall].
      eapply Forall_impl; [|exact Hall]. cbn. intros; lia.
    + destruct (Z.eqb_spec k k0) as [->|Hne]; [exact Hs|]. cbn.
      apply StronglySorted_inv in Hs as [Hs Hall].
      constructor; [now apply IH|].
      apply Forall_forall. intros x Hx.
      apply map_keys_map_insert in Hx as [->|Hx]; [lia|].
      rewrite Forall_forall in Hall. now apply Hall.
Qed.

Lemma sorted_map_erase k h :
  StronglySorted Z.lt (map_keys h) -> StronglySorted Z.lt (map_keys (map_erase k h)).
Proof.
  induction h as [|[k0 v0] h IH]; cbn; intro Hs; [constructor|].
  apply StronglySorted_inv in Hs as [Hs Hall].
  destruct (k0 =? k); cbn; [now apply IH|].
  constructor; [now apply IH|].
  apply Forall_forall. intros x Hx. rewrite Forall_forall in Hall. apply Hall.
  unfold map_keys in *. apply in_map_iff in Hx as (kv & <- & Hin).
  apply map_erase_In in Hin. apply in_map_iff. now exists kv.
Qed.

Lemma sorted_In_map_at k e h :
  StronglySorted Z.lt (map_keys h) -> In (k, e) h -> map_at k h = Some e.
Proof.
  induction h as [|[k0 v0] h IH]; cbn; [intros _ []|]. intros Hs Hin.
  destruct (Z.eqb_spec k0 k) as [->|Hne].
  - destruct Hin as [[= ->]|Hin]; [reflexivity|]. exfalso.
    apply StronglySorted_inv in Hs as [_ Hall]. rewrite Forall_forall in Hall.
    assert (Hk : In k (map_keys h)) by (apply in_map_iff; now exists (k, e)).
    specialize (Hall k Hk). lia.
  - destruct Hin as [[= -> ->]|Hin]; [congruence|].
    apply IH; [|exact Hin]. now apply StronglySorted_inv in Hs.
Qed.

Lemma sorted_keys_NoDup h : StronglySorted Z.lt (map_keys h) -> NoDup (map_keys h).
Proof.
  induction (map_keys h) as [|x l IH]; intro Hs; constructor.
  - apply StronglySorted_inv in Hs as [_ Hall]. rewrite Forall_forall in Hall.
    intro Hin. specialize (Hall x Hin). lia.
  - apply IH. now apply StronglySorted_inv in Hs.
Qed.

(** ** Well-formed managers *)

Lemma well_formed_trace t m : well_formed m -> well_formed (with_trace t m).
Proof. exact (fun H => H). Qed.

Lemma well_formed_eco s m : well_formed m -> well_formed (with_persistedEcoCores s m).
Proof. exact (fun H => H). Qed.

Lemma well_formed_timers q m : well_formed m -> well_formed (with_timerObjs q m).
Proof. exact (fun H => H). Qed.

Lemma well_formed_erase k m :
  well_formed m ->
  well_formed (with_isolatedHardwares (map_erase k (_isolatedHardwares m)) m).
Proof.
  intros [Hs Hid]. split; cbn.
  - now apply sorted_map_erase.
  - unfold map_erase. rewrite Forall_forall in *. intros kv Hin.
    apply filter_In in Hin. now apply Hid.
Qed.

Lemma well_formed_clear m : well_formed m -> well_formed (with_isolatedHardwares [] m).
Proof. intros _. split; constructor. Qed.

Lemma well_formed_set k e e' m :
  In (k, e) (_isolatedHardwares m) -> getEntryRecId e' = getEntryRecId e ->
  well_formed m ->
  well_formed (with_isolatedHardwares (map_set k e' (_isolatedHardwares m)) m).
Proof.
  intros Hin Heq [Hs Hid]. split; cbn.
  - now rewrite map_keys_map_set.
  - rewrite Forall_forall in *. intros kv Hkv.
    apply map_set_In in Hkv as [Hold|(Hk & He & _)]; [now apply Hid|].
    rewrite Hk, He, Heq. exact (Hid (k, e) Hin).
Qed.

Lemma well_formed_insert k e m :
  True -> getEntryRecId e = k ->
  well_formed m ->
  well_formed (with_isolatedHardwares (map_insert k e (_isolatedHardwares m)) m).
Proof.
  intros _ Heq [Hs Hid]. split; cbn.
  - now apply sorted_map_insert.
  - rewrite Forall_forall in *. intros kv Hkv.
    apply map_insert_In in Hkv as [->|Hold]; [exact Heq | now apply Hid].
Qed.

Ltac solve_well_formed :=
  first [ exact well_formed_trace | exact well_formed_eco | exact well_formed_erase
        | exact well_formed_clear | exact well_formed_set | exact well_formed_insert
        | exact (fun _ _ => Logic.I) | exact (fun _ _ _ _ _ => Logic.I)
        | assumption ].

Lemma well_formed_reconcile env now records m m' :
  well_formed m -> final (reconcile env now records m) = Some m' -> well_formed m'.
Proof.
  intro Hm. apply keeps_final; [|exact Hm].
  apply keeps_reconcile with (okKey := fun _ => True); solve_well_formed.
Qed.

Lemma well_formed_entry_id k e m :
  well_formed m -> map_at k (_isolatedHardwares m) = Some e -> getEntryRecId e = k.
Proof.
  intros [_ Hid] Hat. apply map_at_In in Hat.
  rewrite Forall_forall in Hid. exact (Hid (k, e) Hat).
Qed.

(** ** Runs of the steps of a reconciliation pass *)

Arguments map_set : simpl never.
Arguments map_erase : simpl never.
Arguments map_insert : simpl never.
Arguments set_erase : simpl never.
Arguments set_emplace : simpl never.
Arguments serialize_events : simpl never.

Lemma resolveEntry_run env k b e m :
  map_at k (_isolatedHardwares m) = Some e -> getEntryRecId e = k ->
  resolveEntry env k b m =
  if resolved e then Ok tt m
  else if resolveEntry_fails env k b then Throw std_exception m
  else
    let s' := set_erase (convertEntityPathIntoRawData (getEntityPath e))
                (_persistedEcoCores m) in
    Ok tt (mkManager (map_erase k (_isolatedHardwares m)) s' (_timerObjs m)
             (trace m ++ (if b then [EvGuardClear k] else [])
                ++ EvEntryResolved k :: serialize_events env s')).
Proof.
  intros Hat Hid. unfold resolveEntry, entry_at, bind at 1 2, get. rewrite Hat.
  cbn [ret]. rewrite Hid. destruct (resolved e); [reflexivity|].
  destruct (resolveEntry_fails env k b); [reflexivity|].
  assert (Herase : forall m0,
    map_at k (_isolatedHardwares m0) = Some (set_resolved true e) ->
    eraseEntry env k m0 =
    Ok tt (mkManager (map_erase k (_isolatedHardwares m0))
             (set_erase (convertEntityPathIntoRawData (getEntityPath e))
                (_persistedEcoCores m0))
             (_timerObjs m0)
             (trace m0 ++ serialize_events env
                (set_erase (convertEntityPathIntoRawData (getEntityPath e))
                   (_persistedEcoCores m0))))).
  { intros m0 H0. unfold eraseEntry, bind, get. rewrite H0.
    rewrite updateEcoCoresList_run. reflexivity. }
  unfold bind, set_entry, modify.
  destruct b; [rewrite emit_run | unfold ret]; cbv beta iota;
    rewrite emit_run; cbv beta iota;
    (rewrite Herase;
     [cbn; rewrite map_erase_map_set, <- ?app_assoc; reflexivity
     |cbn; now rewrite map_at_map_set, Z.eqb_refl, Hat]).
Qed.

(** ** The full reset *)

Lemma serialize_events_not_diff env s :
  existsb is_diff_or_store_event (serialize_events env s) = false.
Proof.
  unfold serialize_events. destruct s; [reflexivity|].
  destruct (archive_writes env _); reflexivity.
Qed.

Lemma resolveAllEntries_loop env (ks : list EntryRecordId) :
  forall m,
  well_formed m -> NoDup ks ->
  (forall k, In k ks -> map_at k (_isolatedHardwares m) <> None) ->
  exists m' evs,
    for_each
      (fun entryRecordId =>
         try_catch (resolveEntry env entryRecordId false) catches_std_exception
           (fun _ => log (LogResolveFailed entryRecordId)))
      ks m = Ok tt m' /\
    trace m' = trace m ++ evs /\
    _timerObjs m' = _timerObjs m /\
    existsb is_diff_or_store_event evs = false /\
    (forall k e, In k ks -> map_at k (_isolatedHardwares m) = Some e ->
       resolved e = true \/
       In (EvEntryResolved k) evs \/
       (resolveEntry_fails env k false = true /\
        In (EvLog (LogResolveFailed k)) evs)).
Proof.
  induction ks as [|k ks IH]; intros m Hwf Hnd Hpres.
  - exists m, []. cbn. rewrite app_nil_r. repeat split; auto; intros k e [].
  - destruct (map_at k (_isolatedHardwares m)) as [e|] eqn:Hat;
      [|exfalso; apply (Hpres k); [now left | exact Hat]].
    pose proof (well_formed_entry_id k e m Hwf Hat) as Hid.
    apply NoDup_cons_iff in Hnd as [Hnotin Hnd].
    cbn [for_each]. unfold bind at 1, try_catch at 1.
    rewrite (resolveEntry_run env k false e m Hat Hid).
    (* the state after the step, its new events, and what they say about [k] *)
    assert (Hstep : forall m1 evs1,
      well_formed m1 -> trace m1 = trace m ++ evs1 -> _timerObjs m1 = _timerObjs m ->
      existsb is_diff_or_store_event evs1 = false ->
      (forall k', k' <> k ->
         map_at k' (_isolatedHardwares m1) = map_at k' (_isolatedHardwares m)) ->
      (resolved e = true \/ In (EvEntryResolved k) evs1 \/
       (resolveEntry_fails env k false = true /\
        In (EvLog (LogResolveFailed k)) evs1)) ->
      exists m' evs,
        for_each
          (fun entryRecordId =>
             try_catch (resolveEntry env entryRecordId false) catches_std_exception
               (fun _ => log (LogResolveFailed entryRecordId)))
          ks m1 = Ok tt m' /\
        trace m' = trace m ++ evs /\
        _timerObjs m' = _timerObjs m /\
        existsb is_diff_or_store_event evs = false /\
        (forall k0 e0, In k0 (k :: ks) -> map_at k0 (_isolatedHardwares m) = Some e0 ->
           resolved e0 = true \/
           In (EvEntryResolved k0) evs \/
           (resolveEntry_fails env k0 false = true /\
            In (EvLog (LogResolveFailed k0)) evs))).
    { intros m1 evs1 Hwf1 Htr1 Htm1 Hev1 Hother Hk.
      assert (Hne : forall k', In k' ks -> k' <> k) by (intros k' Hin ->; auto).
      destruct (IH m1 Hwf1 Hnd) as (m' & evs & Hrun & Htr & Htm & Hev & Hres).
      { intros k' Hin. rewrite (Hother k' (Hne k' Hin)). apply Hpres. now right. }
      exists m', (evs1 ++ evs). split; [exact Hrun|].
      split; [now rewrite Htr, Htr1, app_assoc|].
      split; [congruence|].
      split; [now rewrite existsb_app, Hev1, Hev|].
      intros k0 e0 [<-|Hin] Hat0.
      - rewrite Hat in Hat0. injection Hat0 as <-.
        destruct Hk as [H|[H|[H1 H2]]]; auto using in_or_app.
        right. right. split; [exact H1 | apply in_or_app; now left].
      - rewrite <- (Hother k0 (Hne k0 Hin)) in Hat0.
        destruct (Hres k0 e0 Hin Hat0) as [H|[H|[H1 H2]]]; auto using in_or_app.
        right. right. split; [exact H1 | apply in_or_app; now right]. }
    destruct (resolved e) eqn:Hres.
    + apply (Hstep m []); auto. now rewrite app_nil_r.
    + destruct (resolveEntry_fails env k false) eqn:Hfail.
      * cbn [catches_std_exception]. unfold log. rewrite emit_run.
        apply (Hstep _ [EvLog (LogResolveFailed k)]); auto.
        right. right. split; [reflexivity | now left].
      * cbv zeta. eapply Hstep.
        -- destruct Hwf as [Hs Hids]. split; cbn.
           ++ now apply sorted_map_erase.
           ++ rewrite Forall_forall in *. intros kv Hin.
              apply map_erase_In in Hin. now apply Hids.
        -- cbn. reflexivity.
        -- reflexivity.
        -- cbn. apply serialize_events_not_diff.
        -- intros k' Hk'. cbn. rewrite map_at_map_erase.
           destruct (Z.eqb_spec k' k); [contradiction|reflexivity].
        -- right. left. now left.
Qed.

(** C1: with an empty snapshot, a non-empty entry map and a timer to fire,
    the handler returns normally with an empty entry map.  On the way
    [resolveEntry(false)] was called on every entry: each entry was resolved
    already, or was marked resolved in this pass, or its failure to resolve
    was logged.  Nothing else happened: the guard store was not asked to
    clear or create a record, and no update or creation step ran (no catalog
    query, no entry written, no hardware enabled or disabled). *)
Theorem empty_snapshot_resolves_every_entry :
  forall env now m t q,
  well_formed m ->
  _isolatedHardwares m <> [] ->
  _timerObjs m = t :: q ->
  exists m' evs,
    handleHostIsolatedHardwares env now [] m = Ok tt m' /\
    _isolatedHardwares m' = [] /\
    _timerObjs m' = q /\
    trace m' = trace m ++ evs /\
    (forall k e, In (k, e) (_isolatedHardwares m) ->
       resolved e = true \/
       In (EvEntryResolved k) evs \/
       (resolveEntry_fails env k false = true /\
        In (EvLog (LogResolveFailed k)) evs)) /\
    existsb is_diff_or_store_event evs = false.
Proof.
  intros env now m t q Hwf Hne Hq.
  rewrite handleHostIsolatedHardwares_run, Hq.
  unfold reconcile, bind at 1, get. cbn [_isolatedHardwares with_timerObjs].
  destruct (_isolatedHardwares m) as [|kv h] eqn:Hh; [contradiction|].
  rewrite <- Hh. unfold resolveAllEntries. unfold bind, get.
  cbn [_isolatedHardwares with_timerObjs].
  destruct (resolveAllEntries_loop env (map_keys (_isolatedHardwares m))
              (with_timerObjs q m))
    as (m1 & evs & Hrun & Htr & Htm & Hev & Hres).
  - now apply well_formed_timers.
  - apply sorted_keys_NoDup. apply Hwf.
  - intros k Hin. cbn. apply map_at_key in Hin as [e He]. congruence.
  - cbn [_isolatedHardwares with_timerObjs] in *. rewrite Hrun.
    eexists _, evs. split; [reflexivity|]. cbn.
    repeat split; auto.
    intros k e Hin. apply (Hres k e).
    + apply in_map_iff. now exists (k, e).
    + apply sorted_In_map_at; [apply Hwf | exact Hin].
Qed.

Lemma empty_snapshot_resolves_every_entry_witness :
  exists m',
    handleHostIsolatedHardwares Samples.envOn 200 [] Samples.managerPQ = Ok tt m' /\
    _isolatedHardwares m' = [] /\
    In (EvEntryResolved 1) (trace m') /\
    In (EvEntryResolved 2) (trace m').
Proof.
  assert (Hwf : well_formed Samples.managerPQ).
  { split; cbn; repeat constructor; lia. }
  destruct (empty_snapshot_resolves_every_entry Samples.envOn 200 Samples.managerPQ
              (mkTimer true 5) [] Hwf ltac:(discriminate) eq_refl)
    as (m' & evs & Hrun & He & _ & Htr & Hres & _).
  exists m'. split; [exact Hrun|]. split; [exact He|].
  rewrite Htr. cbn [Samples.managerPQ trace app]. split.
  - destruct (Hres 1 (Samples.entryP 1) ltac:(now left)) as [H|[H|[H _]]];
      [discriminate | exact H | discriminate].
  - destruct (Hres 2 (Samples.entryQ 2) ltac:(right; now left)) as [H|[H|[H _]]];
      [discriminate | exact H | discriminate].
Defined.

(** ** Update and creation for one record *)

Lemma bind_run {A B} (c : M A) (k : A -> M B) (m : Manager) :
  bind c k m =
  match c m with
  | Ok a m' => k a m'
  | Throw e m' => Throw e m'
  | Undefined => Undefined
  end.
Proof. reflexivity. Qed.

(** Runs the straight-line part of a manager operation. *)
Ltac run_steps :=
  repeat (progress
    (rewrite ?bind_run;
     unfold ret, get, modify, log, lift, throw, undefined, set_entry,
       setEnabledProperty;
     rewrite ?emit_run, ?updateEcoCoresList_run;
     cbv beta iota;
     cbn [_isolatedHardwares _persistedEcoCores _timerObjs trace with_trace
          with_isolatedHardwares with_persistedEcoCores with_timerObjs])).

Lemma applySetters_fixpoint sev assoc e :
  severity e = sev -> associations e = assoc -> applySetters sev assoc e = (e, false).
Proof.
  intros Hs Ha. unfold applySetters.
  destruct (EntrySeverity_eq_dec (severity e) sev); [|contradiction].
  destruct (AssociationDef_eq_dec (associations e) assoc); [reflexivity|contradiction].
Qed.

Lemma stamped_fields now sev assoc e :
  let e' := stamped now (applySetters sev assoc e) in
  severity e' = sev /\ associations e' = assoc /\
  getEntityPath e' = getEntityPath e /\ getEntryRecId e' = getEntryRecId e /\
  resolved e' = resolved e /\
  (elapsed e' <> elapsed e -> severity e <> sev \/ associations e <> assoc).
Proof.
  unfold stamped, applySetters.
  destruct (EntrySeverity_eq_dec (severity e) sev) as [Hs|Hs];
    cbn [fst snd associations set_severity];
    destruct (AssociationDef_eq_dec (associations e) assoc) as [Ha|Ha];
    cbn; repeat split; auto; congruence.
Qed.

Lemma updateEntryForRecord_run env now r k e m :
  map_at k (_isolatedHardwares m) = Some e ->
  match record_view env r with
  | inl ex =>
      exists m', updateEntryForRecord env now r k m = Throw ex m' /\
                 _isolatedHardwares m' = _isolatedHardwares m
  | inr None =>
      exists m', updateEntryForRecord env now r k m = Ok tt m' /\
                 _isolatedHardwares m' = _isolatedHardwares m
  | inr (Some (inventoryPath, bmcErrorLogPath, entrySeverity)) =>
      exists m', updateEntryForRecord env now r k m = Ok tt m' /\
                 _isolatedHardwares m' =
                 map_set k
                   (stamped now
                      (applySetters entrySeverity
                         (associationDeftoHw inventoryPath bmcErrorLogPath) e))
                   (_isolatedHardwares m)
  end.
Proof.
  intro Hat. unfold record_view, updateEntryForRecord, catalog_getInventoryPath.
  destruct (getInventoryPath env _ false) as [[inv eco]|];
    [|run_steps; eexists; split; reflexivity].
  destruct (getBMCLogPath env (elogId r)) as [ex|[bmc|]];
    [run_steps; eexists; split; reflexivity
    | |run_steps; eexists; split; reflexivity].
  destruct (getEntrySeverityType env (errType r)) as [sev|];
    [|run_steps; eexists; split; reflexivity].
  unfold entry_at, stamped. run_steps. rewrite Hat. run_steps.
  destruct (applySetters sev (associationDeftoHw inv bmc) e) as [e' updated].
  run_steps. destruct updated; run_steps; eexists; (split; [reflexivity|]);
    cbn [_isolatedHardwares fst snd]; [apply map_set_map_set | reflexivity].
Qed.

Lemma createEntryForRecord_run env now r m :
  exists m',
    createEntryForRecord env now r false m = Ok tt m' /\
    _isolatedHardwares m' =
    match record_view env r with
    | inr (Some (inventoryPath, bmcErrorLogPath, entrySeverity)) =>
        if Entry_constructs env (recordId r)
        then map_insert (recordId r)
               (mkEntry (recordId r) entrySeverity (recordId r =? 0xFFFFFFFF)
                  (associationDeftoHw inventoryPath bmcErrorLogPath)
                  (targetId r) now)
               (_isolatedHardwares m)
        else _isolatedHardwares m
    | _ => _isolatedHardwares m
    end.
Proof.
  unfold record_view, createEntryForRecord, catalog_getInventoryPath, try_catch.
  run_steps. rewrite andb_false_r.
  destruct (getInventoryPath env _ false) as [[inv eco]|];
    [|run_steps; eexists; split; reflexivity].
  destruct (getBMCLogPath env (elogId r)) as [ex|[bmc|]];
    [run_steps; cbn [catches_std_exception]; run_steps; eexists; split; reflexivity
    | |run_steps; eexists; split; reflexivity].
  destruct (getEntrySeverityType env (errType r)) as [sev|];
    [|run_steps; eexists; split; reflexivity].
  unfold createEntry, try_catch.
  destruct (Entry_constructs env (recordId r)); run_steps;
    cbn [catches_std_exception]; run_steps; eexists; split; reflexivity.
Qed.

(** ** One reconciliation pass settles the map *)

Lemma reconcileEntry_cases env now records k e m :
  map_at k (_isolatedHardwares m) = Some e ->
  reconcileEntry env now records k m =
  match valid_matches records e with
  | [] => resolveEntry env k false m
  | [record] => updateEntryForRecord env now record k m
  | _ :: _ :: _ =>
      log (LogMoreThanOneValid (convertEntityPathIntoRawData (getEntityPath e))) m
  end.
Proof.
  intro Hat. unfold reconcileEntry, entry_at, valid_matches.
  rewrite bind_run, bind_run. unfold get. cbv beta iota. rewrite Hat.
  unfold ret. cbv beta iota.
  destruct (filter (fun record => path_eqb (getEntityPath e) (targetId record))
              records) as [|r rs]; [reflexivity|].
  destruct (filter (fun record => isValidRecord (recordId record)) (r :: rs))
    as [|r1 [|r2 rs']]; reflexivity.
Qed.

Lemma well_formed_same_entries m m' :
  _isolatedHardwares m' = _isolatedHardwares m -> well_formed m -> well_formed m'.
Proof. unfold well_formed. now intros ->. Qed.

Lemma valid_matches_path records e e' :
  getEntityPath e' = getEntityPath e ->
  valid_matches records e' = valid_matches records e.
Proof. unfold valid_matches. now intros ->. Qed.

Lemma reconcileEntry_step env now records k m m1 :
  well_formed m ->
  reconcileEntry env now records k m = Ok tt m1 ->
  (forall k', k' <> k ->
     map_at k' (_isolatedHardwares m1) = map_at k' (_isolatedHardwares m)) /\
  (forall e1, map_at k (_isolatedHardwares m1) = Some e1 -> settled env records e1).
Proof.
  intros Hwf Hrun.
  destruct (map_at k (_isolatedHardwares m)) as [e|] eqn:Hat.
  2:{ unfold reconcileEntry, entry_at in Hrun. rewrite bind_run, bind_run in Hrun.
      unfold get in Hrun. cbv beta iota in Hrun. rewrite Hat in Hrun. discriminate. }
  pose proof (well_formed_entry_id k e m Hwf Hat) as Hid.
  rewrite (reconcileEntry_cases env now records k e m Hat) in Hrun.
  destruct (valid_matches records e) as [|r [|r2 rs]] eqn:Hvm.
  - rewrite (resolveEntry_run env k false e m Hat Hid) in Hrun.
    destruct (resolved e) eqn:Hres.
    + injection Hrun as <-. split; [reflexivity|]. intros e1 He1.
      rewrite Hat in He1. injection He1 as <-. unfold settled. now rewrite Hvm.
    + destruct (resolveEntry_fails env k false); [discriminate|].
      cbv zeta in Hrun. injection Hrun as <-. cbn [_isolatedHardwares]. split.
      * intros k' Hk'. rewrite map_at_map_erase.
        destruct (Z.eqb_spec k' k); [contradiction|reflexivity].
      * intros e1. now rewrite map_at_map_erase, Z.eqb_refl.
  - pose proof (updateEntryForRecord_run env now r k e m Hat) as Hupd.
    destruct (record_view env r) as [ex|[[[inv bmc] sev]|]] eqn:Hview.
    + destruct Hupd as (m' & Hthrow & _). congruence.
    + destruct Hupd as (m' & Hok & Hentries).
      rewrite Hok in Hrun. injection Hrun as <-. rewrite Hentries. split.
      * intros k' Hk'. rewrite map_at_map_set.
        destruct (Z.eqb_spec k' k); [contradiction|reflexivity].
      * intros e1. rewrite map_at_map_set, Z.eqb_refl, Hat. intros [= <-].
        destruct (stamped_fields now sev (associationDeftoHw inv bmc) e)
          as (Hs & Ha & Hp & _).
        unfold settled. rewrite (valid_matches_path records e _ Hp), Hvm, Hview.
        now split.
    + destruct Hupd as (m' & Hok & Hentries).
      rewrite Hok in Hrun. injection Hrun as <-. rewrite Hentries.
      split; [reflexivity|]. intros e1. rewrite Hat. intros [= <-].
      unfold settled. now rewrite Hvm, Hview.
  - unfold log in Hrun. rewrite emit_run in Hrun. injection Hrun as <-.
    split; [reflexivity|]. intros e1. cbn. rewrite Hat. intros [= <-].
    unfold settled. now rewrite Hvm.
Qed.

Lemma for_each_cons_ok {A} (f : A -> M unit) x l m m' :
  for_each f (x :: l) m = Ok tt m' ->
  exists m1, f x m = Ok tt m1 /\ for_each f l m1 = Ok tt m'.
Proof.
  cbn [for_each]. rewrite bind_run.
  destruct (f x m) as [[] m1| |]; [eauto | discriminate | discriminate].
Qed.

Lemma reconcile_loop_settles env now records ks :
  forall m m',
  well_formed m ->
  for_each (reconcileEntry env now records) ks m = Ok tt m' ->
  (forall k e, map_at k (_isolatedHardwares m) = Some e ->
     In k ks \/ settled env records e) ->
  well_formed m' /\ all_settled env records m'.
Proof.
  induction ks as [|k ks IH]; intros m m' Hwf Hrun Hinv.
  - injection Hrun as <-. split; [exact Hwf|].
    intros k e Hat. destruct (Hinv k e Hat) as [[]|H]. exact H.
  - apply for_each_cons_ok in Hrun as (m1 & Hstep & Hrest).
    assert (Hwf1 : well_formed m1).
    { apply (keeps_final well_formed (reconcileEntry env now records k) m m1);
        [|exact Hwf|now rewrite Hstep].
      apply keeps_reconcileEntry; solve_well_formed. }
    destruct (reconcileEntry_step env now records k m m1 Hwf Hstep) as [Hother Hk].
    apply (IH m1 m' Hwf1 Hrest).
    intros k' e' Hat'. destruct (Z.eq_dec k' k) as [->|Hne].
    + right. now apply Hk.
    + rewrite (Hother k' Hne) in Hat'.
      destruct (Hinv k' e' Hat') as [[Heq|Hin]|Hs]; [congruence | now left | now right].
Qed.

Lemma all_settled_same_entries env records m m' :
  _isolatedHardwares m' = _isolatedHardwares m ->
  all_settled env records m -> all_settled env records m'.
Proof. unfold all_settled. now intros ->. Qed.

Lemma shares_path_insert r k e h :
  shares_path r h = true -> shares_path r (map_insert k e h) = true.
Proof.
  unfold shares_path. rewrite !existsb_exists. intros (kv & Hin & Hp).
  exists kv. split; [now apply map_insert_keeps | exact Hp].
Qed.

Lemma creation_done_insert env r k e h :
  creation_done env h r -> creation_done env (map_insert k e h) r.
Proof.
  intros [Hsh|Hright]; [left; now apply shares_path_insert|]. right.
  destruct (record_view env r) as [ex|[v|]]; auto.
  destruct Hright as [Hc|Hat]; [now left|]. right.
  destruct (Z.eq_dec (recordId r) k) as [<-|Hne].
  - apply map_at_map_insert_same.
  - now rewrite map_at_map_insert_other.
Qed.

Lemma createEntryIfNotExists_step env now records r m :
  well_formed m ->
  In r records ->
  isValidRecord (recordId r) = true ->
  all_settled env records m ->
  exists m1,
    createEntryIfNotExists env now r m = Ok tt m1 /\
    well_formed m1 /\
    all_settled env records m1 /\
    creation_done env (_isolatedHardwares m1) r /\
    (forall r', creation_done env (_isolatedHardwares m) r' ->
                creation_done env (_isolatedHardwares m1) r').
Proof.
  intros Hwf Hin Hvalid Hset.
  unfold createEntryIfNotExists. rewrite bind_run. unfold get. cbv beta iota.
  change (existsb (fun entry => path_eqb (targetId r) (getEntityPath (snd entry)))
            (_isolatedHardwares m))
    with (shares_path r (_isolatedHardwares m)).
  destruct (shares_path r (_isolatedHardwares m)) eqn:Hsh.
  { exists m. repeat split; auto; try apply Hwf. now left. }
  destruct (createEntryForRecord_run env now r m) as (m1 & Hrun & Hentries).
  exists m1. split; [exact Hrun|].
  (* the cases in which the map is left as it was *)
  assert (Hsame : _isolatedHardwares m1 = _isolatedHardwares m ->
            match record_view env r with
            | inr (Some _) =>
                Entry_constructs env (recordId r) = false \/
                map_at (recordId r) (_isolatedHardwares m) <> None
            | _ => True
            end ->
            well_formed m1 /\ all_settled env records m1 /\
            creation_done env (_isolatedHardwares m1) r /\
            (forall r', creation_done env (_isolatedHardwares m) r' ->
                        creation_done env (_isolatedHardwares m1) r')).
  { intros Heq Hright. split; [now apply (well_formed_same_entries m)|].
    split; [now apply (all_settled_same_entries env records m)|].
    rewrite Heq. split; [now right | auto]. }
  destruct (record_view env r) as [ex|[[[inv bmc] sev]|]] eqn:Hview;
    try (apply Hsame; [exact Hentries | exact Logic.I]).
  destruct (Entry_constructs env (recordId r)) eqn:Hctor;
    [|apply Hsame; [exact Hentries | now left]].
  destruct (map_at (recordId r) (_isolatedHardwares m)) as [e0|] eqn:Hat.
  { apply Hsame; [|right; congruence].
    rewrite Hentries. eapply map_insert_present; [apply Hwf | exact Hat]. }
  clear Hsame.
  set (enew := mkEntry (recordId r) sev (recordId r =? 0xFFFFFFFF)
                 (associationDeftoHw inv bmc) (targetId r) now) in *.
  assert (Hnew : map_at (recordId r) (_isolatedHardwares m1) = Some enew)
    by (rewrite Hentries; now apply map_at_map_insert_absent).
  split; [|split; [|split]].
  - destruct Hwf as [Hs Hid]. split; rewrite Hentries.
    + now apply sorted_map_insert.
    + rewrite Forall_forall in *. intros kv Hkv.
      apply map_insert_In in Hkv as [->|Hold]; [reflexivity | now apply Hid].
  - intros k e Hk. destruct (Z.eq_dec k (recordId r)) as [->|Hne].
    + rewrite Hnew in Hk. injection Hk as <-.
      unfold settled.
      assert (Hmem : In r (valid_matches records enew)).
      { unfold valid_matches. apply filter_In. split; [|exact Hvalid].
        apply filter_In. split; [exact Hin|]. cbn. apply path_eqb_refl. }
      destruct (valid_matches records enew) as [|r1 [|r2 rs]]; [destruct Hmem| |exact Logic.I].
      destruct Hmem as [->|[]]. rewrite Hview. now split.
    + rewrite Hentries, map_at_map_insert_other in Hk by exact Hne.
      exact (Hset k e Hk).
  - left. unfold shares_path. apply existsb_exists. exists (recordId r, enew).
    split; [now apply map_at_In|]. cbn. apply path_eqb_refl.
  - intros r' Hr'. rewrite Hentries. now apply creation_done_insert.
Qed.

Lemma creation_loop_settles env now records rs :
  forall m,
  well_formed m ->
  (forall r, In r rs -> In r records /\ isValidRecord (recordId r) = true) ->
  all_settled env records m ->
  exists m',
    for_each (createEntryIfNotExists env now) rs m = Ok tt m' /\
    well_formed m' /\
    all_settled env records m' /\
    (forall r, In r rs -> creation_done env (_isolatedHardwares m') r) /\
    (forall r, creation_done env (_isolatedHardwares m) r ->
               creation_done env (_isolatedHardwares m') r).
Proof.
  induction rs as [|r rs IH]; intros m Hwf Hrs Hset.
  - exists m. cbn. repeat split; auto; try apply Hwf. intros r [].
  - destruct (Hrs r (or_introl eq_refl)) as [Hin Hvalid].
    destruct (createEntryIfNotExists_step env now records r m Hwf Hin Hvalid Hset)
      as (m1 & Hstep & Hwf1 & Hset1 & Hdone & Hmono).
    destruct (IH m1 Hwf1 (fun r' H' => Hrs r' (or_intror H')) Hset1)
      as (m' & Hrest & Hwf' & Hset' & Hdone' & Hmono').
    exists m'. cbn [for_each]. rewrite bind_run, Hstep.
    split; [exact Hrest|]. split; [exact Hwf'|]. split; [exact Hset'|]. split.
    + intros r0 [<-|H0]; [now apply Hmono' | now apply Hdone'].
    + intros r0 H0. now apply Hmono', Hmono.
Qed.

Lemma reconcile_settles env now records m m1 :
  well_formed m ->
  reconcile env now records m = Ok tt m1 ->
  well_formed m1 /\
  all_settled env records m1 /\
  (forall r, In r records -> isValidRecord (recordId r) = true ->
     creation_done env (_isolatedHardwares m1) r) /\
  (records = [] -> _isolatedHardwares m1 = []).
Proof.
  intros Hwf Hrun.
  assert (Hwf1 : well_formed m1)
    by (apply (well_formed_reconcile env now records m m1 Hwf); now rewrite Hrun).
  split; [exact Hwf1|].
  assert (Hempty : _isolatedHardwares m1 = [] ->
            all_settled env records m1 /\
            (forall r, In r [] -> isValidRecord (recordId r) = true ->
               creation_done env (_isolatedHardwares m1) r)).
  { intro He. split; [|intros r []]. intros k e. rewrite He. discriminate. }
  unfold reconcile in Hrun. rewrite bind_run in Hrun. unfold get in Hrun.
  cbv beta iota in Hrun.
  destruct records as [|r0 rs].
  - destruct (_isolatedHardwares m) as [|kv h] eqn:Hh.
    + cbn [map_keys map filter for_each] in Hrun.
      repeat (rewrite bind_run in Hrun; unfold ret in Hrun; cbv beta iota in Hrun).
      destruct (cleanupPersistedEcoCores_run env m) as (m' & Hc & He).
      rewrite Hc in Hrun. injection Hrun as <-.
      rewrite Hh in He. destruct (Hempty He). auto.
    + rewrite bind_run in Hrun.
      destruct (resolveAllEntries env false m) as [[] m0| |]; try discriminate.
      injection Hrun as <-. destruct (Hempty eq_refl). auto.
  - rewrite bind_run in Hrun.
    destruct (for_each (reconcileEntry env now (r0 :: rs))
                (map_keys (_isolatedHardwares m)) m) as [[] m2| |] eqn:Hloop;
      try discriminate.
    destruct (reconcile_loop_settles env now (r0 :: rs) _ m m2 Hwf Hloop)
      as [Hwf2 Hset2].
    { intros k e Hat. left. now apply map_at_Some_key in Hat. }
    rewrite bind_run in Hrun.
    destruct (creation_loop_settles env now (r0 :: rs)
                (filter (fun record => isValidRecord (recordId record)) (r0 :: rs))
                m2 Hwf2)
      as (m3 & Hcre & Hwf3 & Hset3 & Hdone3 & _);
      [intros r Hr; now apply filter_In in Hr | exact Hset2 |].
    rewrite Hcre in Hrun.
    destruct (cleanupPersistedEcoCores_run env m3) as (m' & Hc & He).
    rewrite Hc in Hrun. injection Hrun as <-.
    split; [now apply (all_settled_same_entries env _ m3)|].
    split; [|discriminate].
    intros r Hr Hv. rewrite He. apply Hdone3. now apply filter_In.
Qed.

(** ** A pass over a settled map changes no entry *)

Lemma reconcileEntry_settled_noop env now records k e m :
  well_formed m ->
  map_at k (_isolatedHardwares m) = Some e ->
  settled env records e ->
  exists m',
    reconcileEntry env now records k m = Ok tt m' /\
    _isolatedHardwares m' = _isolatedHardwares m.
Proof.
  intros Hwf Hat Hset.
  pose proof (well_formed_entry_id k e m Hwf Hat) as Hid.
  rewrite (reconcileEntry_cases env now records k e m Hat).
  unfold settled in Hset.
  destruct (valid_matches records e) as [|r [|r2 rs]].
  - rewrite (resolveEntry_run env k false e m Hat Hid), Hset. now exists m.
  - pose proof (updateEntryForRecord_run env now r k e m Hat) as Hupd.
    destruct (record_view env r) as [ex|[[[inv bmc] sev]|]]; [contradiction| |exact Hupd].
    destruct Hupd as (m' & Hok & Hentries). exists m'. split; [exact Hok|].
    destruct Hset as [Hs Ha].
    rewrite Hentries, (applySetters_fixpoint _ _ _ Hs Ha). cbn [stamped fst snd].
    apply map_set_same; [apply Hwf | exact Hat].
  - unfold log. rewrite emit_run. eexists. split; reflexivity.
Qed.

Lemma createEntryIfNotExists_done_noop env now r m :
  well_formed m ->
  creation_done env (_isolatedHardwares m) r ->
  exists m',
    createEntryIfNotExists env now r m = Ok tt m' /\
    _isolatedHardwares m' = _isolatedHardwares m.
Proof.
  intros Hwf Hdone.
  unfold createEntryIfNotExists. rewrite bind_run. unfold get. cbv beta iota.
  change (existsb (fun entry => path_eqb (targetId r) (getEntityPath (snd entry)))
            (_isolatedHardwares m))
    with (shares_path r (_isolatedHardwares m)).
  destruct (shares_path r (_isolatedHardwares m)) eqn:Hsh; [now exists m|].
  destruct Hdone as [Habs|Hright]; [congruence|].
  destruct (createEntryForRecord_run env now r m) as (m1 & Hrun & Hentries).
  exists m1. split; [exact Hrun|]. rewrite Hentries.
  destruct (record_view env r) as [ex|[[[inv bmc] sev]|]]; try reflexivity.
  destruct (Entry_constructs env (recordId r)); [|reflexivity].
  destruct Hright as [Hc|Hpresent]; [discriminate|].
  destruct (map_at (recordId r) (_isolatedHardwares m)) as [e0|] eqn:Hat;
    [|contradiction].
  eapply map_insert_present; [apply Hwf | exact Hat].
Qed.

Lemma for_each_entries_noop {A} (f : A -> M unit) (l : list A) (h : IsolatedHardwares) :
  (forall x, In x l -> forall m, _isolatedHardwares m = h ->
     exists m', f x m = Ok tt m' /\ _isolatedHardwares m' = h) ->
  forall m, _isolatedHardwares m = h ->
  exists m', for_each f l m = Ok tt m' /\ _isolatedHardwares m' = h.
Proof.
  induction l as [|x l IH]; intros Hf m Hm.
  - now exists m.
  - destruct (Hf x (or_introl eq_refl) m Hm) as (m1 & Hstep & Hm1).
    destruct (IH (fun y Hy => Hf y (or_intror Hy)) m1 Hm1) as (m' & Hrest & Hm').
    exists m'. cbn [for_each]. rewrite bind_run, Hstep. auto.
Qed.

Lemma reconcile_noop env now records m :
  well_formed m ->
  all_settled env records m ->
  (forall r, In r records -> isValidRecord (recordId r) = true ->
     creation_done env (_isolatedHardwares m) r) ->
  (records = [] -> _isolatedHardwares m = []) ->
  exists m',
    reconcile env now records m = Ok tt m' /\
    _isolatedHardwares m' = _isolatedHardwares m.
Proof.
  intros Hwf Hset Hdone Hempty.
  assert (Hdiff : exists m',
    (for_each (reconcileEntry env now records) (map_keys (_isolatedHardwares m)) ;;
     for_each (createEntryIfNotExists env now)
       (filter (fun record => isValidRecord (recordId record)) records) ;;
     cleanupPersistedEcoCores env)%monad m = Ok tt m' /\
    _isolatedHardwares m' = _isolatedHardwares m).
  { destruct (for_each_entries_noop (reconcileEntry env now records)
                (map_keys (_isolatedHardwares m)) (_isolatedHardwares m))
      with (m := m) as (m2 & Hloop & Hm2); [|reflexivity|].
    { intros k Hk m0 Hm0. apply map_at_key in Hk as [e He].
      rewrite <- Hm0. apply (reconcileEntry_settled_noop env now records k e).
      - now apply (well_formed_same_entries m).
      - now rewrite Hm0.
      - exact (Hset k e He). }
    destruct (for_each_entries_noop (createEntryIfNotExists env now)
                (filter (fun record => isValidRecord (recordId record)) records)
                (_isolatedHardwares m))
      with (m := m2) as (m3 & Hcre & Hm3); [|exact Hm2|].
    { intros r Hr m0 Hm0. apply filter_In in Hr as [Hr Hv].
      rewrite <- Hm0. apply createEntryIfNotExists_done_noop.
      - now apply (well_formed_same_entries m).
      - rewrite Hm0. now apply Hdone. }
    destruct (cleanupPersistedEcoCores_run env m3) as (m' & Hc & He).
    exists m'. rewrite bind_run, Hloop. cbv beta iota.
    rewrite bind_run, Hcre. cbv beta iota. rewrite Hc.
    split; [reflexivity|congruence]. }
  unfold reconcile. rewrite bind_run. unfold get. cbv beta iota.
  destruct records as [|r0 rs]; [|exact Hdiff].
  rewrite (Hempty eq_refl) in *. exact Hdiff.
Qed.

(** ** Idempotence of the reconciliation *)

Lemma time_stamp_refreshed_on_change env now r k e e' m m' :
  map_at k (_isolatedHardwares m) = Some e ->
  updateEntryForRecord env now r k m = Ok tt m' ->
  map_at k (_isolatedHardwares m') = Some e' ->
  elapsed e' <> elapsed e ->
  severity e' <> severity e \/ associations e' <> associations e.
Proof.
  intros Hat Hrun Hat' Hne.
  pose proof (updateEntryForRecord_run env now r k e m Hat) as Hupd.
  destruct (record_view env r) as [ex|[[[inv bmc] sev]|]];
    destruct Hupd as (m0 & Hrun0 & Hentries); rewrite Hrun0 in Hrun;
    [discriminate| |]; injection Hrun as <-; rewrite Hentries in Hat'.
  - rewrite map_at_map_set, Z.eqb_refl, Hat in Hat'. injection Hat' as <-.
    destruct (stamped_fields now sev (associationDeftoHw inv bmc) e)
      as (Hs & Ha & _ & _ & _ & Hel).
    destruct (Hel Hne) as [H|H]; [left | right]; congruence.
  - congruence.
Qed.

(** C7: after a reconciliation pass that ran to its end on a well-formed
    entry map, the next file-change signal and a second pass over the same
    snapshot, at whatever later time, end normally and leave the entry map
    exactly as the first pass left it: the same keys and, for every entry,
    the same severity, associations, resolved flag and time stamp.  And an
    update step gives an entry a new time stamp only together with a new
    severity or new associations. *)
Theorem reconciliation_is_idempotent :
  forall env now1 now2 records m m1,
  well_formed m ->
  handleHostIsolatedHardwares env now1 records m = Ok tt m1 ->
  (exists m1' m2,
     processHardwareIsolationRecordFile true m1 = Ok tt m1' /\
     handleHostIsolatedHardwares env now2 records m1' = Ok tt m2 /\
     _isolatedHardwares m2 = _isolatedHardwares m1) /\
  (forall r k e e' m0 m0',
     map_at k (_isolatedHardwares m0) = Some e ->
     updateEntryForRecord env now1 r k m0 = Ok tt m0' ->
     map_at k (_isolatedHardwares m0') = Some e' ->
     elapsed e' <> elapsed e ->
     severity e' <> severity e \/ associations e' <> associations e).
Proof.
  intros env now1 now2 records m m1 Hwf Hrun.
  split; [|intros r k e e' m0 m0'; apply time_stamp_refreshed_on_change].
  rewrite handleHostIsolatedHardwares_run in Hrun.
  destruct (_timerObjs m) as [|t q]; [discriminate|].
  destruct (reconcile_settles env now1 records (with_timerObjs q m) m1
              (well_formed_timers q m Hwf) Hrun)
    as (Hwf1 & Hset1 & Hdone1 & Hempty1).
  rewrite processHardwareIsolationRecordFile_run.
  set (m1' := with_timerObjs (_timerObjs m1 ++ [mkTimer true 5]) m1).
  assert (Hq : exists t1 q1, _timerObjs m1' = t1 :: q1).
  { cbn. destruct (_timerObjs m1); cbn; eauto. }
  destruct Hq as (t1 & q1 & Hq).
  destruct (reconcile_noop env now2 records (with_timerObjs q1 m1'))
    as (m2 & Hrun2 & Hm2); auto.
  exists m1', m2. split; [reflexivity|].
  rewrite handleHostIsolatedHardwares_run, Hq. split; [exact Hrun2 | exact Hm2].
Qed.

Lemma reconciliation_is_idempotent_witness :
  exists m1 m1' m2,
    handleHostIsolatedHardwares Samples.envOn 200
      [mkGuardRecord 1 Samples.pathP 0 0xE6] Samples.managerPQ = Ok tt m1 /\
    processHardwareIsolationRecordFile true m1 = Ok tt m1' /\
    handleHostIsolatedHardwares Samples.envOn 300
      [mkGuardRecord 1 Samples.pathP 0 0xE6] m1' = Ok tt m2 /\
    _isolatedHardwares m1 =
      [(1, mkEntry 1 Warning false (associationDeftoHw Samples.core0 "")
             Samples.pathP 200)] /\
    _isolatedHardwares m2 = _isolatedHardwares m1.
Proof.
  assert (Hwf : well_formed Samples.managerPQ).
  { split; cbn; repeat constructor; lia. }
  destruct (handleHostIsolatedHardwares Samples.envOn 200
              [mkGuardRecord 1 Samples.pathP 0 0xE6] Samples.managerPQ)
    as [[] m1| |] eqn:Hrun; vm_compute in Hrun; try discriminate.
  destruct (proj1 (reconciliation_is_idempotent Samples.envOn 200 300
                     [mkGuardRecord 1 Samples.pathP 0 0xE6] Samples.managerPQ m1
                     Hwf ltac:(vm_compute; exact Hrun)))
    as (m1' & m2 & Harm & Hrun2 & Hsame).
  exists m1, m1', m2. split; [reflexivity|]. split; [exact Harm|].
  split; [exact Hrun2|]. split; [|exact Hsame].
  injection Hrun as <-. reflexivity.
Defined.

(** ** Well-formedness is an invariant, and the handler is defined on it *)

Lemma well_formed_manager0 : well_formed manager0.
Proof. split; constructor. Qed.

Lemma well_formed_operations env now m :
  well_formed m ->
  (forall records files m',
     final (restore env now records files m) = Some m' -> well_formed m') /\
  (forall records m',
     final (handleHostIsolatedHardwares env now records m) = Some m' ->
     well_formed m') /\
  (forall hw path sev elog m',
     final (create env now hw sev m) = Some m' \/
     final (createWithErrorLog env now hw sev elog m) = Some m' \/
     final (createWithEntityPath env now path sev elog m) = Some m' ->
     well_formed m').
Proof.
  intro Hm. split; [|split].
  - intros records files m'. apply keeps_final; [|exact Hm].
    apply keeps_restore with (okKey := fun _ => True); solve_well_formed.
  - intros records m'. rewrite handleHostIsolatedHardwares_run.
    destruct (_timerObjs m) as [|t q]; [discriminate|].
    apply well_formed_reconcile. now apply well_formed_timers.
  - intros hw path sev elog m' [H|[H|H]]; revert H;
      (apply keeps_final; [|exact Hm]).
    + apply keeps_create with (okKey := fun _ => True); solve_well_formed.
    + apply keeps_createWithErrorLog with (okKey := fun _ => True);
        solve_well_formed.
    + apply keeps_createWithEntityPath with (okKey := fun _ => True);
        solve_well_formed.
Qed.

Lemma reconcileEntry_defined env now records k e m :
  well_formed m ->
  map_at k (_isolatedHardwares m) = Some e ->
  reconcileEntry env now records k m <> Undefined.
Proof.
  intros Hwf Hat.
  pose proof (well_formed_entry_id k e m Hwf Hat) as Hid.
  rewrite (reconcileEntry_cases env now records k e m Hat).
  destruct (valid_matches records e) as [|r [|r2 rs]].
  - rewrite (resolveEntry_run env k false e m Hat Hid).
    destruct (resolved e); [discriminate|].
    destruct (resolveEntry_fails env k false); discriminate.
  - pose proof (updateEntryForRecord_run env now r k e m Hat) as Hupd.
    destruct (record_view env r) as [ex|[[[inv bmc] sev]|]];
      destruct Hupd as (m' & -> & _); discriminate.
  - discriminate.
Qed.

Lemma reconcile_loop_defined env now records ks :
  forall m,
  well_formed m -> NoDup ks ->
  (forall k, In k ks -> map_at k (_isolatedHardwares m) <> None) ->
  for_each (reconcileEntry env now records) ks m <> Undefined.
Proof.
  induction ks as [|k ks IH]; intros m Hwf Hnd Hpres; [discriminate|].
  apply NoDup_cons_iff in Hnd as [Hnotin Hnd].
  destruct (map_at k (_isolatedHardwares m)) as [e|] eqn:Hat;
    [|exfalso; apply (Hpres k); [now left | exact Hat]].
  cbn [for_each]. rewrite bind_run.
  pose proof (reconcileEntry_defined env now records k e m Hwf Hat) as Hdef.
  destruct (reconcileEntry env now records k m) as [[] m1| |] eqn:Hstep;
    [|discriminate|contradiction].
  destruct (reconcileEntry_step env now records k m m1 Hwf Hstep) as [Hother _].
  apply IH; [|exact Hnd|].
  - apply (keeps_final well_formed (reconcileEntry env now records k) m m1);
      [|exact Hwf|now rewrite Hstep].
    apply keeps_reconcileEntry; solve_well_formed.
  - intros k' Hin. rewrite Hother; [apply Hpres; now right|].
    intros ->. contradiction.
Qed.

Lemma creation_loop_defined env now rs :
  forall m, exists m', for_each (createEntryIfNotExists env now) rs m = Ok tt m'.
Proof.
  induction rs as [|r rs IH]; intro m; [now exists m|].
  cbn [for_each]. rewrite bind_run.
  assert (Hstep : exists m1, createEntryIfNotExists env now r m = Ok tt m1).
  { unfold createEntryIfNotExists. rewrite bind_run. unfold get. cbv beta iota.
    destruct (existsb _ _); [now exists m|].
    destruct (createEntryForRecord_run env now r m) as (m1 & Hrun & _). eauto. }
  destruct Hstep as (m1 & ->). apply IH.
Qed.

(** On a well-formed entry map with a timer to fire, the handler returns or
    throws: no iterator of its loops is used after its element was erased. *)
Lemma handleHostIsolatedHardwares_defined env now records m :
  well_formed m -> _timerObjs m <> [] ->
  handleHostIsolatedHardwares env now records m <> Undefined.
Proof.
  intros Hwf Hq. rewrite handleHostIsolatedHardwares_run.
  destruct (_timerObjs m) as [|t q]; [contradiction|].
  pose proof (well_formed_timers q m Hwf) as Hwf'.
  set (m0 := with_timerObjs q m) in *.
  assert (Hkeys : NoDup (map_keys (_isolatedHardwares m0)))
    by (apply sorted_keys_NoDup, Hwf').
  assert (Hpres : forall k, In k (map_keys (_isolatedHardwares m0)) ->
                    map_at k (_isolatedHardwares m0) <> None).
  { intros k Hin. apply map_at_key in Hin as [e He]. congruence. }
  assert (Hdiff :
    (for_each (reconcileEntry env now records) (map_keys (_isolatedHardwares m0)) ;;
     for_each (createEntryIfNotExists env now)
       (filter (fun record => isValidRecord (recordId record)) records) ;;
     cleanupPersistedEcoCores env)%monad m0 <> Undefined).
  { rewrite bind_run.
    pose proof (reconcile_loop_defined env now records _ m0 Hwf' Hkeys Hpres) as Hloop.
    destruct (for_each (reconcileEntry env now records) _ m0) as [[] m1| |];
      [|discriminate|contradiction].
    rewrite bind_run.
    destruct (creation_loop_defined env now
                (filter (fun record => isValidRecord (recordId record)) records) m1)
      as (m2 & ->).
    destruct (cleanupPersistedEcoCores_run env m2) as (m3 & -> & _). discriminate. }
  unfold reconcile. rewrite bind_run. unfold get. cbv beta iota.
  destruct records as [|r0 rs]; [|exact Hdiff].
  destruct (_isolatedHardwares m0) as [|kv h] eqn:Hh; [exact Hdiff|].
  rewrite <- Hh in Hkeys, Hpres. unfold resolveAllEntries.
  rewrite bind_run, bind_run. unfold get. cbv beta iota.
  destruct (resolveAllEntries_loop env (map_keys (_isolatedHardwares m0)) m0
              Hwf' Hkeys Hpres) as (m1 & evs & -> & _).
  discriminate.
Qed.

(** * Further properties *)

(** ** Relations between the states before and after an operation

    [R] relates a state to every state reached from it by the primitive
    changes the manager makes: an acceptable event, a change of the entry map
    or of the timer queue, and a change of the eco cores that is followed at
    once by [Manager::serialize]. *)

Section Related.

Variable env : Env.
Variable R : Manager -> Manager -> Prop.
Variable okEvent : Event -> bool.

Hypothesis R_refl : forall m, R m m.
Hypothesis R_trans : forall m1 m2 m3, R m1 m2 -> R m2 m3 -> R m1 m3.
Hypothesis R_emit : forall e m,
  okEvent e = true -> R m (with_trace (trace m ++ [e]) m).
Hypothesis R_entries : forall h m, R m (with_isolatedHardwares h m).
Hypothesis R_timers : forall q m, R m (with_timerObjs q m).
Hypothesis R_serialize : forall s m,
  R m (with_trace (trace m ++ serialize_events env s) (with_persistedEcoCores s m)).

Hypothesis ok_log : forall msg, okEvent (EvLog msg) = true.
Hypothesis ok_setEnabled : forall hw b, okEvent (EvSetEnabledProperty hw b) = true.
Hypothesis ok_resolved : forall id, okEvent (EvEntryResolved id) = true.
Hypothesis ok_entrySerialize : forall id, okEvent (EvEntrySerialize id) = true.
Hypothesis ok_fileRemove : forall f, okEvent (EvEntryFileRemove f) = true.
Hypothesis ok_physicalPath : forall hw, okEvent (EvGetPhysicalPath hw) = true.
Hypothesis ok_query : forall p, okEvent (EvGetInventoryPath p false) = true.
Hypothesis ok_hinted_query : forall p, okEvent (EvGetInventoryPath p true) = true.
Hypothesis ok_guard : forall ev, is_guard_store_event ev = true -> okEvent ev = true.

Lemma relates_bind {A B} (c : M A) (k : A -> M B) :
  relates R c -> (forall a, relates R (k a)) -> relates R (bind c k).
Proof.
  intros Hc Hk m. unfold bind. specialize (Hc m).
  destruct (c m) as [a m1|e m1|]; cbn in *; auto.
  specialize (Hk a m1). destruct (k a m1); cbn in *; eauto.
Qed.

Lemma relates_ret {A} (a : A) : relates R (ret a).
Proof. intro m. apply R_refl. Qed.

Lemma relates_throw {A} (e : Exception) : relates R (@throw A e).
Proof. intro m. apply R_refl. Qed.

Lemma relates_undefined {A} : relates R (@undefined A).
Proof. intro m. exact Logic.I. Qed.

Lemma relates_lift {A} (r : Exception + A) : relates R (lift r).
Proof. destruct r; [apply relates_throw | apply relates_ret]. Qed.

Lemma relates_get_bind {A} (k : Manager -> M A) :
  (forall a, relates R (k a)) -> relates R (bind get k).
Proof. intros Hk. apply relates_bind; [intro m; apply R_refl | exact Hk]. Qed.

Lemma relates_emit (e : Event) : okEvent e = true -> relates R (emit e).
Proof. intros He m. cbn. now apply R_emit. Qed.

Lemma relates_log (msg : LogMsg) : relates R (log msg).
Proof. apply relates_emit, ok_log. Qed.

Lemma relates_try_catch {A} (body : M A) (p : Exception -> bool)
  (h : Exception -> M A) :
  relates R body -> (forall e, relates R (h e)) -> relates R (try_catch body p h).
Proof.
  intros Hb Hh m. unfold try_catch. specialize (Hb m).
  destruct (body m) as [a m1|e m1|]; cbn in *; auto.
  destruct (p e); cbn; auto.
  specialize (Hh e m1). destruct (h e m1); cbn in *; eauto.
Qed.

Lemma relates_for_each {A} (f : A -> M unit) (l : list A) :
  (forall x, relates R (f x)) -> relates R (for_each f l).
Proof.
  intro Hf. induction l as [|x l IH]; cbn [for_each].
  - apply relates_ret.
  - apply relates_bind; [apply Hf | intros _; exact IH].
Qed.

Lemma relates_set_entry k e : relates R (set_entry k e).
Proof. intro m. cbn. apply R_entries. Qed.

Lemma relates_serialize : relates R (serialize env).
Proof.
  intro m. rewrite serialize_run. cbn [final].
  pose proof (R_serialize (_persistedEcoCores m) m) as H. now destruct m.
Qed.

Lemma relates_updateEcoCoresList b p : relates R (updateEcoCoresList env b p).
Proof.
  intro m. rewrite updateEcoCoresList_run. cbn [final]. apply R_serialize.
Qed.

Lemma relates_query p : relates R (catalog_getInventoryPath env p false).
Proof.
  unfold catalog_getInventoryPath.
  apply relates_bind; [apply relates_emit, ok_query | intros; apply relates_ret].
Qed.

Lemma relates_any_query p b : relates R (catalog_getInventoryPath env p b).
Proof.
  unfold catalog_getInventoryPath.
  apply relates_bind; [|intros; apply relates_ret].
  apply relates_emit. destruct b; [apply ok_hinted_query | apply ok_query].
Qed.

(** [createEntry] with [deleteRecord = false], as restore and the
    reconciliation call it. *)
Lemma relates_createEntry_keep now id res sev hw elog path :
  relates R (createEntry env now id res sev hw elog false path).
Proof.
  unfold createEntry. apply relates_try_catch.
  - apply relates_bind;
      [destruct (Entry_constructs env id); [apply relates_ret | apply relates_throw]|].
    intros _. apply relates_bind; [intro m; cbn; apply R_entries|].
    intros _. apply relates_bind;
      [apply relates_emit, ok_setEnabled | intros; apply relates_ret].
  - intros _. apply relates_bind; [apply relates_log|]. intros _.
    apply relates_bind; [apply relates_ret | intros; apply relates_ret].
Qed.

Lemma relates_createEntry now id res sev hw elog del path :
  relates R (createEntry env now id res sev hw elog del path).
Proof.
  destruct del; [|apply relates_createEntry_keep].
  unfold createEntry. apply relates_try_catch.
  - apply relates_bind;
      [destruct (Entry_constructs env id); [apply relates_ret | apply relates_throw]|].
    intros _. apply relates_bind; [intro m; cbn; apply R_entries|].
    intros _. apply relates_bind;
      [apply relates_emit, ok_setEnabled | intros; apply relates_ret].
  - intros _. apply relates_bind; [apply relates_log|]. intros _.
    apply relates_bind; [apply relates_emit, ok_guard; reflexivity|].
    intros; apply relates_ret.
Qed.

Lemma relates_eraseEntry id : relates R (eraseEntry env id).
Proof.
  unfold eraseEntry. apply relates_get_bind. intro m0.
  apply relates_bind.
  - destruct (map_at id _); [apply relates_updateEcoCoresList | apply relates_ret].
  - intros _ m. cbn. apply R_entries.
Qed.

Lemma relates_resolveEntry_keep k : relates R (resolveEntry env k false).
Proof.
  unfold resolveEntry. apply relates_bind.
  - unfold entry_at. apply relates_get_bind. intro m0.
    destruct (map_at k _); [apply relates_ret | apply relates_undefined].
  - intro e. destruct (resolved e); [apply relates_ret|].
    destruct (resolveEntry_fails env _ false); [apply relates_throw|].
    apply relates_bind; [apply relates_ret | intros _].
    apply relates_bind; [apply relates_set_entry | intros _].
    apply relates_bind; [apply relates_emit, ok_resolved | intros _].
    apply relates_eraseEntry.
Qed.

Lemma relates_resolveEntry k b : relates R (resolveEntry env k b).
Proof.
  destruct b; [|apply relates_resolveEntry_keep].
  unfold resolveEntry. apply relates_bind.
  - unfold entry_at. apply relates_get_bind. intro m0.
    destruct (map_at k _); [apply relates_ret | apply relates_undefined].
  - intro e. destruct (resolved e); [apply relates_ret|].
    destruct (resolveEntry_fails env _ true); [apply relates_throw|].
    apply relates_bind; [apply relates_emit, ok_guard; reflexivity | intros _].
    apply relates_bind; [apply relates_set_entry | intros _].
    apply relates_bind; [apply relates_emit, ok_resolved | intros _].
    apply relates_eraseEntry.
Qed.

Lemma relates_resolveAllEntries_keep : relates R (resolveAllEntries env false).
Proof.
  unfold resolveAllEntries. apply relates_get_bind. intro m0.
  apply relates_for_each. intro k.
  apply relates_try_catch; [apply relates_resolveEntry_keep | intros; apply relates_log].
Qed.

Lemma relates_resolveAllEntries b : relates R (resolveAllEntries env b).
Proof.
  unfold resolveAllEntries. apply relates_get_bind. intro m0.
  apply relates_for_each. intro k.
  apply relates_try_catch; [apply relates_resolveEntry | intros; apply relates_log].
Qed.

Lemma relates_createEntryForRecord_with now record restorePath :
  (forall p b, relates R (catalog_getInventoryPath env p (b && restorePath))) ->
  relates R (createEntryForRecord env now record restorePath).
Proof.
  intro Hq. unfold createEntryForRecord.
  apply relates_try_catch; [|intros; apply relates_log].
  apply relates_get_bind. intro m0.
  apply relates_bind; [apply Hq|].
  intros [[inv eco]|]; [|apply relates_log].
  apply relates_bind; [apply relates_updateEcoCoresList | intros _].
  apply relates_bind; [apply relates_lift | intros bmc].
  assert (Hrest : forall s,
    relates R (match getEntrySeverityType env (errType record) with
               | Some entrySeverity =>
                   entryPath <- createEntry env now (recordId record)
                                  (recordId record =? 0xFFFFFFFF) entrySeverity inv s
                                  false (targetId record) ;;
                   match entryPath with
                   | Some _ => ret tt
                   | None =>
                       log (LogSkipNoDbusEntry
                              (convertEntityPathIntoRawData (targetId record)))
                   end
               | None =>
                   log (LogSkipNoSeverity
                          (convertEntityPathIntoRawData (targetId record)))
               end)).
  { intro s. destruct (getEntrySeverityType env _); [|apply relates_log].
    apply relates_bind; [apply relates_createEntry_keep|].
    intros [p|]; [apply relates_ret | apply relates_log]. }
  destruct bmc as [s|]; [apply Hrest|].
  destruct restorePath; [apply Hrest | apply relates_log].
Qed.

Lemma relates_createEntryForRecord_runtime now record :
  relates R (createEntryForRecord env now record false).
Proof.
  apply relates_createEntryForRecord_with. intros p b.
  rewrite andb_false_r. apply relates_query.
Qed.

Lemma relates_createEntryForRecord_restore now record :
  relates R (createEntryForRecord env now record true).
Proof.
  apply relates_createEntryForRecord_with. intros p b. apply relates_any_query.
Qed.

Lemma relates_updateEntryForRecord now record k :
  relates R (updateEntryForRecord env now record k).
Proof.
  unfold updateEntryForRecord.
  apply relates_bind; [apply relates_query|].
  intros [[inv eco]|]; [|apply relates_log].
  apply relates_bind; [apply relates_updateEcoCoresList | intros _].
  apply relates_bind; [apply relates_lift | intros [bmc|]]; [|apply relates_log].
  destruct (getEntrySeverityType env _) as [sev|]; [|apply relates_log].
  apply relates_bind.
  - unfold entry_at. apply relates_get_bind. intro m0.
    destruct (map_at k _); [apply relates_ret | apply relates_undefined].
  - intro e. destruct (applySetters sev (associationDeftoHw inv bmc) e) as [e' updated].
    apply relates_bind; [apply relates_set_entry | intros _].
    apply relates_bind; [apply relates_emit, ok_setEnabled | intros _].
    apply relates_bind;
      [destruct updated; [apply relates_set_entry | apply relates_ret] | intros _].
    apply relates_emit, ok_entrySerialize.
Qed.

Lemma relates_cleanupEcoCoresLoop l u : relates R (cleanupEcoCoresLoop env l u).
Proof.
  revert u. induction l as [|p l IH]; intro u; cbn [cleanupEcoCoresLoop].
  - apply relates_ret.
  - apply relates_get_bind. intro m0. destruct (negb _); [|apply IH].
    apply relates_bind; [apply relates_updateEcoCoresList | intros; apply IH].
Qed.

Lemma relates_cleanupPersistedEcoCores : relates R (cleanupPersistedEcoCores env).
Proof.
  intro m. unfold cleanupPersistedEcoCores. rewrite bind_run. unfold get.
  cbv beta iota. destruct (_isolatedHardwares m) as [|kv h].
  - rewrite bind_run, bind_run. unfold modify, ret. cbv beta iota.
    rewrite serialize_run. cbn [final].
    cbn [trace _persistedEcoCores with_persistedEcoCores].
    pose proof (R_serialize [] m) as H. exact H.
  - pose proof (relates_cleanupEcoCoresLoop (_persistedEcoCores m) false m) as Hl.
    rewrite bind_run.
    destruct (cleanupEcoCoresLoop env (_persistedEcoCores m) false m)
      as [u m1|e m1|]; cbn in *; auto.
    destruct u; [|exact Hl].
    pose proof (relates_serialize m1) as Hs.
    destruct (serialize env m1); cbn in *; eauto.
Qed.

Lemma relates_cleanupPersistedFiles files : relates R (cleanupPersistedFiles env files).
Proof.
  unfold cleanupPersistedFiles. apply relates_bind.
  - apply relates_for_each. intro f.
    apply relates_bind; [apply relates_lift | intros n].
    apply relates_get_bind. intro m0.
    destruct (map_contains _ _); [apply relates_ret | apply relates_emit, ok_fileRemove].
  - intros _. apply relates_cleanupPersistedEcoCores.
Qed.

Lemma relates_restore now records files : relates R (restore env now records files).
Proof.
  unfold restore. apply relates_bind.
  - apply relates_for_each. intro r. apply relates_createEntryForRecord_restore.
  - intros _. apply relates_cleanupPersistedFiles.
Qed.

Lemma relates_reconcileEntry now records k : relates R (reconcileEntry env now records k).
Proof.
  unfold reconcileEntry. apply relates_bind.
  - unfold entry_at. apply relates_get_bind. intro m0.
    destruct (map_at k _); [apply relates_ret | apply relates_undefined].
  - intros e. destruct (filter _ records) as [|r rs]; [apply relates_resolveEntry_keep|].
    destruct (filter _ (r :: rs)) as [|r1 [|r2 rs']].
    + apply relates_resolveEntry_keep.
    + apply relates_updateEntryForRecord.
    + apply relates_log.
Qed.

Lemma relates_createEntryIfNotExists now r :
  relates R (createEntryIfNotExists env now r).
Proof.
  unfold createEntryIfNotExists. apply relates_get_bind. intro m0.
  destruct (existsb _ _); [apply relates_ret | apply relates_createEntryForRecord_runtime].
Qed.

Lemma relates_reconcile now records : relates R (reconcile env now records).
Proof.
  unfold reconcile. apply relates_get_bind. intro m0.
  assert (Hdiff : relates R
    (for_each (reconcileEntry env now records) (map_keys (_isolatedHardwares m0)) ;;
     for_each (createEntryIfNotExists env now)
       (filter (fun record => isValidRecord (recordId record)) records) ;;
     cleanupPersistedEcoCores env)).
  { apply relates_bind; [apply relates_for_each; intro; apply relates_reconcileEntry|].
    intros _. apply relates_bind; [|intros; apply relates_cleanupPersistedEcoCores].
    apply relates_for_each. intro r. apply relates_createEntryIfNotExists. }
  destruct records as [|r records]; [|exact Hdiff].
  destruct (_isolatedHardwares m0) as [|kv h]; [exact Hdiff|].
  apply relates_bind; [apply relates_resolveAllEntries_keep|].
  intros _ m. cbn. apply R_entries.
Qed.

Lemma relates_handleHostIsolatedHardwares now records :
  relates R (handleHostIsolatedHardwares env now records).
Proof.
  unfold handleHostIsolatedHardwares. apply relates_bind.
  - unfold popTimer. apply relates_get_bind. intro m0.
    destruct (_timerObjs m0); [apply relates_undefined|].
    intro m. cbn. apply R_timers.
  - intros _. apply relates_reconcile.
Qed.

Lemma relates_isHwIsolationAllowed sev : relates R (isHwIsolationAllowed env sev).
Proof.
  unfold isHwIsolationAllowed. destruct (negb _).
  - apply relates_bind; [apply relates_log | intros; apply relates_throw].
  - destruct sev; try apply relates_ret.
    apply relates_bind; [apply relates_lift | intros s].
    apply relates_bind; [apply relates_lift | intros p].
    destruct (PowerState_eq_dec p Off); [apply relates_ret|].
    apply relates_bind; [apply relates_log | intros; apply relates_throw].
Qed.

Lemma relates_getEID bmcErrorLog : relates R (getEID env bmcErrorLog).
Proof.
  unfold getEID. apply relates_try_catch.
  - repeat (apply relates_bind; [apply relates_lift | intros ?]). apply relates_ret.
  - intros _. apply relates_bind; [apply relates_log | intros; apply relates_ret].
Qed.

Lemma relates_updateEntry now id sev hw elog path :
  relates R (updateEntry env now id sev hw elog path).
Proof.
  unfold updateEntry. apply relates_get_bind. intro m0.
  destruct (find_entry _ _ _) as [[k e]|]; [|apply relates_ret].
  destruct (applySetters sev (associationDeftoHw hw elog) e) as [e' updated].
  apply relates_bind; [apply relates_set_entry | intros _].
  apply relates_bind;
    [destruct updated; [apply relates_set_entry | apply relates_ret] | intros _].
  apply relates_bind;
    [apply relates_emit, ok_entrySerialize | intros; apply relates_ret].
Qed.

Lemma relates_updateOrCreateEntry now rec sev hw elog :
  relates R (updateOrCreateEntry env now rec sev hw elog).
Proof.
  unfold updateOrCreateEntry.
  apply relates_bind; [apply relates_updateEntry | intros r].
  destruct (fst r); [apply relates_ret|].
  apply relates_bind; [apply relates_createEntry | intros [p|]];
    [apply relates_ret | apply relates_throw].
Qed.

Lemma relates_openpower_guard_create p eId t :
  relates R (openpower_guard_create env p eId t).
Proof.
  unfold openpower_guard_create.
  apply relates_bind; [apply relates_lift | intros r].
  apply relates_bind; [apply relates_emit, ok_guard; reflexivity|].
  intros; apply relates_ret.
Qed.

Ltac relates_invalid :=
  apply relates_bind; [apply relates_log | intros; apply relates_throw].

Lemma relates_create now hw sev : relates R (create env now hw sev).
Proof.
  unfold create.
  apply relates_bind; [apply relates_isHwIsolationAllowed | intros _].
  apply relates_bind; [apply relates_emit, ok_physicalPath | intros _].
  destruct (getPhysicalPath env hw); [|relates_invalid].
  destruct (getGuardType env sev); [|relates_invalid].
  apply relates_bind; [apply relates_openpower_guard_create | intros r].
  apply relates_updateOrCreateEntry.
Qed.

Lemma relates_createWithErrorLog now hw sev elog :
  relates R (createWithErrorLog env now hw sev elog).
Proof.
  unfold createWithErrorLog.
  apply relates_bind; [apply relates_isHwIsolationAllowed | intros _].
  apply relates_bind; [apply relates_emit, ok_physicalPath | intros _].
  destruct (getPhysicalPath env hw); [|relates_invalid].
  apply relates_bind; [apply relates_getEID | intros [eId|]]; [|relates_invalid].
  destruct (getGuardType env sev); [|relates_invalid].
  apply relates_bind; [apply relates_openpower_guard_create | intros r].
  apply relates_updateOrCreateEntry.
Qed.

Lemma relates_createWithEntityPath now path sev elog :
  relates R (createWithEntityPath env now path sev elog).
Proof.
  unfold createWithEntityPath.
  apply relates_bind; [apply relates_isHwIsolationAllowed | intros _].
  apply relates_bind; [apply relates_emit, ok_query | intros _].
  destruct (getInventoryPath env path false) as [[inv eco]|]; [|relates_invalid].
  apply relates_bind; [apply relates_updateEcoCoresList | intros _].
  apply relates_bind; [apply relates_getEID | intros [eId|]]; [|relates_invalid].
  destruct (getGuardType env sev); [|relates_invalid].
  apply relates_bind; [apply relates_openpower_guard_create | intros r].
  apply relates_updateOrCreateEntry.
Qed.

Lemma relates_deleteAll allowed clearRecord :
  relates R (deleteAll env allowed clearRecord).
Proof.
  unfold deleteAll.
  apply relates_bind; [apply relates_lift | intros; apply relates_resolveAllEntries].
Qed.

End Related.

(** ** Events a call may add to the trace *)

Lemma emitted_only_refl P m : emitted_only P m m.
Proof. exists []. now rewrite app_nil_r. Qed.

Lemma emitted_only_trans P m1 m2 m3 :
  emitted_only P m1 m2 -> emitted_only P m2 m3 -> emitted_only P m1 m3.
Proof.
  intros [e1 [H1 F1]] [e2 [H2 F2]]. exists (e1 ++ e2). split.
  - now rewrite H2, H1, app_assoc.
  - now rewrite forallb_app, F1, F2.
Qed.

Lemma emitted_only_emit P e m :
  P e = true -> emitted_only P m (with_trace (trace m ++ [e]) m).
Proof. intro H. exists [e]. cbn. now rewrite H. Qed.

Lemma emitted_only_entries P h m : emitted_only P m (with_isolatedHardwares h m).
Proof. exists []. cbn. now rewrite app_nil_r. Qed.

Lemma emitted_only_timers P q m : emitted_only P m (with_timerObjs q m).
Proof. exists []. cbn. now rewrite app_nil_r. Qed.

Lemma emitted_only_serialize env P s m :
  (forall ev, is_eco_file_event ev = true -> P ev = true) ->
  P (EvLog LogSerializeFailed) = true ->
  emitted_only P m
    (with_trace (trace m ++ serialize_events env s) (with_persistedEcoCores s m)).
Proof.
  intros Hf Hl. exists (serialize_events env s). split; [reflexivity|].
  unfold serialize_events. destruct s as [|p s].
  - cbn. now rewrite Hf.
  - destruct (archive_writes env (p :: s)); cbn.
    + now rewrite Hf.
    + now rewrite Hl, Hf.
Qed.

Ltac solve_emitted_only :=
  first
    [ exact (emitted_only_refl _)
    | exact (emitted_only_trans _)
    | exact (emitted_only_emit _)
    | exact (emitted_only_entries _)
    | exact (emitted_only_timers _)
    | intros; apply emitted_only_serialize;
        [ intros [] Hev; (discriminate Hev || reflexivity) | reflexivity ]
    | intros; reflexivity
    | intros [] Hev; (discriminate Hev || reflexivity) ].

(** ** The eco cores file *)

Lemma ecoFile_after_quiet t evs :
  existsb is_eco_file_event evs = false ->
  ecoFile_after (t ++ evs) = ecoFile_after t.
Proof.
  unfold ecoFile_after. rewrite fold_left_app. generalize (fold_left
    (fun file ev =>
       match ev with
       | EvEcoCoresFileWrite s => Some (Some s)
       | EvEcoCoresFileRemove => Some None
       | _ => file
       end) t None).
  induction evs as [|ev evs IH]; intros f H; [reflexivity|].
  cbn in H. apply orb_false_iff in H. destruct H as [Hev H].
  cbn [fold_left]. destruct ev; try discriminate Hev; now apply IH.
Qed.

Lemma ecoFile_after_serialize env t s :
  ecoFile_after (t ++ serialize_events env s) = Some (ecoFile_expected env s).
Proof.
  unfold ecoFile_after. rewrite fold_left_app.
  unfold serialize_events, ecoFile_expected. destruct s as [|p s]; [reflexivity|].
  now destruct (archive_writes env (p :: s)).
Qed.

Lemma eco_file_follows_refl env m : eco_file_follows env m m.
Proof. left. exists []. now rewrite app_nil_r. Qed.

Lemma eco_file_follows_trans env m1 m2 m3 :
  eco_file_follows env m1 m2 -> eco_file_follows env m2 m3 ->
  eco_file_follows env m1 m3.
Proof.
  intros H12 [[e2 [T2 [Q2 E2]]]|H23]; [|now right].
  destruct H12 as [[e1 [T1 [Q1 E1]]]|S2].
  - left. exists (e1 ++ e2). repeat split.
    + now rewrite T2, T1, app_assoc.
    + now rewrite existsb_app, Q1, Q2.
    + congruence.
  - right. unfold eco_file_synced in *.
    now rewrite T2, ecoFile_after_quiet, E2.
Qed.

Lemma eco_file_follows_emit env e m :
  negb (is_eco_file_event e) = true ->
  eco_file_follows env m (with_trace (trace m ++ [e]) m).
Proof.
  intro H. left. exists [e]. cbn. apply negb_true_iff in H. now rewrite H.
Qed.

Lemma eco_file_follows_entries env h m :
  eco_file_follows env m (with_isolatedHardwares h m).
Proof. left. exists []. cbn. now rewrite app_nil_r. Qed.

Lemma eco_file_follows_timers env q m :
  eco_file_follows env m (with_timerObjs q m).
Proof. left. exists []. cbn. now rewrite app_nil_r. Qed.

Lemma eco_file_follows_serialize env s m :
  eco_file_follows env m
    (with_trace (trace m ++ serialize_events env s) (with_persistedEcoCores s m)).
Proof. right. unfold eco_file_synced. cbn. apply ecoFile_after_serialize. Qed.

Ltac solve_eco_file :=
  first
    [ exact (eco_file_follows_refl _)
    | exact (eco_file_follows_trans _)
    | exact (eco_file_follows_emit _)
    | exact (eco_file_follows_entries _)
    | exact (eco_file_follows_timers _)
    | exact (eco_file_follows_serialize _)
    | intros; reflexivity
    | intros [] Hev; (discriminate Hev || reflexivity) ].

Lemma eco_file_follows_step env (m m' : Manager) :
  eco_file_follows env m m' -> eco_file_kept env m m'.
Proof.
  intros [[evs [T [Q E]]]|S]; split; auto.
  - unfold eco_file_synced. intro S. now rewrite T, ecoFile_after_quiet, E.
  - intro D. now elim D.
Qed.

(** X1. Neither the restore at start-up nor a reconciliation pass writes to
    the guard store: whether the call returns or throws, none of the events it
    adds creates or clears a guard record. *)
Theorem restore_and_reconciliation_leave_the_guard_store env now records files :
  relates (emitted_only (fun ev => negb (is_guard_store_event ev)))
    (restore env now records files) /\
  relates (emitted_only (fun ev => negb (is_guard_store_event ev)))
    (handleHostIsolatedHardwares env now records).
Proof.
  split.
  - apply relates_restore
      with (okEvent := fun ev => negb (is_guard_store_event ev));
      solve_emitted_only.
  - apply relates_handleHostIsolatedHardwares
      with (okEvent := fun ev => negb (is_guard_store_event ev));
      solve_emitted_only.
Qed.

(** X2. Every operation that can change the eco cores leaves their file in
    step with the set: if the call returns or throws, a file that matched the
    set before still matches it, and whenever the set has changed the last
    write or removal of the file matches the new set. *)
Theorem eco_cores_file_kept_in_step env now :
  (forall records files m,
     eco_file_kept_by env (restore env now records files) m) /\
  (forall records m,
     eco_file_kept_by env (handleHostIsolatedHardwares env now records) m) /\
  (forall hw sev m, eco_file_kept_by env (create env now hw sev) m) /\
  (forall hw sev elog m,
     eco_file_kept_by env (createWithErrorLog env now hw sev elog) m) /\
  (forall path sev elog m,
     eco_file_kept_by env (createWithEntityPath env now path sev elog) m) /\
  (forall allowed clearRecord m,
     eco_file_kept_by env (deleteAll env allowed clearRecord) m).
Proof.
  assert (Hstep : forall A (c : M A),
            relates (eco_file_follows env) c -> forall m, eco_file_kept_by env c m).
  { intros A c Hc m. unfold eco_file_kept_by. specialize (Hc m).
    destruct (final (c m)); [now apply eco_file_follows_step | exact Logic.I]. }
  repeat split; intros; apply Hstep.
  - apply relates_restore with (okEvent := fun ev => negb (is_eco_file_event ev));
      solve_eco_file.
  - apply relates_handleHostIsolatedHardwares
      with (okEvent := fun ev => negb (is_eco_file_event ev)); solve_eco_file.
  - apply relates_create with (okEvent := fun ev => negb (is_eco_file_event ev));
      solve_eco_file.
  - apply relates_createWithErrorLog
      with (okEvent := fun ev => negb (is_eco_file_event ev)); solve_eco_file.
  - apply relates_createWithEntityPath
      with (okEvent := fun ev => negb (is_eco_file_event ev)); solve_eco_file.
  - apply relates_deleteAll
      with (okEvent := fun ev => negb (is_eco_file_event ev)); solve_eco_file.
Qed.

(** ** The entry map stays a map *)

(** X3. Every operation of the manager keeps the entry map well formed: if
    the keys are in increasing order and every entry is stored under its own
    record id before the call, they are so after it, whether the call returns
    or throws. *)
Theorem entry_map_stays_well_formed env now m :
  well_formed m ->
  (forall records files m',
     final (restore env now records files m) = Some m' -> well_formed m') /\
  (forall records m',
     final (handleHostIsolatedHardwares env now records m) = Some m' ->
     well_formed m') /\
  (forall hw sev m',
     final (create env now hw sev m) = Some m' -> well_formed m') /\
  (forall hw sev elog m',
     final (createWithErrorLog env now hw sev elog m) = Some m' -> well_formed m') /\
  (forall path sev elog m',
     final (createWithEntityPath env now path sev elog m) = Some m' ->
     well_formed m') /\
  (forall allowed clearRecord m',
     final (deleteAll env allowed clearRecord m) = Some m' -> well_formed m') /\
  (forall id m', final (eraseEntry env id m) = Some m' -> well_formed m').
Proof.
  intro Hm.
  destruct (well_formed_operations env now m Hm) as (Hrestore & Hhandle & Hcreate).
  split; [exact Hrestore|]. split; [exact Hhandle|].
  split; [intros hw sev m' H; apply (Hcreate hw [] sev ""%string m'); now left|].
  split; [intros hw sev elog m' H; apply (Hcreate hw [] sev elog m'); right; now left|].
  split; [intros path sev elog m' H;
          apply (Hcreate ""%string path sev elog m'); right; now right|].
  split.
  - intros allowed clearRecord m'. apply keeps_final; [|exact Hm].
    unfold deleteAll. apply keeps_bind; [apply keeps_lift|]. intros _.
    apply keeps_resolveAllEntries; solve_well_formed.
  - intros id m'. apply keeps_final; [|exact Hm].
    apply keeps_eraseEntry; solve_well_formed.
Qed.

Lemma entry_map_stays_well_formed_witness :
  well_formed Samples.managerPQ /\
  (exists m',
     final (deleteAll Samples.envOn (inr tt) true Samples.managerPQ) = Some m' /\
     well_formed m') /\
  (exists m',
     final (create Samples.envOn 200 Samples.core0 Critical Samples.managerPQ)
       = Some m' /\
     well_formed m').
Proof.
  assert (Hwf : well_formed Samples.managerPQ).
  { split; cbn; repeat constructor; lia. }
  split; [exact Hwf|].
  pose proof (entry_map_stays_well_formed Samples.envOn 200 Samples.managerPQ Hwf)
    as (_ & _ & Hcreate & _ & _ & Hdelete & _).
  split.
  - eexists. split; [vm_compute; reflexivity|].
    apply (Hdelete (inr tt) true). vm_compute. reflexivity.
  - eexists. split; [vm_compute; reflexivity|].
    apply (Hcreate Samples.core0 Critical). vm_compute. reflexivity.
Defined.

(** X4. With a well-formed entry map and a timer in the queue, the handler of
    the record file returns or throws: its loops never read an entry through
    an iterator whose element was erased.  It takes exactly the front timer
    off the queue and leaves the entry map well formed. *)
Theorem handler_runs_on_a_well_formed_map env now records m :
  well_formed m -> _timerObjs m <> [] ->
  exists m',
    final (handleHostIsolatedHardwares env now records m) = Some m' /\
    well_formed m' /\
    _timerObjs m' = tl (_timerObjs m).
Proof.
  intros Hwf Hq.
  pose proof (handleHostIsolatedHardwares_defined env now records m Hwf Hq) as Hdef.
  assert (Hfinal : exists m',
            final (handleHostIsolatedHardwares env now records m) = Some m').
  { destruct (handleHostIsolatedHardwares env now records m) as [u m'|e m'|];
      [now exists m' | now exists m' | contradiction]. }
  destruct Hfinal as (m' & Hfinal). exists m'. split; [exact Hfinal|]. split.
  - exact (proj1 (proj2 (well_formed_operations env now m Hwf)) records m' Hfinal).
  - rewrite handleHostIsolatedHardwares_run in Hfinal.
    destruct (_timerObjs m) as [|t q] eqn:Ht; [contradiction|].
    pose proof (timers_kept_by_reconcile env now records q (with_timerObjs q m)
                  eq_refl) as Hkept.
    rewrite Hfinal in Hkept. exact Hkept.
Qed.

Lemma handler_runs_on_a_well_formed_map_witness :
  exists m',
    final (handleHostIsolatedHardwares Samples.envOn 200 [Samples.recordQ 2]
             Samples.managerPQ) = Some m' /\
    well_formed m' /\
    _timerObjs m' = [].
Proof.
  assert (Hwf : well_formed Samples.managerPQ).
  { split; cbn; repeat constructor; lia. }
  assert (Hq : _timerObjs Samples.managerPQ <> []) by discriminate.
  exact (handler_runs_on_a_well_formed_map Samples.envOn 200 [Samples.recordQ 2]
           Samples.managerPQ Hwf Hq).
Defined.

(** ** Erasing and creating one entry *)

Ltac fields :=
  cbn [_isolatedHardwares _persistedEcoCores _timerObjs trace with_trace
       with_isolatedHardwares with_persistedEcoCores with_timerObjs].

Ltac fields_in H :=
  cbn [_isolatedHardwares _persistedEcoCores _timerObjs trace with_trace
       with_isolatedHardwares with_persistedEcoCores with_timerObjs] in H.

Lemma map_erase_absent k h : map_at k h = None -> map_erase k h = h.
Proof.
  unfold map_erase. induction h as [|[k' v] h IH]; cbn; [reflexivity|].
  destruct (Z.eqb_spec k' k); [discriminate|]. intro H. cbn. now rewrite IH.
Qed.

Lemma set_contains_set_erase p s : set_contains p (set_erase p s) = false.
Proof.
  unfold set_contains, set_erase. induction s as [|q s IH]; cbn; [reflexivity|].
  destruct (path_eqb q p) eqn:Hq; cbn; [exact IH|].
  rewrite IH, orb_false_r.
  destruct (path_eqb p q) eqn:Hp; [|reflexivity].
  apply path_eqb_eq in Hp. subst q. now rewrite path_eqb_refl in Hq.
Qed.

(** X5. [eraseEntry] always returns.  Afterwards the record id is no key of
    the entry map, every other key has the entry it had, and the entity path
    of the erased entry is no longer among the eco cores.  For an id that is
    no key the manager is left exactly as it was: not even the eco cores file
    is touched. *)
Theorem eraseEntry_forgets_entry_and_eco_core env id m :
  exists m',
    eraseEntry env id m = Ok tt m' /\
    map_at id (_isolatedHardwares m') = None /\
    (forall k, k <> id ->
       map_at k (_isolatedHardwares m') = map_at k (_isolatedHardwares m)) /\
    (forall e, map_at id (_isolatedHardwares m) = Some e ->
       set_contains (convertEntityPathIntoRawData (getEntityPath e))
         (_persistedEcoCores m') = false) /\
    (map_at id (_isolatedHardwares m) = None -> m' = m).
Proof.
  unfold eraseEntry. run_steps.
  destruct (map_at id (_isolatedHardwares m)) as [e|] eqn:Hat; run_steps.
  - eexists. split; [reflexivity|]. fields.
    split; [now rewrite map_at_map_erase, Z.eqb_refl|]. split.
    + intros k Hk. rewrite map_at_map_erase.
      now destruct (Z.eqb_spec k id).
    + split; [|discriminate]. intros e' [= <-]. unfold ecoCores_after.
      apply set_contains_set_erase.
  - eexists. split; [reflexivity|]. fields.
    split; [now rewrite map_at_map_erase, Z.eqb_refl|]. split.
    + intros k Hk. rewrite map_at_map_erase. now destruct (Z.eqb_spec k id).
    + split; [discriminate|]. intros _.
      rewrite (map_erase_absent id _ Hat). now destruct m.
Qed.

Lemma map_at_map_insert_sorted k e h :
  StronglySorted Z.lt (map_keys h) ->
  map_at k (map_insert k e h) =
  Some (match map_at k h with Some e0 => e0 | None => e end).
Proof.
  intro Hs. destruct (map_at k h) as [e0|] eqn:Hat.
  - now rewrite (map_insert_present k e e0 h Hs Hat).
  - now apply map_at_map_insert_absent.
Qed.

(** ** The create calls *)

Lemma find_entry_absent id path h :
  Forall (fun kv => getEntryRecId (snd kv) = fst kv) h ->
  map_at id h = None -> find_entry id path h = None.
Proof.
  unfold find_entry.
  induction h as [|[k v] h IH]; intros Hid Hat; [reflexivity|].
  inversion Hid as [|? ? Hv Hid']; subst. cbn [fst snd] in Hv.
  cbn [map_at] in Hat. cbn [find snd]. rewrite Hv.
  destruct (Z.eqb_spec k id); [discriminate|].
  rewrite andb_false_r. now apply IH.
Qed.

Lemma find_entry_sorted id path h :
  StronglySorted Z.lt (map_keys h) ->
  Forall (fun kv => getEntryRecId (snd kv) = fst kv) h ->
  find_entry id path h =
  match map_at id h with
  | Some e => if path_eqb (getEntityPath e) path then Some (id, e) else None
  | None => None
  end.
Proof.
  induction h as [|[k v] h IH]; intros Hs Hid; [reflexivity|].
  inversion Hid as [|? ? Hv Hid']; subst. cbn [fst snd] in Hv.
  unfold find_entry. cbn [find snd map_at]. rewrite Hv.
  destruct (Z.eqb_spec k id) as [->|Hne].
  - rewrite andb_true_r. destruct (path_eqb (getEntityPath v) path); [reflexivity|].
    apply (find_entry_absent id path h Hid').
    apply (sorted_tail_greater id h Hs). lia.
  - rewrite andb_false_r. apply IH; [|exact Hid'].
    cbn in Hs. now inversion Hs.
Qed.

Lemma updateEntry_run env now id sev hw elog path m :
  updateEntry env now id sev hw elog path m =
  match find_entry id path (_isolatedHardwares m) with
  | None => Ok (false, ""%string) m
  | Some (k, e) =>
      Ok (true, entryObjPath env k)
        (with_trace (trace m ++ [EvEntrySerialize k])
           (with_isolatedHardwares
              (map_set k (stamped now (applySetters sev (associationDeftoHw hw elog) e))
                 (_isolatedHardwares m)) m))
  end.
Proof.
  unfold updateEntry, stamped. run_steps.
  destruct (find_entry id path (_isolatedHardwares m)) as [[k e]|]; [|reflexivity].
  destruct (applySetters sev (associationDeftoHw hw elog) e) as [e' updated].
  run_steps. destruct updated; run_steps; cbn [fst snd]; [|reflexivity].
  now rewrite map_set_map_set.
Qed.

Lemma updateOrCreateEntry_succeeds env now rec sev hw elog m :
  well_formed m ->
  Entry_constructs env (recordId rec) = true ->
  (forall e, map_at (recordId rec) (_isolatedHardwares m) = Some e ->
     getEntityPath e = targetId rec) ->
  exists m',
    updateOrCreateEntry env now rec sev hw elog m
      = Ok (entryObjPath env (recordId rec)) m' /\
    holds_entry_for now rec sev hw elog m m' /\
    _persistedEcoCores m' = _persistedEcoCores m /\
    emitted_only (fun ev => negb (is_guard_store_event ev)) m m'.
Proof.
  intros [Hs Hid] Hctor Hpath. unfold updateOrCreateEntry.
  rewrite bind_run, updateEntry_run, (find_entry_sorted _ _ _ Hs Hid).
  destruct (map_at (recordId rec) (_isolatedHardwares m)) as [e|] eqn:Hat.
  - rewrite (Hpath e eq_refl), path_eqb_refl. cbn [fst snd]. unfold ret.
    eexists. split; [reflexivity|]. fields.
    pose proof (well_formed_entry_id _ _ m (conj Hs Hid) Hat) as Hrec.
    destruct (stamped_fields now sev (associationDeftoHw hw elog) e)
      as (Hsev & Hassoc & Hp & Hr & _ & _).
    split; [|split; [reflexivity|]].
    + exists (stamped now (applySetters sev (associationDeftoHw hw elog) e)). fields.
      split; [now rewrite map_at_map_set, Z.eqb_refl, Hat|].
      split; [congruence|]. split; [rewrite Hp; now apply Hpath|].
      split; [exact Hsev|]. split; [exact Hassoc|]. split.
      * intros k Hk. rewrite map_at_map_set. now destruct (Z.eqb_spec k (recordId rec)).
      * split; [|intro Hn; rewrite Hat in Hn; discriminate Hn].
        intros e0 He0 Hs0 Ha0. rewrite Hat in He0. injection He0 as <-.
        rewrite (applySetters_fixpoint _ _ _ Hs0 Ha0). unfold stamped. cbn [fst snd].
        now apply map_set_same.
    + exists [EvEntrySerialize (recordId rec)]. split; reflexivity.
  - cbn [fst snd]. rewrite bind_run. unfold createEntry, try_catch.
    rewrite Hctor. run_steps. eexists. split; [reflexivity|]. fields.
    split; [|split; [reflexivity|]].
    + eexists. fields. split; [now apply map_at_map_insert_absent|].
      cbn [getEntryRecId getEntityPath severity associations resolved elapsed].
      repeat (split; [reflexivity|]). split.
      * intros k Hk. now apply map_at_map_insert_other.
      * split; [intros e He; rewrite Hat in He; discriminate He|].
        intros _. split; reflexivity.
    + exists [EvSetEnabledProperty hw false]. split; reflexivity.
Qed.

Lemma emitted_only_then P m m1 m2 evs :
  emitted_only P m m1 -> trace m2 = trace m1 ++ evs -> forallb P evs = true ->
  emitted_only P m m2.
Proof.
  intros [e1 [H1 F1]] H2 F2. exists (e1 ++ evs). split.
  - now rewrite H2, H1, app_assoc.
  - now rewrite forallb_app, F1, F2.
Qed.

(** X7. A create call that passes its checks and gets a record from the guard
    store returns the object path of that record's id, with the entry for it
    in the map: the severity and the associations are the ones asked for, no
    other key has changed, a repeated call that changes nothing leaves the
    map and the time stamps as they were, and the guard store is written to
    exactly once, to create that record.  This holds when the entry object
    can be constructed and the record id is not in use for another
    hardware. *)
Theorem create_stores_the_entry_of_the_record env now sev m rec :
  well_formed m ->
  gate_open env sev ->
  Entry_constructs env (recordId rec) = true ->
  (forall e, map_at (recordId rec) (_isolatedHardwares m) = Some e ->
     getEntityPath e = targetId rec) ->
  (forall hw phys gt,
     getPhysicalPath env hw = Some phys ->
     getGuardType env sev = Some gt ->
     guard_create env (EntityPath_of_raw phys) 0 gt = inr rec ->
     exists m',
       create env now hw sev m = Ok (entryObjPath env (recordId rec)) m' /\
       holds_entry_for now rec sev hw "" m m' /\
       created_one_record rec m m') /\
  (forall hw elog phys eid gt,
     getPhysicalPath env hw = Some phys ->
     getEID_answers env elog eid ->
     getGuardType env sev = Some gt ->
     guard_create env (EntityPath_of_raw phys) eid gt = inr rec ->
     exists m',
       createWithErrorLog env now hw sev elog m
         = Ok (entryObjPath env (recordId rec)) m' /\
       holds_entry_for now rec sev hw elog m m' /\
       created_one_record rec m m') /\
  (forall path elog inv eco eid gt,
     getInventoryPath env path false = Some (inv, eco) ->
     getEID_answers env elog eid ->
     getGuardType env sev = Some gt ->
     guard_create env (EntityPath_of_raw path) eid gt = inr rec ->
     exists m',
       createWithEntityPath env now path sev elog m
         = Ok (entryObjPath env (recordId rec)) m' /\
       holds_entry_for now rec sev inv elog m m' /\
       created_one_record rec m m').
Proof.
  intros Hwf Hgate Hctor Hpath.
  assert (Hend : forall hw elog m1 pre,
            _isolatedHardwares m1 = _isolatedHardwares m ->
            trace m1 = trace m ++ pre ++ [EvGuardCreate rec] ->
            forallb (fun ev => negb (is_guard_store_event ev)) pre = true ->
            exists m',
              updateOrCreateEntry env now rec sev hw elog m1
                = Ok (entryObjPath env (recordId rec)) m' /\
              holds_entry_for now rec sev hw elog m m' /\
              created_one_record rec m m').
  { intros hw elog m1 pre He Ht Hpre.
    assert (Hwf1 : well_formed m1) by (unfold well_formed; now rewrite He).
    destruct (updateOrCreateEntry_succeeds env now rec sev hw elog m1 Hwf1 Hctor)
      as (m' & Hrun & Hholds & _ & evs & Htr & Hevs).
    { now rewrite He. }
    exists m'. split; [exact Hrun|]. split.
    - unfold holds_entry_for in *. now rewrite He in Hholds.
    - exists pre, evs. split; [|now split].
      rewrite Htr, Ht, <- !app_assoc. reflexivity. }
  split; [|split].
  - intros hw phys gt Hphys Hgt Hcreate.
    unfold create. rewrite bind_run, (isHwIsolationAllowed_open _ _ _ Hgate).
    rewrite bind_run, emit_run, Hphys, Hgt. cbv beta iota. rewrite bind_run.
    rewrite (openpower_guard_create_run _ _ _ _ _ _ Hcreate).
    apply (Hend hw ""%string _ [EvGetPhysicalPath hw]); fields;
      [reflexivity | now rewrite <- app_assoc | reflexivity].
  - intros hw elog phys eid gt Hphys Heid Hgt Hcreate.
    unfold createWithErrorLog. rewrite bind_run, (isHwIsolationAllowed_open _ _ _ Hgate).
    rewrite bind_run, emit_run, Hphys. cbv beta iota.
    rewrite bind_run, (getEID_run_answer _ _ _ _ Heid), Hgt. rewrite bind_run.
    rewrite (openpower_guard_create_run _ _ _ _ _ _ Hcreate).
    apply (Hend hw elog _ [EvGetPhysicalPath hw]); fields;
      [reflexivity | now rewrite <- app_assoc | reflexivity].
  - intros path elog inv eco eid gt Hinv Heid Hgt Hcreate.
    unfold createWithEntityPath.
    rewrite bind_run, (isHwIsolationAllowed_open _ _ _ Hgate).
    rewrite bind_run, emit_run, Hinv. cbv beta iota.
    rewrite bind_run, updateEcoCoresList_run.
    rewrite bind_run, (getEID_run_answer _ _ _ _ Heid), Hgt. rewrite bind_run.
    rewrite (openpower_guard_create_run _ _ _ _ _ _ Hcreate).
    apply (Hend inv elog _
             (EvGetInventoryPath path false
                :: serialize_events env
                     (ecoCores_after eco path (_persistedEcoCores m)))); fields.
    + reflexivity.
    + now rewrite <- !app_assoc.
    + cbn [forallb is_guard_store_event negb andb]. unfold serialize_events.
      destruct (ecoCores_after eco path (_persistedEcoCores m)) as [|q s];
        [reflexivity|].
      now destruct (archive_writes env (q :: s)).
Qed.

Lemma create_stores_the_entry_of_the_record_witness :
  (exists m',
     create Samples.envOn 200 Samples.core0 Critical manager0
       = Ok (entryObjPath Samples.envOn 1) m' /\
     holds_entry_for 200 (mkGuardRecord 1 Samples.pathP 0 0xE3) Critical
       Samples.core0 "" manager0 m' /\
     created_one_record (mkGuardRecord 1 Samples.pathP 0 0xE3) manager0 m') /\
  (exists m',
     createWithErrorLog Samples.envOn 200 Samples.core0 Warning Samples.elog7
       Samples.managerPQ = Ok (entryObjPath Samples.envOn 1) m' /\
     holds_entry_for 200 (mkGuardRecord 1 Samples.pathP 0x50000007 0xE6) Warning
       Samples.core0 Samples.elog7 Samples.managerPQ m' /\
     created_one_record (mkGuardRecord 1 Samples.pathP 0x50000007 0xE6)
       Samples.managerPQ m').
Proof.
  assert (Hwf0 : well_formed manager0) by (split; constructor).
  assert (HwfPQ : well_formed Samples.managerPQ).
  { split; cbn; repeat constructor; lia. }
  assert (Hgate : forall sev, sev <> Manual -> gate_open Samples.envOn sev).
  { intros sev Hsev. split; [reflexivity | intro H; contradiction]. }
  assert (Hctor : forall rec, Entry_constructs Samples.envOn (recordId rec) = true)
    by reflexivity.
  assert (Hpath0 : forall rec e,
            map_at (recordId rec) (_isolatedHardwares manager0) = Some e ->
            getEntityPath e = targetId rec) by discriminate.
  assert (HpathPQ : forall e,
            map_at 1 (_isolatedHardwares Samples.managerPQ) = Some e ->
            getEntityPath e = Samples.pathP).
  { intros e [= <-]. reflexivity. }
  assert (Heid : getEID_answers Samples.envOn Samples.elog7 0x50000007).
  { exists "xyz.openbmc_project.Logging"%string, 7.
    repeat split; vm_compute; reflexivity. }
  assert (Hphys : getPhysicalPath Samples.envOn Samples.core0 = Some Samples.pathP)
    by (vm_compute; reflexivity).
  split.
  - apply (proj1 (create_stores_the_entry_of_the_record Samples.envOn 200 Critical
                    manager0 (mkGuardRecord 1 Samples.pathP 0 0xE3) Hwf0
                    (Hgate Critical ltac:(discriminate)) (Hctor _) (Hpath0 _))
             Samples.core0 Samples.pathP 0xE3 Hphys); reflexivity.
  - apply (proj1 (proj2 (create_stores_the_entry_of_the_record Samples.envOn 200
                    Warning Samples.managerPQ
                    (mkGuardRecord 1 Samples.pathP 0x50000007 0xE6) HwfPQ
                    (Hgate Warning ltac:(discriminate)) (Hctor _) HpathPQ))
             Samples.core0 Samples.elog7 Samples.pathP 0x50000007 0xE6 Hphys Heid);
      reflexivity.
Defined.

(** ** Looking an entry up by its hardware *)

Lemma isolated_hw_is_associationDeftoHw hw elog :
  isolated_hw_is hw (associationDeftoHw hw elog) = true.
Proof.
  unfold associationDeftoHw. cbn [isolated_hw_is].
  destruct (string_dec "isolated_hw" "isolated_hw"); [|contradiction].
  now destruct (string_dec hw hw).
Qed.

Lemma errLogPath_of_associationDeftoHw hw elog :
  errLogPath_of (associationDeftoHw hw elog) = elog.
Proof.
  unfold associationDeftoHw. cbn [errLogPath_of].
  destruct (string_dec "isolated_hw" "isolated_hw_errorlog"); [discriminate|].
  destruct (string_dec elog ""); [now subst|]. cbn [errLogPath_of].
  now destruct (string_dec "isolated_hw_errorlog" "isolated_hw_errorlog").
Qed.

Lemma find_the_only_match (P : Entry -> bool) id e h :
  In (id, e) h -> P e = true ->
  (forall k e0, In (k, e0) h -> k <> id -> P e0 = false) ->
  NoDup (map_keys h) ->
  find (fun ele => P (snd ele)) h = Some (id, e).
Proof.
  induction h as [|[k v] h IH]; intros Hin HP Hothers Hnd; [contradiction|].
  cbn [find snd]. cbn in Hnd. apply NoDup_cons_iff in Hnd as [Hk Hnd].
  destruct Hin as [[= -> ->]|Hin].
  - now rewrite HP.
  - assert (Hne : k <> id).
    { intros ->. apply Hk. change id with (fst (id, e)). now apply in_map. }
    rewrite (Hothers k v (or_introl eq_refl) Hne).
    apply IH; [exact Hin | exact HP | | exact Hnd].
    intros k' e0 Hin0. apply Hothers. now right.
Qed.

Lemma getIsolatedHwRecordInfo_of_created now rec sev hw elog m m' :
  well_formed m' ->
  only_entry_of hw (recordId rec) m ->
  holds_entry_for now rec sev hw elog m m' ->
  getIsolatedHwRecordInfo hw m' = Some (sev, elog).
Proof.
  intros [Hs Hid] Honly (e' & Hat & _ & _ & Hsev & Hassoc & Hother & _).
  unfold getIsolatedHwRecordInfo.
  rewrite (find_the_only_match (fun e => isolated_hw_is hw (associations e))
             (recordId rec) e').
  - now rewrite Hsev, Hassoc, errLogPath_of_associationDeftoHw.
  - now apply map_at_In.
  - rewrite Hassoc. apply isolated_hw_is_associationDeftoHw.
  - intros k e0 Hin Hk. apply (Honly k e0); [|exact Hk].
    rewrite <- (Hother k Hk). now apply sorted_In_map_at.
  - now apply sorted_keys_NoDup.
Qed.

(** X8. What [create] and [createWithErrorLog] store is what
    [getIsolatedHwRecordInfo] reports: after a call that returns, the lookup
    by the inventory path of the hardware gives the severity of the call and
    the error log of the call (the empty path for [create]), provided no
    other entry of the map names this hardware. *)
Theorem created_entry_is_reported env now sev m rec :
  well_formed m ->
  gate_open env sev ->
  Entry_constructs env (recordId rec) = true ->
  (forall e, map_at (recordId rec) (_isolatedHardwares m) = Some e ->
     getEntityPath e = targetId rec) ->
  (forall hw phys gt,
     getPhysicalPath env hw = Some phys ->
     getGuardType env sev = Some gt ->
     guard_create env (EntityPath_of_raw phys) 0 gt = inr rec ->
     only_entry_of hw (recordId rec) m ->
     exists p m',
       create env now hw sev m = Ok p m' /\
       getIsolatedHwRecordInfo hw m' = Some (sev, ""%string)) /\
  (forall hw elog phys eid gt,
     getPhysicalPath env hw = Some phys ->
     getEID_answers env elog eid ->
     getGuardType env sev = Some gt ->
     guard_create env (EntityPath_of_raw phys) eid gt = inr rec ->
     only_entry_of hw (recordId rec) m ->
     exists p m',
       createWithErrorLog env now hw sev elog m = Ok p m' /\
       getIsolatedHwRecordInfo hw m' = Some (sev, elog)).
Proof.
  intros Hwf Hgate Hctor Hpath.
  assert (Hend : forall hw elog m1,
            _isolatedHardwares m1 = _isolatedHardwares m ->
            only_entry_of hw (recordId rec) m ->
            exists p m',
              updateOrCreateEntry env now rec sev hw elog m1 = Ok p m' /\
              getIsolatedHwRecordInfo hw m' = Some (sev, elog)).
  { intros hw elog m1 He Honly.
    assert (Hwf1 : well_formed m1) by (unfold well_formed; now rewrite He).
    destruct (updateOrCreateEntry_succeeds env now rec sev hw elog m1 Hwf1 Hctor)
      as (m' & Hrun & Hholds & _).
    { now rewrite He. }
    exists (entryObjPath env (recordId rec)), m'. split; [exact Hrun|].
    apply (getIsolatedHwRecordInfo_of_created now rec sev hw elog m1 m').
    - apply (keeps_final well_formed
               (updateOrCreateEntry env now rec sev hw elog) m1 m');
        [|exact Hwf1|now rewrite Hrun].
      apply keeps_updateOrCreateEntry with (okKey := fun _ => True);
        first [solve_well_formed | exact Logic.I].
    - unfold only_entry_of. now rewrite He.
    - exact Hholds. }
  split.
  - intros hw phys gt Hphys Hgt Hcreate Honly.
    unfold create. rewrite bind_run, (isHwIsolationAllowed_open _ _ _ Hgate).
    rewrite bind_run, emit_run, Hphys, Hgt. cbv beta iota. rewrite bind_run.
    rewrite (openpower_guard_create_run _ _ _ _ _ _ Hcreate).
    now apply Hend.
  - intros hw elog phys eid gt Hphys Heid Hgt Hcreate Honly.
    unfold createWithErrorLog. rewrite bind_run, (isHwIsolationAllowed_open _ _ _ Hgate).
    rewrite bind_run, emit_run, Hphys. cbv beta iota.
    rewrite bind_run, (getEID_run_answer _ _ _ _ Heid), Hgt. rewrite bind_run.
    rewrite (openpower_guard_create_run _ _ _ _ _ _ Hcreate).
    now apply Hend.
Qed.

Lemma created_entry_is_reported_witness :
  (exists p m',
     create Samples.envOn 200 Samples.core0 Warning Samples.managerPQ = Ok p m' /\
     getIsolatedHwRecordInfo Samples.core0 m' = Some (Warning, ""%string)) /\
  (exists p m',
     createWithErrorLog Samples.envOn 200 Samples.core0 Warning Samples.elog7
       Samples.managerPQ = Ok p m' /\
     getIsolatedHwRecordInfo Samples.core0 m' = Some (Warning, Samples.elog7)).
Proof.
  assert (HwfPQ : well_formed Samples.managerPQ).
  { split; cbn; repeat constructor; lia. }
  assert (Hgate : gate_open Samples.envOn Warning).
  { split; [reflexivity | discriminate]. }
  assert (Hctor : forall rec, Entry_constructs Samples.envOn (recordId rec) = true)
    by reflexivity.
  assert (HpathPQ : forall e,
            map_at 1 (_isolatedHardwares Samples.managerPQ) = Some e ->
            getEntityPath e = Samples.pathP).
  { intros e [= <-]. reflexivity. }
  assert (Heid : getEID_answers Samples.envOn Samples.elog7 0x50000007).
  { exists "xyz.openbmc_project.Logging"%string, 7.
    repeat split; vm_compute; reflexivity. }
  assert (Hphys : getPhysicalPath Samples.envOn Samples.core0 = Some Samples.pathP)
    by (vm_compute; reflexivity).
  assert (Honly : only_entry_of Samples.core0 1 Samples.managerPQ).
  { intros k e Hat Hk. unfold Samples.managerPQ in Hat.
    cbn [_isolatedHardwares map_at] in Hat.
    destruct (Z.eqb_spec 1 k) as [E1|E1]; [now elim Hk|].
    destruct (Z.eqb_spec 2 k) as [E2|E2]; [|discriminate Hat].
    injection Hat as <-. vm_compute. reflexivity. }
  split.
  - apply (proj1 (created_entry_is_reported Samples.envOn 200 Warning
                    Samples.managerPQ (mkGuardRecord 1 Samples.pathP 0 0xE6) HwfPQ
                    Hgate (Hctor _) HpathPQ)
             Samples.core0 Samples.pathP 0xE6 Hphys); [reflexivity..|exact Honly].
  - apply (proj2 (created_entry_is_reported Samples.envOn 200 Warning
                    Samples.managerPQ (mkGuardRecord 1 Samples.pathP 0x50000007 0xE6)
                    HwfPQ Hgate (Hctor _) HpathPQ)
             Samples.core0 Samples.elog7 Samples.pathP 0x50000007 0xE6 Hphys Heid);
      [reflexivity..|exact Honly].
Defined.

(** ** A create call that throws *)

Lemma quiet_refl m : quiet m m.
Proof. split; [reflexivity | apply emitted_only_refl]. Qed.

Lemma quiet_trans m1 m2 m3 : quiet m1 m2 -> quiet m2 m3 -> quiet m1 m3.
Proof.
  intros [E1 Q1] [E2 Q2]. split; [congruence|].
  now apply emitted_only_trans with m2.
Qed.

Lemma quiet_emit e m :
  negb (is_guard_store_event e) = true -> quiet m (with_trace (trace m ++ [e]) m).
Proof. intro H. split; [reflexivity | now apply emitted_only_emit]. Qed.

Lemma quiet_serialize env s m :
  quiet m (with_trace (trace m ++ serialize_events env s) (with_persistedEcoCores s m)).
Proof.
  split; [reflexivity|]. apply emitted_only_serialize; [|reflexivity].
  intros [] Hev; (discriminate Hev || reflexivity).
Qed.

Ltac solve_quiet :=
  first [ exact quiet_refl | exact quiet_trans | exact quiet_emit
        | exact (quiet_serialize _) | intros; reflexivity ].

Lemma guard_writes_quiet evs :
  forallb (fun ev => negb (is_guard_store_event ev)) evs = true ->
  guard_writes evs = [].
Proof.
  unfold guard_writes. induction evs as [|ev evs IH]; [reflexivity|].
  cbn [forallb filter]. intro H. apply andb_true_iff in H as [Hev H].
  apply negb_true_iff in Hev. rewrite Hev. now apply IH.
Qed.

Lemma guard_writes_app evs1 evs2 :
  guard_writes (evs1 ++ evs2) = guard_writes evs1 ++ guard_writes evs2.
Proof. apply filter_app. Qed.

Lemma own_record_only_quiet m m' : quiet m m' -> own_record_only m m'.
Proof.
  intros [He (evs & Ht & Hq)]. exists evs. split; [exact Ht|]. left.
  split; [now apply guard_writes_quiet | exact He].
Qed.

Lemma own_record_only_after_quiet m m1 m' :
  quiet m m1 -> own_record_only m1 m' -> own_record_only m m'.
Proof.
  intros [He1 (e1 & T1 & Q1)] (evs & Ht & Hw). exists (e1 ++ evs).
  split; [now rewrite Ht, T1, app_assoc|].
  rewrite guard_writes_app, (guard_writes_quiet e1 Q1). cbn [app].
  destruct Hw as [[Hw He]|Hw]; [left; split; [exact Hw | congruence] | now right].
Qed.

Lemma own_record_only_bind {A B} (c : M A) (k : A -> M B) :
  relates quiet c -> (forall a, relates own_record_only (k a)) ->
  relates own_record_only (bind c k).
Proof.
  intros Hc Hk m. rewrite bind_run. specialize (Hc m).
  destruct (c m) as [a m1|e1 m1|]; cbn [final] in *; [| |exact Logic.I].
  - specialize (Hk a m1). destruct (final (k a m1)); [|exact Logic.I].
    now apply own_record_only_after_quiet with m1.
  - now apply own_record_only_quiet.
Qed.

Lemma create_tail_own_record env now p eid t sev hw elog :
  relates own_record_only
    (bind (openpower_guard_create env p eid t)
       (fun guardRecord => updateOrCreateEntry env now guardRecord sev hw elog)).
Proof.
  intro m. rewrite bind_run. unfold openpower_guard_create. rewrite bind_run.
  destruct (guard_create env p eid t) as [e|rec]; cbn [lift].
  - unfold throw. cbn [final]. apply own_record_only_quiet, quiet_refl.
  - unfold ret. rewrite bind_run, emit_run. cbv beta iota.
    unfold updateOrCreateEntry. rewrite bind_run, updateEntry_run. fields.
    destruct (find_entry _ _ _) as [[k e]|]; cbn [fst snd].
    + unfold ret. cbn [final]. exists [EvGuardCreate rec; EvEntrySerialize k].
      fields. split; [now rewrite <- app_assoc|]. right. exists rec. now left.
    + rewrite bind_run. unfold createEntry, try_catch.
      destruct (Entry_constructs env (recordId rec)); run_steps.
      * cbn [final]. exists [EvGuardCreate rec; EvSetEnabledProperty hw false].
        fields. split; [now rewrite <- app_assoc|]. right. exists rec. now left.
      * cbn [catches_std_exception]. run_steps. cbn [final].
        exists [EvGuardCreate rec; EvLog LogCreateEntryFailed;
                EvGuardClear (recordId rec)].
        fields. split; [now rewrite <- !app_assoc|]. right. exists rec. now right.
Qed.

Ltac quiet_step lem :=
  apply lem with (okEvent := fun ev => negb (is_guard_store_event ev)); solve_quiet.

Lemma quiet_invalid msg :
  relates quiet (bind (log msg) (fun _ : unit => @throw string InvalidArgument)).
Proof.
  apply relates_bind; [exact quiet_trans | | intros; apply relates_throw; exact quiet_refl].
  quiet_step relates_log.
Qed.

Lemma own_record_only_invalid msg :
  relates own_record_only
    (bind (log msg) (fun _ : unit => @throw string InvalidArgument)).
Proof.
  intro m. pose proof (quiet_invalid msg m) as H.
  destruct (final _); [now apply own_record_only_quiet | exact Logic.I].
Qed.

(** X9. The create calls write to the guard store for their own record
    only.  Whether a call returns or throws, it has not written to the store
    at all, and then the entry map is as it was; or it has created one
    record; or it has created one record and then cleared that same record.
    No call clears a record it has not just created, and none changes the
    entry map before it has created its record. *)
Theorem create_calls_write_the_guard_store_for_their_own_record env now :
  (forall hw sev, relates own_record_only (create env now hw sev)) /\
  (forall hw sev elog,
     relates own_record_only (createWithErrorLog env now hw sev elog)) /\
  (forall path sev elog,
     relates own_record_only (createWithEntityPath env now path sev elog)).
Proof.
  split; [|split].
  - intros hw sev. unfold create.
    apply own_record_only_bind; [quiet_step relates_isHwIsolationAllowed | intros _].
    apply own_record_only_bind; [quiet_step relates_emit | intros _].
    destruct (getPhysicalPath env hw); [|apply own_record_only_invalid].
    destruct (getGuardType env sev); [|apply own_record_only_invalid].
    apply create_tail_own_record.
  - intros hw sev elog. unfold createWithErrorLog.
    apply own_record_only_bind; [quiet_step relates_isHwIsolationAllowed | intros _].
    apply own_record_only_bind; [quiet_step relates_emit | intros _].
    destruct (getPhysicalPath env hw); [|apply own_record_only_invalid].
    apply own_record_only_bind; [quiet_step relates_getEID | intros [eid|]];
      [|apply own_record_only_invalid].
    destruct (getGuardType env sev); [|apply own_record_only_invalid].
    apply create_tail_own_record.
  - intros path sev elog. unfold createWithEntityPath.
    apply own_record_only_bind; [quiet_step relates_isHwIsolationAllowed | intros _].
    apply own_record_only_bind; [quiet_step relates_emit | intros _].
    destruct (getInventoryPath env path false) as [[inv eco]|];
      [|apply own_record_only_invalid].
    apply own_record_only_bind;
      [apply relates_updateEcoCoresList; exact (quiet_serialize _) | intros _].
    apply own_record_only_bind; [quiet_step relates_getEID | intros [eid|]];
      [|apply own_record_only_invalid].
    destruct (getGuardType env sev); [|apply own_record_only_invalid].
    apply create_tail_own_record.
Qed.

(** ** Resolving every entry *)

Lemma guard_clears_app evs1 evs2 :
  guard_clears (evs1 ++ evs2) = guard_clears evs1 ++ guard_clears evs2.
Proof. apply flat_map_app. Qed.

Lemma guard_clears_serialize env s : guard_clears (serialize_events env s) = [].
Proof.
  unfold serialize_events. destruct s as [|p s]; [reflexivity|].
  now destruct (archive_writes env (p :: s)).
Qed.

Lemma filter_visited_step env b k e ks h :
  StronglySorted Z.lt (map_keys h) ->
  map_at k h = Some e ->
  filter (fun kv => negb (existsb (Z.eqb (fst kv)) ks) || stays_after_resolve env b kv)
    (if stays_after_resolve env b (k, e) then h else map_erase k h) =
  filter (fun kv => negb (existsb (Z.eqb (fst kv)) (k :: ks))
                    || stays_after_resolve env b kv) h.
Proof.
  intros Hs Hat.
  assert (Hk : forall kv, In kv h -> fst kv = k -> kv = (k, e)).
  { intros [k' e'] Hin Hk'. cbn in Hk'. subst k'.
    pose proof (sorted_In_map_at k e' h Hs Hin) as H. congruence. }
  destruct (stays_after_resolve env b (k, e)) eqn:Hstay.
  - apply filter_ext_in. intros kv Hin. cbn [existsb].
    destruct (Z.eqb_spec (fst kv) k) as [Heq|Hne]; [|reflexivity].
    rewrite (Hk kv Hin Heq), Hstay. now rewrite !orb_true_r.
  - unfold map_erase. clear Hs Hat. unfold IsolatedHardwares, EntryRecordId in *.
    induction h as [|kv h IH]; [reflexivity|]. cbn [filter existsb].
    destruct (Z.eqb_spec (fst kv) k) as [Heq|Hne]; cbn [negb orb].
    + rewrite (Hk kv (or_introl eq_refl) Heq), Hstay.
      apply IH. intros kv' Hin. apply Hk. now right.
    + cbn [filter]. rewrite IH; [reflexivity|].
      intros kv' Hin. apply Hk. now right.
Qed.

Lemma resolveAllEntries_loop_any env b (ks : list EntryRecordId) :
  forall m,
  well_formed m -> NoDup ks ->
  (forall k, In k ks -> map_at k (_isolatedHardwares m) <> None) ->
  exists m' evs,
    for_each
      (fun entryRecordId =>
         try_catch (resolveEntry env entryRecordId b) catches_std_exception
           (fun _ => log (LogResolveFailed entryRecordId)))
      ks m = Ok tt m' /\
    trace m' = trace m ++ evs /\
    _timerObjs m' = _timerObjs m /\
    _isolatedHardwares m' =
      filter (fun kv => negb (existsb (Z.eqb (fst kv)) ks)
                        || stays_after_resolve env b kv) (_isolatedHardwares m) /\
    guard_clears evs =
      if b
      then filter (fun k => match map_at k (_isolatedHardwares m) with
                            | Some e => negb (stays_after_resolve env b (k, e))
                            | None => false
                            end) ks
      else [].
Proof.
  induction ks as [|k ks IH]; intros m Hwf Hnd Hpres.
  - exists m, []. cbn [for_each existsb negb orb filter]. rewrite app_nil_r.
    split; [reflexivity|]. split; [reflexivity|]. split; [reflexivity|]. split.
    + induction (_isolatedHardwares m) as [|kv h IHh]; [reflexivity|].
      cbn [filter]. now rewrite <- IHh.
    + now destruct b.
  - destruct (map_at k (_isolatedHardwares m)) as [e|] eqn:Hat;
      [|exfalso; apply (Hpres k); [now left | exact Hat]].
    pose proof (well_formed_entry_id k e m Hwf Hat) as Hid.
    apply NoDup_cons_iff in Hnd as [Hnotin Hnd].
    assert (Hne : forall k', In k' ks -> k' <> k) by (intros k' Hin ->; auto).
    cbn [for_each]. rewrite bind_run. unfold try_catch at 1.
    rewrite (resolveEntry_run env k b e m Hat Hid).
    assert (Hstep : forall m1 evs1,
      well_formed m1 -> trace m1 = trace m ++ evs1 -> _timerObjs m1 = _timerObjs m ->
      _isolatedHardwares m1 =
        (if stays_after_resolve env b (k, e) then _isolatedHardwares m
         else map_erase k (_isolatedHardwares m)) ->
      guard_clears evs1 =
        (if b then if stays_after_resolve env b (k, e) then [] else [k] else []) ->
      exists m' evs,
        for_each
          (fun entryRecordId =>
             try_catch (resolveEntry env entryRecordId b) catches_std_exception
               (fun _ => log (LogResolveFailed entryRecordId)))
          ks m1 = Ok tt m' /\
        trace m' = trace m ++ evs /\
        _timerObjs m' = _timerObjs m /\
        _isolatedHardwares m' =
          filter (fun kv => negb (existsb (Z.eqb (fst kv)) (k :: ks))
                            || stays_after_resolve env b kv) (_isolatedHardwares m) /\
        guard_clears evs =
          if b
          then filter (fun k => match map_at k (_isolatedHardwares m) with
                                | Some e => negb (stays_after_resolve env b (k, e))
                                | None => false
                                end) (k :: ks)
          else []).
    { intros m1 evs1 Hwf1 Htr1 Htm1 He1 Hg1.
      assert (Hother : forall k', In k' ks ->
                map_at k' (_isolatedHardwares m1) = map_at k' (_isolatedHardwares m)).
      { intros k' Hin. rewrite He1.
        destruct (stays_after_resolve env b (k, e)); [reflexivity|].
        rewrite map_at_map_erase. pose proof (Hne k' Hin).
        now destruct (Z.eqb_spec k' k). }
      destruct (IH m1 Hwf1 Hnd) as (m' & evs & Hrun & Htr & Htm & He & Hg).
      { intros k' Hin. rewrite (Hother k' Hin). apply Hpres. now right. }
      exists m', (evs1 ++ evs). split; [exact Hrun|].
      split; [now rewrite Htr, Htr1, app_assoc|].
      split; [congruence|]. split.
      - rewrite He, He1. apply filter_visited_step; [apply Hwf | exact Hat].
      - rewrite guard_clears_app, Hg1, Hg. destruct b; [|reflexivity].
        cbn [filter]. rewrite Hat.
        rewrite (filter_ext_in _
                   (fun k0 => match map_at k0 (_isolatedHardwares m) with
                              | Some e0 => negb (stays_after_resolve env true (k0, e0))
                              | None => false
                              end) ks);
          [|intros k' Hin; now rewrite (Hother k' Hin)].
        now destruct (stays_after_resolve env true (k, e)). }
    unfold stays_after_resolve in Hstep. cbn [fst snd] in Hstep.
    destruct (resolved e) eqn:Hres; cbn [orb] in Hstep.
    + apply (Hstep m []); auto; [now rewrite app_nil_r | now destruct b].
    + destruct (resolveEntry_fails env k b) eqn:Hfail.
      * cbn [catches_std_exception]. unfold log. rewrite emit_run.
        apply (Hstep _ [EvLog (LogResolveFailed k)]); auto. now destruct b.
      * cbv zeta. eapply Hstep.
        -- destruct Hwf as [Hs Hids]. split; cbn.
           ++ now apply sorted_map_erase.
           ++ rewrite Forall_forall in *. intros kv Hin.
              apply map_erase_In in Hin. now apply Hids.
        -- cbn. reflexivity.
        -- reflexivity.
        -- reflexivity.
        -- rewrite guard_clears_app. destruct b; cbn; now rewrite guard_clears_serialize.
Qed.

Lemma cleared_keys_of_map env b h :
  StronglySorted Z.lt (map_keys h) ->
  filter (fun k => match map_at k h with
                   | Some e => negb (stays_after_resolve env b (k, e))
                   | None => false
                   end) (map_keys h) =
  map_keys (filter (fun kv => negb (stays_after_resolve env b kv)) h).
Proof.
  induction h as [|[k0 v0] h IH]; intro Hs; [reflexivity|].
  cbn in Hs. cbn [map_keys map fst filter map_at]. rewrite Z.eqb_refl.
  rewrite (filter_ext_in _
             (fun k => match map_at k h with
                       | Some e => negb (stays_after_resolve env b (k, e))
                       | None => false
                       end) (map fst h)).
  - fold (map_keys h). rewrite IH by (now inversion Hs).
    now destruct (stays_after_resolve env b (k0, v0)).
  - intros k Hin. inversion Hs as [|? ? _ Hall]; subst.
    rewrite Forall_forall in Hall. specialize (Hall k Hin).
    destruct (Z.eqb_spec k0 k); [lia | reflexivity].
Qed.

(** X10. [deleteAll] and [resolveAllEntries] on a well-formed entry map.
    When de-isolation is not allowed, the exception of the check leaves the
    manager untouched.  Otherwise the call returns even when entries fail to
    resolve: a failure of one entry does not stop the others.  No key is
    added and the timers are left alone; every unresolved entry whose
    resolution does not fail is gone from the map, and its guard record has
    been cleared when [clearRecord] is set; and only records of entries of
    the map are cleared, none at all when [clearRecord] is not set. *)
Theorem deleteAll_goes_on_after_a_failed_entry env allowed clearRecord m :
  well_formed m ->
  match allowed with
  | inl ex => deleteAll env allowed clearRecord m = Throw ex m
  | inr _ =>
      exists m' evs,
        deleteAll env allowed clearRecord m = Ok tt m' /\
        resolveAllEntries env clearRecord m = Ok tt m' /\
        trace m' = trace m ++ evs /\
        _timerObjs m' = _timerObjs m /\
        (forall k, map_at k (_isolatedHardwares m') <> None ->
                   map_at k (_isolatedHardwares m) <> None) /\
        (forall k e,
           map_at k (_isolatedHardwares m) = Some e ->
           resolved e = false ->
           resolveEntry_fails env k clearRecord = false ->
           map_at k (_isolatedHardwares m') = None /\
           (clearRecord = true -> In k (guard_clears evs))) /\
        (forall id, In id (guard_clears evs) ->
           clearRecord = true /\ map_at id (_isolatedHardwares m) <> None)
  end.
Proof.
  intro Hwf. destruct allowed as [ex|u]; [reflexivity|].
  unfold deleteAll. rewrite bind_run. cbn [lift]. unfold ret.
  unfold resolveAllEntries. rewrite bind_run. unfold get. cbv beta iota.
  destruct (resolveAllEntries_loop_any env clearRecord
              (map_keys (_isolatedHardwares m)) m Hwf)
    as (m' & evs & Hrun & Htr & Htm & He & Hg).
  { apply sorted_keys_NoDup, Hwf. }
  { intros k Hin. apply map_at_key in Hin as [e He]. congruence. }
  assert (He' : _isolatedHardwares m' =
                filter (stays_after_resolve env clearRecord) (_isolatedHardwares m)).
  { rewrite He. apply filter_ext_in. intros kv Hin. cbv beta.
    match goal with |- negb ?x || _ = _ => assert (Hex : x = true) end.
    { apply existsb_exists. exists (fst kv).
      split; [unfold map_keys; now apply in_map | apply Z.eqb_refl]. }
    now rewrite Hex. }
  assert (Hg' : guard_clears evs =
                if clearRecord
                then map_keys
                       (filter (fun kv => negb (stays_after_resolve env clearRecord kv))
                          (_isolatedHardwares m))
                else []).
  { rewrite Hg. destruct clearRecord; [|reflexivity].
    apply cleared_keys_of_map, Hwf. }
  clear He Hg. destruct Hwf as [Hs Hid].
  exists m', evs. repeat (split; [assumption|]). split; [|split].
  - intros k Hk. rewrite He' in Hk.
    destruct (map_at k (filter _ _)) as [e|] eqn:Hat; [|now elim Hk].
    apply map_at_In, filter_In in Hat as [Hin _].
    rewrite (sorted_In_map_at k e _ Hs Hin). discriminate.
  - intros k e Hat Hres Hfail.
    assert (Hstay : stays_after_resolve env clearRecord (k, e) = false).
    { unfold stays_after_resolve. cbn [fst snd]. now rewrite Hres, Hfail. }
    split.
    + rewrite He'. destruct (map_at k (filter _ _)) as [e'|] eqn:Hat'; [|reflexivity].
      apply map_at_In, filter_In in Hat' as [Hin Hst].
      rewrite (sorted_In_map_at k e' _ Hs Hin) in Hat. injection Hat as ->.
      congruence.
    + intros ->. rewrite Hg'. unfold map_keys.
      change k with (fst (k, e)). apply in_map. apply filter_In.
      split; [now apply map_at_In | now rewrite Hstay].
  - intros id Hin. rewrite Hg' in Hin. destruct clearRecord; [|contradiction].
    split; [reflexivity|]. unfold map_keys in Hin.
    apply in_map_iff in Hin as ([k e] & <- & Hin). apply filter_In in Hin as [Hin _].
    cbn [fst]. rewrite (sorted_In_map_at k e _ Hs Hin). discriminate.
Qed.

Lemma deleteAll_goes_on_after_a_failed_entry_witness :
  deleteAll Samples.envOn (inl NotAllowed) true Samples.managerPQ
    = Throw NotAllowed Samples.managerPQ /\
  (exists m' evs,
     deleteAll Samples.envOn (inr tt) true Samples.managerPQ = Ok tt m' /\
     trace m' = trace Samples.managerPQ ++ evs /\
     map_at 1 (_isolatedHardwares m') = None /\
     In 1 (guard_clears evs)).
Proof.
  assert (Hwf : well_formed Samples.managerPQ).
  { split; cbn; repeat constructor; lia. }
  split.
  - exact (deleteAll_goes_on_after_a_failed_entry Samples.envOn (inl NotAllowed) true
             Samples.managerPQ Hwf).
  - destruct (deleteAll_goes_on_after_a_failed_entry Samples.envOn (inr tt) true
                Samples.managerPQ Hwf)
      as (m' & evs & Hrun & _ & Htr & _ & _ & Hgone & _).
    exists m', evs. split; [exact Hrun|]. split; [exact Htr|].
    destruct (Hgone 1 (Samples.entryP 1) eq_refl eq_refl eq_refl) as [Hnone Hclear].
    split; [exact Hnone | exact (Hclear eq_refl)].
Defined.

(** ** Restore *)

Lemma with_trace_same m : with_trace (trace m ++ []) m = m.
Proof. rewrite app_nil_r. now destruct m. Qed.

Lemma cleanupPersistedFiles_loop files :
  forall m,
  (forall file, In file files -> exists n, stoul file = inr n) ->
  for_each
    (fun file =>
       bind (lift (stoul file)) (fun fileEntryId =>
       bind get (fun m =>
       if map_contains (fileEntryId mod UINT32_MOD) (_isolatedHardwares m)
       then ret tt
       else emit (EvEntryFileRemove file))))
    files m =
  Ok tt (with_trace
           (trace m ++ map EvEntryFileRemove (stale_files (_isolatedHardwares m) files))
           m).
Proof.
  induction files as [|file files IH]; intros m Hall.
  - cbn [for_each stale_files filter map]. unfold ret. now rewrite with_trace_same.
  - destruct (Hall file (or_introl eq_refl)) as [n Hn].
    cbn [for_each stale_files filter]. rewrite Hn. fold (stale_files (_isolatedHardwares m) files).
    rewrite bind_run, bind_run. cbn [lift]. unfold ret at 1. cbv beta iota.
    rewrite bind_run. unfold get. cbv beta iota.
    destruct (map_contains (n mod UINT32_MOD) (_isolatedHardwares m)); cbn [negb].
    + unfold ret. apply IH. intros f Hf. apply Hall. now right.
    + rewrite emit_run, IH by (intros f Hf; apply Hall; now right).
      fields. cbn [map]. now rewrite <- app_assoc.
Qed.

Lemma cleanupPersistedFiles_stops pre bad post ex :
  forall m,
  (forall file, In file pre -> exists n, stoul file = inr n) ->
  stoul bad = inl ex ->
  for_each
    (fun file =>
       bind (lift (stoul file)) (fun fileEntryId =>
       bind get (fun m =>
       if map_contains (fileEntryId mod UINT32_MOD) (_isolatedHardwares m)
       then ret tt
       else emit (EvEntryFileRemove file))))
    (pre ++ bad :: post) m =
  Throw ex (with_trace
              (trace m ++ map EvEntryFileRemove (stale_files (_isolatedHardwares m) pre))
              m).
Proof.
  induction pre as [|file pre IH]; intros m Hall Hbad.
  - cbn [app for_each stale_files filter map]. rewrite bind_run, bind_run, Hbad.
    cbn [lift]. unfold throw. now rewrite with_trace_same.
  - destruct (Hall file (or_introl eq_refl)) as [n Hn].
    cbn [app for_each stale_files filter]. rewrite Hn.
    fold (stale_files (_isolatedHardwares m) pre).
    rewrite bind_run, bind_run. cbn [lift]. unfold ret at 1. cbv beta iota.
    rewrite bind_run. unfold get. cbv beta iota.
    destruct (map_contains (n mod UINT32_MOD) (_isolatedHardwares m)); cbn [negb].
    + unfold ret. apply IH; [|exact Hbad]. intros f Hf. apply Hall. now right.
    + rewrite emit_run, IH; [|intros f Hf; apply Hall; now right|exact Hbad].
      fields. cbn [map]. now rewrite <- app_assoc.
Qed.

(** X11. [cleanupPersistedFiles] reads every file name of the entry
    directory as a number.  When all names are numbers it removes exactly the
    files whose number, taken as a record id, is no key of the entry map, in
    the order of the directory, and then runs the eco-core cleanup.  At the
    first name that is no number the exception of [std::stoul] leaves the
    call: the files before it have been handled, the files after it are not
    looked at, and the eco-core cleanup does not run. *)
Theorem cleanupPersistedFiles_removes_stale_files env pre m :
  (forall file, In file pre -> exists n, stoul file = inr n) ->
  cleanupPersistedFiles env pre m =
    cleanupPersistedEcoCores env
      (with_trace
         (trace m ++ map EvEntryFileRemove (stale_files (_isolatedHardwares m) pre))
         m) /\
  (forall bad post ex,
     stoul bad = inl ex ->
     cleanupPersistedFiles env (pre ++ bad :: post) m =
       Throw ex
         (with_trace
            (trace m ++ map EvEntryFileRemove (stale_files (_isolatedHardwares m) pre))
            m)).
Proof.
  intro Hall. split.
  - unfold cleanupPersistedFiles. rewrite bind_run.
    now rewrite (cleanupPersistedFiles_loop pre m Hall).
  - intros bad post ex Hbad. unfold cleanupPersistedFiles. rewrite bind_run.
    now rewrite (cleanupPersistedFiles_stops pre bad post ex m Hall Hbad).
Qed.

Lemma cleanupPersistedFiles_removes_stale_files_witness :
  cleanupPersistedFiles Samples.envOn ["1"; "7"; "2"]%string Samples.managerPQ =
    cleanupPersistedEcoCores Samples.envOn
      (with_trace [EvEntryFileRemove "7"] Samples.managerPQ) /\
  cleanupPersistedFiles Samples.envOn ["1"; "7"; "eco_cores"; "9"]%string
    Samples.managerPQ =
    Throw std_invalid_argument
      (with_trace [EvEntryFileRemove "7"] Samples.managerPQ).
Proof.
  assert (Hall : forall file, In file ["1"; "7"]%string -> exists n, stoul file = inr n).
  { intros file [<-|[<-|[]]]; eexists; vm_compute; reflexivity. }
  assert (Hall' : forall file, In file ["1"; "7"; "2"]%string ->
                    exists n, stoul file = inr n).
  { intros file [<-|[<-|[<-|[]]]]; eexists; vm_compute; reflexivity. }
  assert (Hbad : stoul "eco_cores" = inl std_invalid_argument)
    by (vm_compute; reflexivity).
  split.
  - exact (proj1 (cleanupPersistedFiles_removes_stale_files Samples.envOn
                    ["1"; "7"; "2"]%string Samples.managerPQ Hall')).
  - exact (proj2 (cleanupPersistedFiles_removes_stale_files Samples.envOn
                    ["1"; "7"]%string Samples.managerPQ Hall)
             "eco_cores"%string ["9"%string] std_invalid_argument Hbad).
Defined.

Lemma map_insert_keeps_keys k id e h :
  map_at k h <> None -> map_at k (map_insert id e h) <> None.
Proof.
  intro H. destruct (Z.eq_dec k id) as [->|Hne].
  - apply map_at_map_insert_same.
  - now rewrite map_at_map_insert_other.
Qed.

Lemma createEntryForRecord_restore_run env now r m :
  exists m',
    createEntryForRecord env now r true m = Ok tt m' /\
    (forall k, map_at k (_isolatedHardwares m) <> None ->
               map_at k (_isolatedHardwares m') <> None) /\
    (restorable env r -> map_at (recordId r) (_isolatedHardwares m') <> None).
Proof.
  unfold restorable, createEntryForRecord, catalog_getInventoryPath, try_catch.
  run_steps.
  destruct (getInventoryPath env (convertEntityPathIntoRawData (targetId r)) _)
    as [[inv eco]|] eqn:Hinv.
  2:{ run_steps. eexists. split; [reflexivity|]. fields. split; [auto|].
      intros (H & _). now elim (H _ Hinv). }
  destruct (getBMCLogPath env (elogId r)) as [ex|bmc] eqn:Hbmc.
  { run_steps. cbn [catches_std_exception]. run_steps.
    eexists. split; [reflexivity|]. fields. split; [auto|].
    intros (_ & [x Hx] & _). discriminate Hx. }
  run_steps.
  destruct bmc as [s|];
    (destruct (getEntrySeverityType env (errType r)) as [sev|] eqn:Hsev;
     [ unfold createEntry, try_catch;
       destruct (Entry_constructs env (recordId r)) eqn:Hc; run_steps;
       [ eexists; split; [reflexivity|]; fields; split;
         [ intro k; apply map_insert_keeps_keys
         | intros _; apply map_at_map_insert_same ]
       | cbn [catches_std_exception]; run_steps;
         eexists; split; [reflexivity|]; fields; split;
         [ auto | intros (_ & _ & _ & H); discriminate H ] ]
     | run_steps; eexists; split; [reflexivity|]; fields; split;
       [ auto | intros (_ & _ & H & _); now elim H ] ]).
Qed.

Lemma cleanupPersistedEcoCores_ecoCores env m :
  exists m',
    cleanupPersistedEcoCores env m = Ok tt m' /\
    _isolatedHardwares m' = _isolatedHardwares m /\
    _persistedEcoCores m' =
      filter (carried (_isolatedHardwares m)) (_persistedEcoCores m).
Proof.
  unfold cleanupPersistedEcoCores. rewrite bind_run. unfold get. cbv beta iota.
  destruct (_isolatedHardwares m) as [|kv h] eqn:Hh.
  - run_steps. rewrite serialize_run. eexists. split; [reflexivity|]. fields.
    split; [now rewrite Hh|].
    induction (_persistedEcoCores m) as [|p s IHs]; [reflexivity | exact IHs].
  - rewrite <- Hh. rewrite bind_run.
    destruct (cleanupEcoCoresLoop_run env (_persistedEcoCores m) false m)
      as (evs & Hrun & _).
    rewrite Hrun, erase_not_carried_filter, filter_snapshot.
    destruct (false || _).
    + rewrite serialize_run. eexists. split; [reflexivity|]. fields. now split.
    + unfold ret. eexists. split; [reflexivity|]. fields. now split.
Qed.

Lemma cleanupPersistedEcoCores_carried env m m' :
  cleanupPersistedEcoCores env m = Ok tt m' -> eco_cores_carried m'.
Proof.
  destruct (cleanupPersistedEcoCores_ecoCores env m) as (m1 & Hrun & He & Hs).
  rewrite Hrun. intros [= <-] p Hin. rewrite Hs in Hin.
  apply filter_In in Hin as [_ Hc]. now rewrite He.
Qed.

Lemma restore_records_loop env now rs :
  forall m,
  exists m1,
    for_each (fun record => createEntryForRecord env now record true) rs m = Ok tt m1 /\
    (forall k, map_at k (_isolatedHardwares m) <> None ->
               map_at k (_isolatedHardwares m1) <> None) /\
    (forall r, In r rs -> restorable env r ->
               map_at (recordId r) (_isolatedHardwares m1) <> None).
Proof.
  induction rs as [|r rs IH]; intro m.
  - exists m. split; [reflexivity|]. split; [auto | intros r []].
  - destruct (createEntryForRecord_restore_run env now r m) as (m0 & Hrun & Hkeep & Hnew).
    destruct (IH m0) as (m1 & Hrun1 & Hkeep1 & Hnew1).
    exists m1. cbn [for_each]. rewrite bind_run, Hrun. split; [exact Hrun1|]. split.
    + intros k Hk. now apply Hkeep1, Hkeep.
    + intros r' [<-|Hin] Hr; [now apply Hkeep1, Hnew | now apply Hnew1].
Qed.

(** X12. Restore returns when every file name of the entry directory is a
    number: no record, whatever the collaborators answer or throw for it,
    makes restore fail.  Afterwards every valid record of the guard store
    that can be turned into an entry has its record id as a key of the map,
    no key that was in the map is lost, and every eco core that is kept is
    the entity path of some entry. *)
Theorem restore_returns_when_file_names_are_numbers env now records files m :
  (forall file, In file files -> exists n, stoul file = inr n) ->
  exists m',
    restore env now records files m = Ok tt m' /\
    (forall r, In r records -> isValidRecord (recordId r) = true ->
       restorable env r -> map_at (recordId r) (_isolatedHardwares m') <> None) /\
    (forall k, map_at k (_isolatedHardwares m) <> None ->
               map_at k (_isolatedHardwares m') <> None) /\
    eco_cores_carried m'.
Proof.
  intro Hall. unfold restore. rewrite bind_run.
  destruct (restore_records_loop env now
              (filter (fun record => isValidRecord (recordId record)) records) m)
    as (m1 & -> & Hkeep & Hnew).
  unfold cleanupPersistedFiles. rewrite bind_run.
  rewrite (cleanupPersistedFiles_loop files m1 Hall).
  destruct (cleanupPersistedEcoCores_ecoCores env
              (with_trace
                 (trace m1 ++
                  map EvEntryFileRemove (stale_files (_isolatedHardwares m1) files))
                 m1))
    as (m' & Hrun & He & Hs).
  exists m'. split; [exact Hrun|]. fields_in He. rewrite He. split; [|split].
  - intros r Hin Hvalid Hr. apply Hnew; [|exact Hr].
    apply filter_In. now split.
  - exact Hkeep.
  - exact (cleanupPersistedEcoCores_carried env _ m' Hrun).
Qed.

Lemma restore_returns_when_file_names_are_numbers_witness :
  exists m',
    restore Samples.envOn 200 [Samples.recordP 1; Samples.recordQ 0xFFFFFFFF]
      ["1"; "7"]%string manager0 = Ok tt m' /\
    map_at 1 (_isolatedHardwares m') <> None /\
    eco_cores_carried m'.
Proof.
  assert (Hall : forall file, In file ["1"; "7"]%string -> exists n, stoul file = inr n).
  { intros file [<-|[<-|[]]]; eexists; vm_compute; reflexivity. }
  destruct (restore_returns_when_file_names_are_numbers Samples.envOn 200
              [Samples.recordP 1; Samples.recordQ 0xFFFFFFFF] ["1"; "7"]%string
              manager0 Hall)
    as (m' & Hrun & Hnew & _ & Heco).
  exists m'. split; [exact Hrun|]. split; [|exact Heco].
  apply (Hnew (Samples.recordP 1)); [now left | reflexivity|].
  split; [|split; [|split]].
  - intros ecoCore. vm_compute. discriminate.
  - eexists. vm_compute. reflexivity.
  - vm_compute. discriminate.
  - reflexivity.
Defined.

(** X13. A reconciliation pass that returns and did not take the branch for
    an empty snapshot leaves only eco cores that are the entity path of some
    entry. *)
Theorem reconciliation_leaves_carried_eco_cores env now records m m' :
  records <> [] \/ _isolatedHardwares m = [] ->
  handleHostIsolatedHardwares env now records m = Ok tt m' ->
  eco_cores_carried m'.
Proof.
  intros Hbranch. rewrite handleHostIsolatedHardwares_run.
  destruct (_timerObjs m) as [|t q]; [discriminate|].
  unfold reconcile. rewrite bind_run. unfold get. cbv beta iota. fields.
  assert (Hdiff : forall ks m0,
    bind (for_each (reconcileEntry env now records) ks)
      (fun _ =>
         bind (for_each (createEntryIfNotExists env now)
                 (filter (fun record => isValidRecord (recordId record)) records))
           (fun _ => cleanupPersistedEcoCores env)) m0 = Ok tt m' ->
    eco_cores_carried m').
  { intros ks m0. rewrite bind_run.
    destruct (for_each (reconcileEntry env now records) ks m0) as [[] m1| |];
      [|discriminate|discriminate].
    rewrite bind_run.
    destruct (for_each (createEntryIfNotExists env now) _ m1) as [[] m2| |];
      [|discriminate|discriminate].
    apply cleanupPersistedEcoCores_carried. }
  destruct records as [|r records]; [|apply Hdiff].
  destruct Hbranch as [H|H]; [now elim H|]. rewrite H. apply Hdiff.
Qed.

Lemma reconciliation_leaves_carried_eco_cores_witness :
  exists m',
    handleHostIsolatedHardwares Samples.envOn 200 [Samples.recordQ 2]
      (with_persistedEcoCores [Samples.pathP; Samples.pathQ] Samples.managerPQ)
      = Ok tt m' /\
    eco_cores_carried m'.
Proof.
  eexists. split; [vm_compute; reflexivity|].
  apply (reconciliation_leaves_carried_eco_cores Samples.envOn 200 [Samples.recordQ 2]
           (with_persistedEcoCores [Samples.pathP; Samples.pathQ] Samples.managerPQ)).
  - left. discriminate.
  - vm_compute. reflexivity.
Defined.

(** X14. What a reconciliation pass that returns has achieved on a
    well-formed entry map.  Every entry left in the map is settled: one
    without a valid record for its hardware is resolved, one with exactly one
    valid record has the severity and the associations that the record
    gives, unless the collaborators had no answer for it.  And every valid
    record of the snapshot is done: an entry carries its entity path, or its
    record id is a key of the map, or no entry could be made of it. *)
Theorem reconciled_map_agrees_with_the_snapshot env now records m m' :
  well_formed m ->
  handleHostIsolatedHardwares env now records m = Ok tt m' ->
  all_settled env records m' /\
  (forall r, In r records -> isValidRecord (recordId r) = true ->
     creation_done env (_isolatedHardwares m') r).
Proof.
  intros Hwf. rewrite handleHostIsolatedHardwares_run.
  destruct (_timerObjs m) as [|t q]; [discriminate|]. intro Hrun.
  destruct (reconcile_settles env now records (with_timerObjs q m) m'
              (well_formed_timers q m Hwf) Hrun) as (_ & Hsettled & Hdone & _).
  now split.
Qed.

Lemma reconciled_map_agrees_with_the_snapshot_witness :
  exists m',
    handleHostIsolatedHardwares Samples.envOn 200
      [mkGuardRecord 1 Samples.pathP 0 0xE6; Samples.recordQ 2] Samples.managerPQ
      = Ok tt m' /\
    all_settled Samples.envOn
      [mkGuardRecord 1 Samples.pathP 0 0xE6; Samples.recordQ 2] m' /\
    map_at 1 (_isolatedHardwares m') =
      Some (mkEntry 1 Warning false (associationDeftoHw Samples.core0 "")
              Samples.pathP 200).
Proof.
  assert (Hwf : well_formed Samples.managerPQ).
  { split; cbn; repeat constructor; lia. }
  eexists. split; [vm_compute; reflexivity|]. split; [|vm_compute; reflexivity].
  apply (reconciled_map_agrees_with_the_snapshot Samples.envOn 200
           [mkGuardRecord 1 Samples.pathP 0 0xE6; Samples.recordQ 2]
           Samples.managerPQ _ Hwf).
  vm_compute. reflexivity.
Defined.

(** ** One entry per hardware *)

Lemma distinct_paths_erase k h : distinct_paths h -> distinct_paths (map_erase k h).
Proof.
  intros Hd k1 k2 e1 e2. rewrite !map_at_map_erase.
  destruct (k1 =? k); [discriminate|]. destruct (k2 =? k); [discriminate|].
  apply Hd.
Qed.

Lemma distinct_paths_set k e e' h :
  map_at k h = Some e -> getEntityPath e' = getEntityPath e ->
  distinct_paths h -> distinct_paths (map_set k e' h).
Proof.
  intros Hat Hp Hd k1 k2 e1 e2. rewrite !map_at_map_set, Hat.
  destruct (Z.eqb_spec k1 k) as [->|H1]; destruct (Z.eqb_spec k2 k) as [->|H2];
    intros [= <-] || intros E1; intros [= <-] || intros E2; intro Heq.
  - reflexivity.
  - apply (Hd k k2 e e2 Hat E2). congruence.
  - apply (Hd k1 k e1 e E1 Hat). congruence.
  - now apply (Hd k1 k2 e1 e2).
Qed.

Lemma not_shared_path r h k e :
  shares_path r h = false -> map_at k h = Some e -> getEntityPath e <> targetId r.
Proof.
  intros Hs Hat Heq. apply map_at_In in Hat.
  assert (H : shares_path r h = true); [|congruence].
  apply existsb_exists. exists (k, e). split; [exact Hat|].
  cbn [snd]. rewrite Heq. apply path_eqb_refl.
Qed.

Lemma distinct_paths_insert r e h :
  StronglySorted Z.lt (map_keys h) ->
  shares_path r h = false -> getEntityPath e = targetId r ->
  distinct_paths h -> distinct_paths (map_insert (recordId r) e h).
Proof.
  intros Hs Hsh Hp Hd.
  destruct (map_at (recordId r) h) as [e0|] eqn:Hat.
  - now rewrite (map_insert_present _ e e0 h Hs Hat).
  - intros k1 k2 e1 e2 E1 E2 Heq.
    destruct (Z.eq_dec k1 (recordId r)) as [->|H1];
      destruct (Z.eq_dec k2 (recordId r)) as [->|H2]; [reflexivity| | |].
    + rewrite map_at_map_insert_absent in E1 by exact Hat. injection E1 as <-.
      rewrite map_at_map_insert_other in E2 by exact H2.
      exfalso. apply (not_shared_path r h k2 e2 Hsh E2). congruence.
    + rewrite map_at_map_insert_absent in E2 by exact Hat. injection E2 as <-.
      rewrite map_at_map_insert_other in E1 by exact H1.
      exfalso. apply (not_shared_path r h k1 e1 Hsh E1). congruence.
    + rewrite map_at_map_insert_other in E1 by exact H1.
      rewrite map_at_map_insert_other in E2 by exact H2.
      now apply (Hd k1 k2 e1 e2).
Qed.

Lemma reconcileEntry_shape env now records k e m m1 :
  well_formed m ->
  map_at k (_isolatedHardwares m) = Some e ->
  final (reconcileEntry env now records k m) = Some m1 ->
  _isolatedHardwares m1 = _isolatedHardwares m \/
  _isolatedHardwares m1 = map_erase k (_isolatedHardwares m) \/
  exists e', getEntityPath e' = getEntityPath e /\
             _isolatedHardwares m1 = map_set k e' (_isolatedHardwares m).
Proof.
  intros Hwf Hat.
  pose proof (well_formed_entry_id k e m Hwf Hat) as Hid.
  rewrite (reconcileEntry_cases env now records k e m Hat).
  destruct (valid_matches records e) as [|r [|r2 rs]].
  - rewrite (resolveEntry_run env k false e m Hat Hid).
    destruct (resolved e); [intros [= <-]; now left|].
    destruct (resolveEntry_fails env k false); [intros [= <-]; now left|].
    intros [= <-]. right. now left.
  - pose proof (updateEntryForRecord_run env now r k e m Hat) as Hupd.
    destruct (record_view env r) as [ex|[[[inv bmc] sev]|]];
      destruct Hupd as (m' & -> & Hentries); intros [= <-]; [now left| |now left].
    right. right. eexists. split; [|exact Hentries].
    apply (stamped_fields now sev (associationDeftoHw inv bmc) e).
  - unfold log. rewrite emit_run. intros [= <-]. now left.
Qed.

Lemma distinct_paths_reconcileEntry env now records k e m m1 :
  well_formed m ->
  map_at k (_isolatedHardwares m) = Some e ->
  final (reconcileEntry env now records k m) = Some m1 ->
  distinct_paths (_isolatedHardwares m) -> distinct_paths (_isolatedHardwares m1).
Proof.
  intros Hwf Hat Hrun Hd.
  destruct (reconcileEntry_shape env now records k e m m1 Hwf Hat Hrun)
    as [->|[->|(e' & Hp & ->)]].
  - exact Hd.
  - now apply distinct_paths_erase.
  - now apply distinct_paths_set with e.
Qed.

Lemma reconcile_loop_distinct env now records ks :
  forall m m1,
  well_formed m -> distinct_paths (_isolatedHardwares m) -> NoDup ks ->
  (forall k, In k ks -> map_at k (_isolatedHardwares m) <> None) ->
  final (for_each (reconcileEntry env now records) ks m) = Some m1 ->
  well_formed m1 /\ distinct_paths (_isolatedHardwares m1).
Proof.
  induction ks as [|k ks IH]; intros m m1 Hwf Hd Hnd Hpres.
  - intros [= <-]. now split.
  - apply NoDup_cons_iff in Hnd as [Hnotin Hnd].
    destruct (map_at k (_isolatedHardwares m)) as [e|] eqn:Hat;
      [|exfalso; apply (Hpres k); [now left | exact Hat]].
    cbn [for_each]. rewrite bind_run.
    assert (Hkeep : forall m0,
              final (reconcileEntry env now records k m) = Some m0 ->
              well_formed m0 /\ distinct_paths (_isolatedHardwares m0)).
    { intros m0 H0. split.
      - apply (keeps_final well_formed (reconcileEntry env now records k) m m0);
          [|exact Hwf|exact H0].
        apply keeps_reconcileEntry; solve_well_formed.
      - now apply (distinct_paths_reconcileEntry env now records k e m m0). }
    destruct (reconcileEntry env now records k m) as [[] m0|ex m0|] eqn:Hstep;
      [|intros [= <-]; now apply Hkeep|discriminate].
    destruct (Hkeep m0 eq_refl) as [Hwf0 Hd0].
    destruct (reconcileEntry_step env now records k m m0 Hwf Hstep) as [Hother _].
    apply IH; [exact Hwf0 | exact Hd0 | exact Hnd|].
    intros k' Hin. rewrite Hother; [apply Hpres; now right|].
    intros ->. contradiction.
Qed.

Lemma creation_loop_distinct env now rs :
  forall m m1,
  well_formed m -> distinct_paths (_isolatedHardwares m) ->
  final (for_each (createEntryIfNotExists env now) rs m) = Some m1 ->
  well_formed m1 /\ distinct_paths (_isolatedHardwares m1).
Proof.
  induction rs as [|r rs IH]; intros m m1 Hwf Hd.
  - intros [= <-]. now split.
  - cbn [for_each]. rewrite bind_run.
    assert (Hstep : exists m0,
              createEntryIfNotExists env now r m = Ok tt m0 /\
              well_formed m0 /\ distinct_paths (_isolatedHardwares m0)).
    { unfold createEntryIfNotExists. rewrite bind_run. unfold get. cbv beta iota.
      fold (shares_path r (_isolatedHardwares m)).
      destruct (shares_path r (_isolatedHardwares m)) eqn:Hsh;
        [exists m; now split|].
      destruct (createEntryForRecord_run env now r m) as (m0 & Hrun & Hentries).
      exists m0. split; [exact Hrun|]. split.
      - apply (keeps_final well_formed (createEntryForRecord env now r false) m m0);
          [|exact Hwf|now rewrite Hrun].
        apply keeps_createEntryForRecord with (okKey := fun _ => True);
          first [solve_well_formed | exact Logic.I].
      - rewrite Hentries.
        destruct (record_view env r) as [ex|[[[inv bmc] sev]|]]; try exact Hd.
        destruct (Entry_constructs env (recordId r)); [|exact Hd].
        apply distinct_paths_insert; [apply Hwf | exact Hsh | reflexivity | exact Hd]. }
    destruct Hstep as (m0 & -> & Hwf0 & Hd0). now apply IH.
Qed.

(** X15. One entry per hardware is kept by the reconciliation: if no two
    entries of a well-formed map carry the same entity path before the
    handler of the record file runs, no two do after it, whether it returns
    or throws. *)
Theorem reconciliation_keeps_one_entry_per_hardware env now records m m' :
  well_formed m ->
  distinct_paths (_isolatedHardwares m) ->
  final (handleHostIsolatedHardwares env now records m) = Some m' ->
  distinct_paths (_isolatedHardwares m').
Proof.
  intros Hwf Hd. rewrite handleHostIsolatedHardwares_run.
  destruct (_timerObjs m) as [|t q]; [discriminate|].
  pose proof (well_formed_timers q m Hwf) as Hwf0.
  set (m0 := with_timerObjs q m) in *.
  assert (Hd0 : distinct_paths (_isolatedHardwares m0)) by exact Hd.
  clearbody m0. clear Hwf Hd.
  unfold reconcile. rewrite bind_run. unfold get. cbv beta iota.
  assert (Hdiff :
    final (bind (for_each (reconcileEntry env now records)
                   (map_keys (_isolatedHardwares m0)))
             (fun _ =>
                bind (for_each (createEntryIfNotExists env now)
                        (filter (fun record => isValidRecord (recordId record)) records))
                  (fun _ => cleanupPersistedEcoCores env)) m0) = Some m' ->
    distinct_paths (_isolatedHardwares m')).
  { rewrite bind_run.
    pose proof (reconcile_loop_distinct env now records
                  (map_keys (_isolatedHardwares m0)) m0) as Hloop.
    destruct (for_each (reconcileEntry env now records) _ m0) as [[] m1|ex m1|];
      [| |discriminate].
    2:{ intros [= <-]. apply (Hloop m1); auto.
        - apply sorted_keys_NoDup, Hwf0.
        - intros k Hin. apply map_at_key in Hin as [e He]. congruence. }
    destruct (Hloop m1 Hwf0 Hd0) as [Hwf1 Hd1]; [| |reflexivity|].
    { apply sorted_keys_NoDup, Hwf0. }
    { intros k Hin. apply map_at_key in Hin as [e He]. congruence. }
    rewrite bind_run.
    pose proof (creation_loop_distinct env now
                  (filter (fun record => isValidRecord (recordId record)) records)
                  m1) as Hloop2.
    destruct (for_each (createEntryIfNotExists env now) _ m1) as [[] m2|ex m2|];
      [| |discriminate].
    2:{ intros [= <-]. now apply (Hloop2 m2). }
    destruct (Hloop2 m2 Hwf1 Hd1 eq_refl) as [_ Hd2].
    destruct (cleanupPersistedEcoCores_ecoCores env m2) as (m3 & -> & He & _).
    intros [= <-]. now rewrite He. }
  assert (Hres : exists m1, resolveAllEntries env false m0 = Ok tt m1).
  { destruct (resolveAllEntries_loop_any env false
                (map_keys (_isolatedHardwares m0)) m0 Hwf0)
      as (m1 & evs & Hrun & _).
    - apply sorted_keys_NoDup, Hwf0.
    - intros k Hin. apply map_at_key in Hin as [e He]. congruence.
    - exists m1. unfold resolveAllEntries. rewrite bind_run. unfold get.
      cbv beta iota. exact Hrun. }
  destruct records as [|r records]; [|exact Hdiff].
  destruct (_isolatedHardwares m0) as [|kv h]; [exact Hdiff|].
  rewrite bind_run. destruct Hres as (m1 & ->). cbn. intros [= <-].
  intros k1 k2 e1 e2. discriminate.
Qed.

Lemma reconciliation_keeps_one_entry_per_hardware_witness :
  distinct_paths (_isolatedHardwares Samples.managerPQ) /\
  exists m',
    final (handleHostIsolatedHardwares Samples.envOn 200
             [Samples.recordP 9; Samples.recordQ 2] Samples.managerPQ) = Some m' /\
    map_keys (_isolatedHardwares m') = [1; 2] /\
    distinct_paths (_isolatedHardwares m').
Proof.
  assert (Hwf : well_formed Samples.managerPQ).
  { split; cbn; repeat constructor; lia. }
  assert (Hd : distinct_paths (_isolatedHardwares Samples.managerPQ)).
  { intros k1 k2 e1 e2 E1 E2 Heq. unfold Samples.managerPQ in E1, E2.
    cbn [_isolatedHardwares map_at] in E1, E2.
    destruct (Z.eqb_spec 1 k1) as [<-|];
      [injection E1 as <-
      |destruct (Z.eqb_spec 2 k1) as [<-|]; [injection E1 as <-|discriminate E1]];
      (destruct (Z.eqb_spec 1 k2) as [<-|];
       [injection E2 as <-
       |destruct (Z.eqb_spec 2 k2) as [<-|]; [injection E2 as <-|discriminate E2]]);
      first [reflexivity | discriminate Heq]. }
  split; [exact Hd|].
  eexists. split; [vm_compute; reflexivity|]. split; [vm_compute; reflexivity|].
  apply (reconciliation_keeps_one_entry_per_hardware Samples.envOn 200
           [Samples.recordP 9; Samples.recordQ 2] Samples.managerPQ _ Hwf Hd).
  vm_compute. reflexivity.
Defined.

(** ** A request rejected after the eco cores were updated *)

(** X16. [createWithEntityPath] updates the eco cores before it has checked
    the error log.  A call that passes the policy gate and the catalog lookup
    but whose error log cannot be resolved to an event id throws
    InvalidArgument with the entry map and the guard store untouched, yet the
    eco-core set has been changed as the catalog said (the path added for an
    eco core, removed otherwise) and the eco cores file rewritten to match. *)
Theorem rejected_request_has_updated_the_eco_cores env now path sev elog inv eco m :
  gate_open env sev ->
  getInventoryPath env path false = Some (inv, eco) ->
  getDBusServiceName env = inl SdBusError \/
  (exists service logId,
     getDBusServiceName env = inr service /\
     stoi (filename env elog) = inr logId /\
     GetPELIdFromBMCLogId env service (logId mod UINT32_MOD) = inl SdBusError) ->
  exists m',
    createWithEntityPath env now path sev elog m = Throw InvalidArgument m' /\
    quiet m m' /\
    _persistedEcoCores m' = ecoCores_after eco path (_persistedEcoCores m) /\
    eco_file_synced env m'.
Proof.
  intros Hgate Hinv Hfail. unfold createWithEntityPath.
  rewrite bind_run, (isHwIsolationAllowed_open _ _ _ Hgate).
  rewrite bind_run, emit_run, Hinv. cbv beta iota.
  rewrite bind_run, updateEcoCoresList_run.
  rewrite bind_run, (getEID_remote_failure _ _ _ Hfail).
  run_steps. eexists. split; [reflexivity|]. fields. split; [|split].
  - split; [reflexivity|]. fields.
    exists (EvGetInventoryPath path false
              :: serialize_events env (ecoCores_after eco path (_persistedEcoCores m))
              ++ [EvLog (LogGetEIDFailed elog); EvLog (LogInvalidBmcErrorLog elog)]).
    split; [now rewrite <- !app_assoc|].
    cbn [forallb is_guard_store_event negb andb]. rewrite forallb_app.
    cbn [forallb is_guard_store_event negb andb]. rewrite andb_true_r.
    unfold serialize_events.
    destruct (ecoCores_after eco path (_persistedEcoCores m)) as [|q s]; [reflexivity|].
    now destruct (archive_writes env (q :: s)).
  - reflexivity.
  - unfold eco_file_synced. fields.
    rewrite <- (app_assoc _ [EvLog (LogGetEIDFailed elog)]).
    rewrite ecoFile_after_quiet by reflexivity.
    apply ecoFile_after_serialize.
Qed.

Lemma rejected_request_has_updated_the_eco_cores_witness :
  exists m',
    createWithEntityPath Samples.envOn 200 Samples.pathP Critical
      "/xyz/openbmc_project/logging/entry/8"
      (with_persistedEcoCores [Samples.pathP] Samples.managerPQ)
      = Throw InvalidArgument m' /\
    _isolatedHardwares m' = _isolatedHardwares Samples.managerPQ /\
    _persistedEcoCores m' = [].
Proof.
  assert (Hgate : gate_open Samples.envOn Critical).
  { split; [reflexivity | discriminate]. }
  assert (Hinv : getInventoryPath Samples.envOn Samples.pathP false
                 = Some (Samples.core0, false)) by (vm_compute; reflexivity).
  assert (Hfail :
    getDBusServiceName Samples.envOn = inl SdBusError \/
    (exists service logId,
       getDBusServiceName Samples.envOn = inr service /\
       stoi (filename Samples.envOn "/xyz/openbmc_project/logging/entry/8")
         = inr logId /\
       GetPELIdFromBMCLogId Samples.envOn service (logId mod UINT32_MOD)
         = inl SdBusError)).
  { right. exists "xyz.openbmc_project.Logging"%string, 8.
    repeat split; vm_compute; reflexivity. }
  destruct (rejected_request_has_updated_the_eco_cores Samples.envOn 200 Samples.pathP
              Critical "/xyz/openbmc_project/logging/entry/8" Samples.core0 false
              (with_persistedEcoCores [Samples.pathP] Samples.managerPQ)
              Hgate Hinv Hfail)
    as (m' & Hrun & [He _] & Hs & _).
  exists m'. split; [exact Hrun|]. split; [exact He|].
  rewrite Hs. vm_compute. reflexivity.
Defined.

(** ** Membership in the eco cores *)

Lemma path_eqb_sym a b : path_eqb a b = path_eqb b a.
Proof.
  destruct (path_eqb a b) eqn:H.
  - apply path_eqb_eq in H. subst. symmetry. apply path_eqb_refl.
  - destruct (path_eqb b a) eqn:H'; [|reflexivity].
    apply path_eqb_eq in H'. subst. now rewrite path_eqb_refl in H.
Qed.

Lemma set_contains_set_emplace q p s :
  set_contains q (set_emplace p s) = path_eqb q p || set_contains q s.
Proof.
  unfold set_contains. induction s as [|a s IH].
  - reflexivity.
  - change (set_emplace p (a :: s))
      with (if path_ltb p a then p :: a :: s
            else if path_eqb p a then a :: s else a :: set_emplace p s).
    destruct (path_ltb p a); [reflexivity|].
    destruct (path_eqb p a) eqn:Hpa.
    + apply path_eqb_eq in Hpa. subst a. cbn [existsb].
      now destruct (path_eqb q p).
    + cbn [existsb]. rewrite IH.
      destruct (path_eqb q a), (path_eqb q p); reflexivity.
Qed.

Lemma set_contains_set_erase_other q p s :
  q <> p -> set_contains q (set_erase p s) = set_contains q s.
Proof.
  intro Hne. unfold set_contains, set_erase.
  induction s as [|a s IH]; [reflexivity|]. cbn [filter existsb].
  destruct (path_eqb a p) eqn:Hap; cbn [negb existsb]; rewrite IH; [|reflexivity].
  apply path_eqb_eq in Hap. subst a.
  destruct (path_eqb q p) eqn:Hqp; [|reflexivity].
  apply path_eqb_eq in Hqp. contradiction.
Qed.

(** X17. [updateEcoCoresList] always returns.  Afterwards the path is among
    the eco cores exactly when the flag [ecoCore] was set, the membership of
    every other path is as before, the entries and the timers are untouched,
    and the eco cores file matches the new set: written with it, or removed
    when the set is empty or the archive could not be written. *)
Theorem updateEcoCoresList_sets_membership env ecoCore p m :
  exists m',
    updateEcoCoresList env ecoCore p m = Ok tt m' /\
    set_contains p (_persistedEcoCores m') = ecoCore /\
    (forall q, q <> p ->
       set_contains q (_persistedEcoCores m') = set_contains q (_persistedEcoCores m)) /\
    _isolatedHardwares m' = _isolatedHardwares m /\
    _timerObjs m' = _timerObjs m /\
    eco_file_synced env m'.
Proof.
  rewrite updateEcoCoresList_run. eexists. split; [reflexivity|]. fields.
  unfold ecoCores_after. split; [|split; [|split; [reflexivity|split; [reflexivity|]]]].
  - destruct ecoCore.
    + now rewrite set_contains_set_emplace, path_eqb_refl.
    + apply set_contains_set_erase.
  - intros q Hne. destruct ecoCore.
    + rewrite set_contains_set_emplace.
      destruct (path_eqb q p) eqn:Hqp; [|reflexivity].
      apply path_eqb_eq in Hqp. contradiction.
    + now apply set_contains_set_erase_other.
  - unfold eco_file_synced. fields. apply ecoFile_after_serialize.
Qed.

(** ** What createEntry does to the map *)

(** X6. Whatever [createEntry] answers, it changes the entry map by one
    [std::map::insert] at most.  When the entry object can be constructed,
    the map holds under the record id the entry it already had or else the
    new one (the insert does not overwrite); when the constructor throws, the
    map is as it was.  No other key, no eco core and no timer changes, and the
    only call into the guard store the call can make is to clear its own
    record, and only when [deleteRecord] is set. *)
Theorem createEntry_changes_the_map_by_insert_only
  env now id res sev hw elog del path m m' :
  well_formed m ->
  final (createEntry env now id res sev hw elog del path m) = Some m' ->
  map_at id (_isolatedHardwares m') =
    (if Entry_constructs env id
     then Some (match map_at id (_isolatedHardwares m) with
                | Some e => e
                | None => mkEntry id sev res (associationDeftoHw hw elog) path now
                end)
     else map_at id (_isolatedHardwares m)) /\
  (forall k, k <> id ->
     map_at k (_isolatedHardwares m') = map_at k (_isolatedHardwares m)) /\
  _persistedEcoCores m' = _persistedEcoCores m /\
  _timerObjs m' = _timerObjs m /\
  exists evs,
    trace m' = trace m ++ evs /\
    (forall ev, In ev (guard_writes evs) -> del = true /\ ev = EvGuardClear id).
Proof.
  intros [Hs _]. unfold createEntry, try_catch.
  destruct (Entry_constructs env id); run_steps.
  - intros [= <-]. fields. split; [now apply map_at_map_insert_sorted|].
    split; [intros k Hk; now apply map_at_map_insert_other|].
    split; [reflexivity|]. split; [reflexivity|].
    exists [EvSetEnabledProperty hw res]. split; [reflexivity|]. intros ev [].
  - cbn [catches_std_exception]. run_steps. destruct del; run_steps;
      intros [= <-]; fields; (split; [reflexivity|]); (split; [reflexivity|]);
      (split; [reflexivity|]); (split; [reflexivity|]).
    + exists [EvLog LogCreateEntryFailed; EvGuardClear id].
      split; [now rewrite <- app_assoc|]. intros ev [<-|[]]. now split.
    + exists [EvLog LogCreateEntryFailed]. split; [reflexivity|]. intros ev [].
Qed.

Lemma createEntry_changes_the_map_by_insert_only_witness :
  exists m',
    final (createEntry Samples.envOn 200 1 false Warning Samples.core1 ""%string true
             Samples.pathQ Samples.managerPQ) = Some m' /\
    map_at 1 (_isolatedHardwares m') = Some (Samples.entryP 1) /\
    map_at 2 (_isolatedHardwares m') = Some (Samples.entryQ 2).
Proof.
  assert (Hwf : well_formed Samples.managerPQ).
  { split; cbn; repeat constructor; lia. }
  eexists. split; [vm_compute; reflexivity|].
  split.
  - refine (proj1 (createEntry_changes_the_map_by_insert_only Samples.envOn 200 1 false
                     Warning Samples.core1 ""%string true Samples.pathQ
                     Samples.managerPQ _ Hwf _)).
    vm_compute. reflexivity.
  - vm_compute. reflexivity.
Defined.

(** ** The sentinel record id and the create calls *)

Lemma find_entry_no_sentinel path m :
  no_sentinel m -> find_entry 0xFFFFFFFF path (_isolatedHardwares m) = None.
Proof.
  intro Hm. unfold find_entry.
  destruct (find _ (_isolatedHardwares m)) as [[k e]|] eqn:Hf; [|reflexivity].
  apply find_some in Hf as [Hin Hp]. cbn [snd] in Hp.
  apply andb_true_iff in Hp as [_ Hid]. apply Z.eqb_eq in Hid.
  now destruct (Hm k e Hin) as [_ Hne].
Qed.

(** C5, as the code has it.  Restore and the run-time reconciliation keep
    the entry map free of the sentinel record id 0xFFFFFFFF, as a key and as
    the record id of a stored entry: both pass only the records that
    [isValidRecord] accepts on to the creation of entries.  The three create
    calls have no such filter: they store the entry under the id of the
    record the guard store has just created, whatever that id is.  So they
    keep the map free of the sentinel when the guard store hands out valid
    ids, and a call that is given the sentinel id by the store puts an entry
    under it. *)
Theorem sentinel_never_in_the_map :
  forall env now m,
  no_sentinel m ->
  (forall records files m',
     final (restore env now records files m) = Some m' -> no_sentinel m') /\
  (forall records m',
     final (handleHostIsolatedHardwares env now records m) = Some m' ->
     no_sentinel m') /\
  ((forall p eId t r,
      guard_create env p eId t = inr r -> isValidRecord (recordId r) = true) ->
   forall hw path sev elog m',
     final (create env now hw sev m) = Some m' \/
     final (createWithErrorLog env now hw sev elog m) = Some m' \/
     final (createWithEntityPath env now path sev elog m) = Some m' ->
     no_sentinel m') /\
  (forall sev rec,
     gate_open env sev ->
     Entry_constructs env (recordId rec) = true ->
     recordId rec = 0xFFFFFFFF ->
     (forall hw phys gt,
        getPhysicalPath env hw = Some phys ->
        getGuardType env sev = Some gt ->
        guard_create env (EntityPath_of_raw phys) 0 gt = inr rec ->
        exists p m',
          create env now hw sev m = Ok p m' /\
          map_at 0xFFFFFFFF (_isolatedHardwares m') <> None) /\
     (forall hw elog phys eid gt,
        getPhysicalPath env hw = Some phys ->
        getEID_answers env elog eid ->
        getGuardType env sev = Some gt ->
        guard_create env (EntityPath_of_raw phys) eid gt = inr rec ->
        exists p m',
          createWithErrorLog env now hw sev elog m = Ok p m' /\
          map_at 0xFFFFFFFF (_isolatedHardwares m') <> None) /\
     (forall path elog inv eco eid gt,
        getInventoryPath env path false = Some (inv, eco) ->
        getEID_answers env elog eid ->
        getGuardType env sev = Some gt ->
        guard_create env (EntityPath_of_raw path) eid gt = inr rec ->
        exists p m',
          createWithEntityPath env now path sev elog m = Ok p m' /\
          map_at 0xFFFFFFFF (_isolatedHardwares m') <> None)).
Proof.
  intros env now m Hm.
  split; [|split; [|split]].
  - intros records files m'. apply keeps_final; [|exact Hm].
    apply keeps_restore with (okKey := fun k => isValidRecord k = true);
      solve_no_sentinel.
  - intros records m'. rewrite handleHostIsolatedHardwares_run.
    destruct (_timerObjs m) as [|t q]; [discriminate|].
    apply keeps_final; [|now apply no_sentinel_timers].
    apply keeps_reconcile with (okKey := fun k => isValidRecord k = true);
      solve_no_sentinel.
  - intros Hstore hw path sev elog m' [H|[H|H]]; revert H;
      (apply keeps_final; [|exact Hm]).
    + apply keeps_create with (okKey := fun k => isValidRecord k = true);
        solve_no_sentinel.
    + apply keeps_createWithErrorLog with (okKey := fun k => isValidRecord k = true);
        solve_no_sentinel.
    + apply keeps_createWithEntityPath with (okKey := fun k => isValidRecord k = true);
        solve_no_sentinel.
  - intros sev rec Hgate Hctor Hid.
    assert (Hend : forall hw elog m1,
              _isolatedHardwares m1 = _isolatedHardwares m ->
              exists p m',
                updateOrCreateEntry env now rec sev hw elog m1 = Ok p m' /\
                map_at 0xFFFFFFFF (_isolatedHardwares m') <> None).
    { intros hw elog m1 He. unfold updateOrCreateEntry.
      rewrite bind_run, updateEntry_run, He, Hid, (find_entry_no_sentinel _ m Hm).
      cbn [fst snd]. rewrite bind_run. unfold createEntry, try_catch.
      rewrite Hid in Hctor. rewrite Hctor. run_steps.
      eexists _, _. split; [reflexivity|]. fields.
      apply map_at_map_insert_same. }
    split; [|split].
    + intros hw phys gt Hphys Hgt Hcreate.
      unfold create. rewrite bind_run, (isHwIsolationAllowed_open _ _ _ Hgate).
      rewrite bind_run, emit_run, Hphys, Hgt. cbv beta iota. rewrite bind_run.
      rewrite (openpower_guard_create_run _ _ _ _ _ _ Hcreate).
      now apply Hend.
    + intros hw elog phys eid gt Hphys Heid Hgt Hcreate.
      unfold createWithErrorLog.
      rewrite bind_run, (isHwIsolationAllowed_open _ _ _ Hgate).
      rewrite bind_run, emit_run, Hphys. cbv beta iota.
      rewrite bind_run, (getEID_run_answer _ _ _ _ Heid), Hgt. rewrite bind_run.
      rewrite (openpower_guard_create_run _ _ _ _ _ _ Hcreate).
      now apply Hend.
    + intros path elog inv eco eid gt Hinv Heid Hgt Hcreate.
      unfold createWithEntityPath.
      rewrite bind_run, (isHwIsolationAllowed_open _ _ _ Hgate).
      rewrite bind_run, emit_run, Hinv. cbv beta iota.
      rewrite bind_run, updateEcoCoresList_run.
      rewrite bind_run, (getEID_run_answer _ _ _ _ Heid), Hgt. rewrite bind_run.
      rewrite (openpower_guard_create_run _ _ _ _ _ _ Hcreate).
      now apply Hend.
Qed.

Lemma sentinel_never_in_the_map_witness :
  no_sentinel Samples.managerPQ /\
  (exists m',
     final (handleHostIsolatedHardwares Samples.envOn 200
              [Samples.recordP 1; mkGuardRecord 0xFFFFFFFF Samples.pathQ 0 0xE6]
              Samples.managerPQ) = Some m' /\
     no_sentinel m') /\
  (exists m',
     final (create Samples.envOn 200 Samples.core0 Critical manager0) = Some m' /\
     _isolatedHardwares m' <> [] /\
     no_sentinel m') /\
  (exists p m',
     create Samples.envSentinelStore 200 Samples.core0 Critical manager0 = Ok p m' /\
     map_at 0xFFFFFFFF (_isolatedHardwares m') <> None).
Proof.
  assert (HPQ : no_sentinel Samples.managerPQ).
  { intros k e [[= <- <-]|[[= <- <-]|[]]]; split; discriminate. }
  assert (H0 : no_sentinel manager0) by (intros k e []).
  assert (Hgate : gate_open Samples.envSentinelStore Critical).
  { split; [reflexivity | discriminate]. }
  assert (Hphys : getPhysicalPath Samples.envSentinelStore Samples.core0
                  = Some Samples.pathP) by (vm_compute; reflexivity).
  split; [exact HPQ|]. split; [|split].
  - eexists. split; [vm_compute; reflexivity|].
    apply (proj1 (proj2 (sentinel_never_in_the_map Samples.envOn 200 _ HPQ))
             [Samples.recordP 1; mkGuardRecord 0xFFFFFFFF Samples.pathQ 0 0xE6]).
    vm_compute. reflexivity.
  - eexists. split; [vm_compute; reflexivity|]. split; [discriminate|].
    apply (proj1 (proj2 (proj2 (sentinel_never_in_the_map Samples.envOn 200 _ H0)))
             ltac:(intros p eId t r [= <-]; reflexivity)
             Samples.core0 [] Critical ""%string).
    left. vm_compute. reflexivity.
  - apply (proj1 (proj2 (proj2 (proj2
             (sentinel_never_in_the_map Samples.envSentinelStore 200 _ H0)))
             Critical (mkGuardRecord 0xFFFFFFFF Samples.pathP 0 0xE3)
             Hgate eq_refl eq_refl)
             Samples.core0 Samples.pathP 0xE3 Hphys); reflexivity.
Defined.

(** C5, as the claim states it, fails for the create calls: no record is
    filtered out there.  With a guard store that hands out the record id
    0xFFFFFFFF, [create] on the empty manager returns the object path of that
    id and leaves an entry stored under it. *)
Lemma create_stores_the_sentinel_id_of_the_store :
  no_sentinel manager0 /\
  exists m',
    create Samples.envSentinelStore 200 Samples.core0 Critical manager0 =
      Ok (entryObjPath Samples.envSentinelStore 0xFFFFFFFF) m' /\
    _isolatedHardwares m' =
      [(0xFFFFFFFF,
        mkEntry 0xFFFFFFFF Critical false (associationDeftoHw Samples.core0 "")
          Samples.pathP 200)] /\
    ~ no_sentinel m'.
Proof.
  split; [intros k e []|].
  eexists. split; [vm_compute; reflexivity|]. split; [reflexivity|].
  intro H. destruct (H 0xFFFFFFFF _ (or_introl eq_refl)) as [Hk _]. now apply Hk.
Qed.

(** ** More than one valid record for the hardware of an entry *)

Lemma no_new_entry_for_refl P m : no_new_entry_for P m m.
Proof. intros k e' Hat Hp. now exists e'. Qed.

Lemma no_new_entry_for_trans P m1 m2 m3 :
  no_new_entry_for P m1 m2 -> no_new_entry_for P m2 m3 -> no_new_entry_for P m1 m3.
Proof.
  intros H12 H23 k e3 Hat Hp.
  destruct (H23 k e3 Hat Hp) as (e2 & Hat2 & Hp2). exact (H12 k e2 Hat2 Hp2).
Qed.

Lemma no_new_entry_for_same P m m' :
  _isolatedHardwares m' = _isolatedHardwares m -> no_new_entry_for P m m'.
Proof. intros He k e' Hat Hp. rewrite He in Hat. now exists e'. Qed.

Lemma trace_grows {A} (c : M A) (m m' : Manager) :
  relates (emitted_only (fun _ => true)) c ->
  final (c m) = Some m' -> exists evs, trace m' = trace m ++ evs.
Proof.
  intros Hc Hf. specialize (Hc m). rewrite Hf in Hc.
  destruct Hc as (evs & Ht & _). now exists evs.
Qed.

Lemma reconcileEntry_trace_grows env now records k m m' :
  final (reconcileEntry env now records k m) = Some m' ->
  exists evs, trace m' = trace m ++ evs.
Proof.
  apply trace_grows.
  apply relates_reconcileEntry with (okEvent := fun _ => true); solve_emitted_only.
Qed.

Lemma createEntryIfNotExists_trace_grows env now r m m' :
  final (createEntryIfNotExists env now r m) = Some m' ->
  exists evs, trace m' = trace m ++ evs.
Proof.
  apply trace_grows.
  apply relates_createEntryIfNotExists with (okEvent := fun _ => true);
    solve_emitted_only.
Qed.

Lemma cleanupPersistedEcoCores_trace_grows env m m' :
  final (cleanupPersistedEcoCores env m) = Some m' ->
  exists evs, trace m' = trace m ++ evs.
Proof.
  apply trace_grows.
  apply relates_cleanupPersistedEcoCores; solve_emitted_only.
Qed.

Lemma reconcileEntry_other_key env now records k0 e0 m m' k P :
  well_formed m ->
  map_at k0 (_isolatedHardwares m) = Some e0 ->
  k <> k0 ->
  final (reconcileEntry env now records k0 m) = Some m' ->
  map_at k (_isolatedHardwares m') = map_at k (_isolatedHardwares m) /\
  no_new_entry_for P m m'.
Proof.
  intros Hwf Hat0 Hne Hrun.
  destruct (reconcileEntry_shape env now records k0 e0 m m' Hwf Hat0 Hrun)
    as [He|[He|(e' & Hp & He)]].
  - split; [now rewrite He | now apply no_new_entry_for_same].
  - split.
    + rewrite He, map_at_map_erase. now destruct (Z.eqb_spec k k0).
    + intros k' e1 Hat Hp. rewrite He, map_at_map_erase in Hat.
      destruct (k' =? k0); [discriminate|]. now exists e1.
  - split.
    + rewrite He, map_at_map_set. now destruct (Z.eqb_spec k k0).
    + intros k' e1 Hat Hp1. rewrite He, map_at_map_set in Hat.
      destruct (Z.eqb_spec k' k0) as [->|Hk'].
      * rewrite Hat0 in Hat. injection Hat as <-.
        exists e0. split; [exact Hat0 | congruence].
      * now exists e1.
Qed.

Lemma violation_entries_loop env now records k e ks :
  forall m,
  well_formed m -> NoDup ks ->
  (forall k', In k' ks -> map_at k' (_isolatedHardwares m) <> None) ->
  map_at k (_isolatedHardwares m) = Some e ->
  (1 < List.length (valid_matches records e))%nat ->
  match for_each (reconcileEntry env now records) ks m with
  | Ok _ m1 =>
      well_formed m1 /\
      map_at k (_isolatedHardwares m1) = Some e /\
      no_new_entry_for (getEntityPath e) m m1 /\
      exists evs,
        trace m1 = trace m ++ evs /\
        (In k ks ->
         In (EvLog (LogMoreThanOneValid
                      (convertEntityPathIntoRawData (getEntityPath e)))) evs)
  | Throw ex m1 =>
      map_at k (_isolatedHardwares m1) = Some e /\
      no_new_entry_for (getEntityPath e) m m1 /\
      exists k' ma mb,
        In k' ks /\ k' <> k /\
        reconcileEntry env now records k' ma = Throw ex mb
  | Undefined => True
  end.
Proof.
  induction ks as [|k0 ks IH]; intros m Hwf Hnd Hpres Hat Hlen.
  - cbn [for_each]. unfold ret. split; [exact Hwf|]. split; [exact Hat|].
    split; [apply no_new_entry_for_refl|]. exists []. rewrite app_nil_r.
    split; [reflexivity | intros []].
  - apply NoDup_cons_iff in Hnd as [Hnotin Hnd].
    cbn [for_each]. rewrite bind_run.
    destruct (Z.eq_dec k0 k) as [->|Hne].
    + rewrite (reconcileEntry_violation env now records k e m Hat Hlen).
      set (v := EvLog (LogMoreThanOneValid
                         (convertEntityPathIntoRawData (getEntityPath e)))).
      specialize (IH (with_trace (trace m ++ [v]) m) Hwf Hnd
                    (fun k' Hin => Hpres k' (or_intror Hin)) Hat Hlen).
      destruct (for_each (reconcileEntry env now records) ks
                  (with_trace (trace m ++ [v]) m)) as [[] m1|ex m1|];
        [| |exact Logic.I].
      * destruct IH as (Hwf1 & Hat1 & Hnew1 & evs & Htr & _).
        split; [exact Hwf1|]. split; [exact Hat1|]. split; [exact Hnew1|].
        exists (v :: evs). split; [|intros _; now left].
        rewrite Htr. fields. now rewrite <- app_assoc.
      * destruct IH as (Hat1 & Hnew1 & k' & ma & mb & Hin & Hk' & Hthrow).
        split; [exact Hat1|]. split; [exact Hnew1|].
        exists k', ma, mb. split; [now right | now split].
    + destruct (map_at k0 (_isolatedHardwares m)) as [e0|] eqn:Hat0;
        [|exfalso; apply (Hpres k0); [now left | exact Hat0]].
      assert (Hkey : k <> k0) by (intro H; now apply Hne).
      pose proof (reconcileEntry_other_key env now records k0 e0 m) as Hother.
      pose proof (reconcileEntry_trace_grows env now records k0 m) as Hgrow.
      destruct (reconcileEntry env now records k0 m) as [[] m0|ex m0|] eqn:Hstep;
        [| |exact Logic.I].
      * destruct (Hother m0 k (getEntityPath e) Hwf Hat0 Hkey eq_refl)
          as [Hsame Hnew0].
        destruct (Hgrow m0 eq_refl) as (evs0 & Htr0).
        destruct (reconcileEntry_step env now records k0 m m0 Hwf Hstep)
          as [Hrest _].
        assert (Hwf0 : well_formed m0).
        { apply (keeps_final well_formed (reconcileEntry env now records k0) m m0);
            [|exact Hwf|now rewrite Hstep].
          apply keeps_reconcileEntry; solve_well_formed. }
        assert (Hat' : map_at k (_isolatedHardwares m0) = Some e)
          by (now rewrite Hsame).
        specialize (IH m0 Hwf0 Hnd).
        assert (Hpres0 : forall k', In k' ks ->
                           map_at k' (_isolatedHardwares m0) <> None).
        { intros k' Hin. rewrite Hrest; [apply Hpres; now right|].
          intros ->. contradiction. }
        specialize (IH Hpres0 Hat' Hlen).
        destruct (for_each (reconcileEntry env now records) ks m0)
          as [[] m1|ex m1|]; [| |exact Logic.I].
        -- destruct IH as (Hwf1 & Hat1 & Hnew1 & evs & Htr & Hin).
           split; [exact Hwf1|]. split; [exact Hat1|].
           split; [now apply no_new_entry_for_trans with m0|].
           exists (evs0 ++ evs). split; [now rewrite Htr, Htr0, app_assoc|].
           intros [Hk|Hk]; [now elim Hne|]. apply in_or_app. right. now apply Hin.
        -- destruct IH as (Hat1 & Hnew1 & k' & ma & mb & Hin & Hk' & Hthrow).
           split; [exact Hat1|].
           split; [now apply no_new_entry_for_trans with m0|].
           exists k', ma, mb. split; [now right | now split].
      * destruct (Hother m0 k (getEntityPath e) Hwf Hat0 Hkey eq_refl)
          as [Hsame Hnew0].
        split; [now rewrite Hsame|]. split; [exact Hnew0|].
        exists k0, m, m0. split; [now left|]. split; [exact Hne | exact Hstep].
Qed.

Lemma violation_creation_loop env now k e rs :
  forall m,
  well_formed m ->
  map_at k (_isolatedHardwares m) = Some e ->
  exists m1,
    for_each (createEntryIfNotExists env now) rs m = Ok tt m1 /\
    well_formed m1 /\
    map_at k (_isolatedHardwares m1) = Some e /\
    no_new_entry_for (getEntityPath e) m m1 /\
    exists evs, trace m1 = trace m ++ evs.
Proof.
  induction rs as [|r rs IH]; intros m Hwf Hat.
  - exists m. split; [reflexivity|]. split; [exact Hwf|]. split; [exact Hat|].
    split; [apply no_new_entry_for_refl|]. exists []. now rewrite app_nil_r.
  - assert (Hstep : exists m0,
              createEntryIfNotExists env now r m = Ok tt m0 /\
              well_formed m0 /\
              map_at k (_isolatedHardwares m0) = Some e /\
              no_new_entry_for (getEntityPath e) m m0).
    { unfold createEntryIfNotExists. rewrite bind_run. unfold get. cbv beta iota.
      fold (shares_path r (_isolatedHardwares m)).
      destruct (shares_path r (_isolatedHardwares m)) eqn:Hsh.
      { exists m. split; [reflexivity|]. split; [exact Hwf|]. split; [exact Hat|].
        apply no_new_entry_for_refl. }
      destruct (createEntryForRecord_run env now r m) as (m0 & Hrun & Hentries).
      exists m0. split; [exact Hrun|]. split.
      { apply (keeps_final well_formed (createEntryForRecord env now r false) m m0);
          [|exact Hwf|now rewrite Hrun].
        apply keeps_createEntryForRecord with (okKey := fun _ => True);
          first [solve_well_formed | exact Logic.I]. }
      assert (Hsame : _isolatedHardwares m0 = _isolatedHardwares m ->
                      map_at k (_isolatedHardwares m0) = Some e /\
                      no_new_entry_for (getEntityPath e) m m0).
      { intro He. split; [now rewrite He | now apply no_new_entry_for_same]. }
      destruct (record_view env r) as [ex|[[[inv bmc] sev]|]]; try now apply Hsame.
      destruct (Entry_constructs env (recordId r)); [|now apply Hsame].
      destruct (map_at (recordId r) (_isolatedHardwares m)) as [e0|] eqn:Hid.
      { apply Hsame. rewrite Hentries.
        now apply (map_insert_present _ _ e0 _ (proj1 Hwf)). }
      assert (Hk : k <> recordId r) by (intros ->; congruence).
      split.
      - rewrite Hentries, map_at_map_insert_other; assumption.
      - intros k' e' Hat' Hp. rewrite Hentries in Hat'.
        destruct (Z.eq_dec k' (recordId r)) as [->|Hk'].
        + rewrite map_at_map_insert_absent in Hat' by exact Hid.
          injection Hat' as <-. cbn [getEntityPath] in Hp.
          exfalso. apply (not_shared_path r _ k e Hsh Hat). now symmetry.
        + rewrite map_at_map_insert_other in Hat' by exact Hk'. now exists e'. }
    destruct Hstep as (m0 & Hrun & Hwf0 & Hat0 & Hnew0).
    destruct (createEntryIfNotExists_trace_grows env now r m m0) as (evs0 & Htr0);
      [now rewrite Hrun|].
    destruct (IH m0 Hwf0 Hat0) as (m1 & Hrun1 & Hwf1 & Hat1 & Hnew1 & evs & Htr).
    exists m1. cbn [for_each]. rewrite bind_run, Hrun.
    split; [exact Hrun1|]. split; [exact Hwf1|]. split; [exact Hat1|].
    split; [now apply no_new_entry_for_trans with m0|].
    exists (evs0 ++ evs). now rewrite Htr, Htr0, app_assoc.
Qed.

Lemma for_each_app {A} (f : A -> M unit) (l1 l2 : list A) (m : Manager) :
  for_each f (l1 ++ l2) m =
  match for_each f l1 m with
  | Ok _ m1 => for_each f l2 m1
  | Throw ex m1 => Throw ex m1
  | Undefined => Undefined
  end.
Proof.
  revert m. induction l1 as [|x l1 IH]; intro m; [reflexivity|].
  cbn [app for_each]. rewrite !bind_run.
  destruct (f x m) as [[] m0|ex m0|]; [apply IH | reflexivity | reflexivity].
Qed.

Lemma handler_diff_branch env now records t q m :
  records <> [] ->
  _timerObjs m = t :: q ->
  handleHostIsolatedHardwares env now records m =
  bind (for_each (reconcileEntry env now records) (map_keys (_isolatedHardwares m)))
    (fun _ =>
       bind (for_each (createEntryIfNotExists env now)
               (filter (fun record => isValidRecord (recordId record)) records))
         (fun _ => cleanupPersistedEcoCores env))
    (with_timerObjs q m).
Proof.
  intros Hrec Hq. rewrite handleHostIsolatedHardwares_run, Hq.
  unfold reconcile. rewrite bind_run. unfold get. cbv beta iota. fields.
  destruct records as [|r records]; [now elim Hrec | reflexivity].
Qed.

(** C3: a reconciliation pass over a snapshot that holds more than one valid
    record with the entity path of the entry [e] stored under [k].  The
    handler returns or throws, and in both cases [e] is still stored under
    [k] exactly as it was (severity, associations, time stamp and resolved
    flag) and no entry for this hardware has been added.  When the pass
    returns, the consistency violation is among the journal messages it
    wrote.  When it throws, the exception is thrown by the loop body of
    another entry, not by the one for [e].  And the pass continues: once the
    entries before [k] are done, the handler is the run of the remaining
    entries, the creation step and the eco-core cleanup from the state in
    which the only change made for [e] is the journal message. *)
Theorem more_than_one_valid_record_is_only_logged :
  forall env now records k e m t q,
  well_formed m ->
  _timerObjs m = t :: q ->
  map_at k (_isolatedHardwares m) = Some e ->
  (1 < List.length (valid_matches records e))%nat ->
  let violation :=
    EvLog (LogMoreThanOneValid (convertEntityPathIntoRawData (getEntityPath e))) in
  (exists m', final (handleHostIsolatedHardwares env now records m) = Some m') /\
  (forall m',
     final (handleHostIsolatedHardwares env now records m) = Some m' ->
     map_at k (_isolatedHardwares m') = Some e /\
     no_new_entry_for (getEntityPath e) m m') /\
  (forall m',
     handleHostIsolatedHardwares env now records m = Ok tt m' ->
     exists evs, trace m' = trace m ++ evs /\ In violation evs) /\
  (forall ex m',
     handleHostIsolatedHardwares env now records m = Throw ex m' ->
     exists k' m1 m2,
       k' <> k /\ In k' (map_keys (_isolatedHardwares m)) /\
       reconcileEntry env now records k' m1 = Throw ex m2) /\
  (forall pre post m1,
     map_keys (_isolatedHardwares m) = pre ++ k :: post ->
     for_each (reconcileEntry env now records) pre (with_timerObjs q m) = Ok tt m1 ->
     handleHostIsolatedHardwares env now records m =
     bind (for_each (reconcileEntry env now records) post)
       (fun _ =>
          bind (for_each (createEntryIfNotExists env now)
                  (filter (fun record => isValidRecord (recordId record)) records))
            (fun _ => cleanupPersistedEcoCores env))
       (with_trace (trace m1 ++ [violation]) m1)).
Proof.
  intros env now records k e m t q Hwf Hq Hat Hlen violation.
  assert (Hrec : records <> []).
  { intros ->. cbn in Hlen. lia. }
  pose proof (handler_diff_branch env now records t q m Hrec Hq) as Hrun.
  pose proof (well_formed_timers q m Hwf) as Hwf0.
  assert (Hnd : NoDup (map_keys (_isolatedHardwares m)))
    by (apply sorted_keys_NoDup, Hwf).
  assert (Hpres : forall k', In k' (map_keys (_isolatedHardwares m)) ->
                    map_at k' (_isolatedHardwares (with_timerObjs q m)) <> None).
  { intros k' Hin. apply map_at_key in Hin as [e' He']. fields. congruence. }
  assert (Hsplit : forall pre post m1,
    map_keys (_isolatedHardwares m) = pre ++ k :: post ->
    for_each (reconcileEntry env now records) pre (with_timerObjs q m) = Ok tt m1 ->
    handleHostIsolatedHardwares env now records m =
    bind (for_each (reconcileEntry env now records) post)
      (fun _ =>
         bind (for_each (createEntryIfNotExists env now)
                 (filter (fun record => isValidRecord (recordId record)) records))
           (fun _ => cleanupPersistedEcoCores env))
      (with_trace (trace m1 ++ [violation]) m1)).
  { intros pre post m1 Hkeys Hpre. rewrite Hrun, bind_run, Hkeys, for_each_app, Hpre.
    rewrite Hkeys in Hnd, Hpres.
    pose proof (violation_entries_loop env now records k e pre (with_timerObjs q m)
                  Hwf0 (NoDup_app_remove_r _ _ Hnd)
                  (fun k' Hin => Hpres k' (in_or_app _ _ _ (or_introl Hin)))
                  Hat Hlen) as Hloop.
    rewrite Hpre in Hloop. destruct Hloop as (_ & Hat1 & _).
    cbn [for_each]. rewrite bind_run.
    rewrite (reconcileEntry_violation env now records k e m1 Hat1 Hlen).
    now rewrite bind_run. }
  pose proof (violation_entries_loop env now records k e
                (map_keys (_isolatedHardwares m)) (with_timerObjs q m)
                Hwf0 Hnd Hpres Hat Hlen) as Hloop.
  assert (Hink : In k (map_keys (_isolatedHardwares m)))
    by (now apply map_at_Some_key with e).
  pose proof (handleHostIsolatedHardwares_defined env now records m Hwf) as Hdef.
  rewrite Hrun in *. rewrite bind_run in *.
  destruct (for_each (reconcileEntry env now records)
              (map_keys (_isolatedHardwares m)) (with_timerObjs q m))
    as [[] m1|ex m1|].
  - destruct Hloop as (Hwf1 & Hat1 & Hnew1 & evs1 & Htr1 & Hin1).
    destruct (violation_creation_loop env now k e
                (filter (fun record => isValidRecord (recordId record)) records)
                m1 Hwf1 Hat1)
      as (m2 & Hrun2 & Hwf2 & Hat2 & Hnew2 & evs2 & Htr2).
    destruct (cleanupPersistedEcoCores_ecoCores env m2) as (m3 & Hrun3 & He3 & _).
    destruct (cleanupPersistedEcoCores_trace_grows env m2 m3) as (evs3 & Htr3);
      [now rewrite Hrun3|].
    rewrite bind_run, Hrun2, Hrun3 in *.
    split; [now exists m3|]. split; [|split; [|split; [|exact Hsplit]]].
    + intros m' [= <-]. split; [now rewrite He3|].
      apply no_new_entry_for_trans with m2; [|now apply no_new_entry_for_same].
      now apply no_new_entry_for_trans with m1.
    + intros m' [= <-]. exists (evs1 ++ evs2 ++ evs3).
      split; [rewrite Htr3, Htr2, Htr1; fields; now rewrite <- !app_assoc|].
      apply in_or_app. left. now apply Hin1.
    + discriminate.
  - destruct Hloop as (Hat1 & Hnew1 & k' & ma & mb & Hin & Hk' & Hthrow).
    split; [now exists m1|]. split; [|split; [|split; [|exact Hsplit]]].
    + intros m' [= <-]. now split.
    + discriminate.
    + intros ex' m' [= <- <-]. exists k', ma, mb. now repeat split.
  - exfalso. apply Hdef; [rewrite Hq; discriminate | reflexivity].
Qed.

Lemma more_than_one_valid_record_is_only_logged_witness :
  exists m' evs,
    handleHostIsolatedHardwares Samples.envOn 200
      [Samples.recordP 1; Samples.recordP 2] Samples.managerPQ = Ok tt m' /\
    map_at 1 (_isolatedHardwares m') = Some (Samples.entryP 1) /\
    trace m' = trace Samples.managerPQ ++ evs /\
    In (EvLog (LogMoreThanOneValid Samples.pathP)) evs.
Proof.
  assert (Hwf : well_formed Samples.managerPQ).
  { split; cbn; repeat constructor; lia. }
  assert (Hlen : (1 < List.length
                        (valid_matches [Samples.recordP 1%Z; Samples.recordP 2%Z]
                           (Samples.entryP 1%Z)))%nat)
    by (vm_compute; lia).
  destruct (more_than_one_valid_record_is_only_logged Samples.envOn 200
              [Samples.recordP 1; Samples.recordP 2] 1 (Samples.entryP 1)
              Samples.managerPQ (mkTimer true 5) [] Hwf eq_refl eq_refl Hlen)
    as (_ & Hkept & Hlogged & _).
  assert (Hrun : exists m',
            handleHostIsolatedHardwares Samples.envOn 200
              [Samples.recordP 1; Samples.recordP 2] Samples.managerPQ = Ok tt m').
  { eexists. vm_compute. reflexivity. }
  destruct Hrun as (m' & Hrun).
  destruct (Hlogged m' Hrun) as (evs & Htr & Hin).
  exists m', evs. split; [exact Hrun|]. split; [|split; [exact Htr | exact Hin]].
  apply (Hkept m'). now rewrite Hrun.
Defined.
